(** * File_Processing: the merge-and-lookup engine of [merge_files_app.py]

    A shallow embedding of the table logic of the Streamlit script
    [src/merge_files_app.py] and the properties of its specification.

    The script is a sequence of pandas calls on two data frames
    ([merged_df] and [map_df]).  pandas itself is a library, so each call
    the script makes is given here as a function on a small model of a
    data frame: a list of column labels and a list of rows, every row a
    list of cells in column order.  What a call does on frames with
    repeated labels, on frames without rows and when it raises is
    written out, since the script relies on it.  Exceptions are values:
    a call that raises returns [None], and the [try]/[except] blocks of
    the script decide what happens next.  The helpers for display and
    export, the session and one run of the script follow the table logic;
    what the writers of the file formats produce, and whether line 90
    writes through [merged_df.head()] into [merged_df], are left open. *)

From Stdlib Require Import Ascii String ZArith Lia.
From stdpp Require Import base option list gmap strings pretty.

Local Open Scope string_scope.
Local Open Scope list_scope.
Local Open Scope nat_scope.

(** ** Python strings *)

(** Strings are sequences of bytes.  The rules below are Python's on ASCII
    text: white space and letters outside the ASCII range, which
    [str.strip], [str.upper] and [str.lower] also treat, are left as they
    are.  Properties that unfold these rules are stated for ASCII text. *)
Module PyStr.

(** [c.isspace()] on the ASCII range: TAB..CR, FS..US and the blank. *)
Definition isspace (c : ascii) : bool :=
  let n := nat_of_ascii c in
  (((9 <=? n) && (n <=? 13)) || ((28 <=? n) && (n <=? 32)))%nat.

Fixpoint lstrip (s : string) : string :=
  match s with
  | String c s' => if isspace c then lstrip s' else s
  | EmptyString => EmptyString
  end.

Definition rstrip (s : string) : string :=
  String.rev (lstrip (String.rev s)).

(** [s.strip()] *)
Definition strip (s : string) : string := rstrip (lstrip s).

Definition upper_ascii (c : ascii) : ascii :=
  let n := nat_of_ascii c in
  if ((97 <=? n) && (n <=? 122))%nat then ascii_of_nat (n - 32) else c.

(** [s.upper()]; characters outside a..z are kept. *)
Fixpoint upper (s : string) : string :=
  match s with
  | String c s' => String (upper_ascii c) (upper s')
  | EmptyString => EmptyString
  end.

(** [sub in s] *)
Fixpoint contains (sub s : string) : bool :=
  String.prefix sub s ||
  match s with
  | String _ s' => contains sub s'
  | EmptyString => false
  end.

Definition lower_ascii (c : ascii) : ascii :=
  let n := nat_of_ascii c in
  if ((65 <=? n) && (n <=? 90))%nat then ascii_of_nat (n + 32) else c.

(** [s.lower()]; characters outside A..Z are kept. *)
Fixpoint lower (s : string) : string :=
  match s with
  | String c s' => String (lower_ascii c) (lower s')
  | EmptyString => EmptyString
  end.

(** [s.endswith(suffix)] *)
Fixpoint endswith (s suffix : string) : bool :=
  bool_decide (s = suffix) ||
  match s with
  | String _ s' => endswith s' suffix
  | EmptyString => false
  end.

End PyStr.

(** ** Column-name helpers (lines 31-40 and 78) *)

(** [seen[col]] on a [Counter]: a missing key counts as 0. *)
Definition counter_get (seen : gmap string nat) (col : string) : nat :=
  default 0 (seen !! col).

(** The loop of [deduplicate_columns]: [seen] counts the labels met so far,
    [new_cols] is the list being built. *)
Fixpoint dedup_loop (cols : list string) (seen : gmap string nat)
    (new_cols : list string) : list string :=
  match cols with
  | [] => new_cols
  | col :: rest =>
      let n := counter_get seen col in
      let new_cols' :=
        match n with
        | O => new_cols ++ [col]
        | S _ => new_cols ++ [col +:+ "_" +:+ pretty n]
        end in
      dedup_loop rest (<[col := S n]> seen) new_cols'
  end.

Definition deduplicate_columns (cols : list string) : list string :=
  dedup_loop cols ∅ [].

(** Line 78, one label: the empty string if ["Unnamed" in str(col)] else
    [str(col).strip()]. *)
Definition blank_or_strip (col : string) : string :=
  if PyStr.contains "Unnamed" col then EmptyString else PyStr.strip col.

Definition normalize_input_columns (cols : list string) : list string :=
  blank_or_strip <$> cols.

(** ** Data frames *)

(** A cell is a string or pandas' missing marker.  Numbers read from a file
    stand for their [str] rendering, which is all the script uses of them;
    the promotion of integers to floats that pandas applies when it puts a
    missing value into their column is not told apart. *)
Inductive cell : Type :=
  | Text (s : string)
  | NaN.

Global Instance cell_eq_dec : EqDecision cell.
Proof. solve_decision. Defined.

Global Instance cell_countable : Countable cell.
Proof.
  refine (inj_countable'
            (λ c, match c with Text s => Some s | NaN => None end)
            (λ o, match o with Some s => Text s | None => NaN end) _).
  intros []; reflexivity.
Defined.

Record DataFrame : Type := mkDataFrame {
  columns : list string;       (* [df.columns], in order *)
  rows : list (list cell)      (* the rows, each in column order *)
}.

Global Instance DataFrame_eq_dec : EqDecision DataFrame.
Proof. solve_decision. Defined.

(** Every row has one cell per column. *)
Definition well_formed (df : DataFrame) : Prop :=
  Forall (λ r, length r = length (columns df)) (rows df).

(** The sentinel of lines 128 and 131. *)
Definition not_matched : cell := Text "Not Matched".

(** [str(x)] of a cell, as [astype(str)] computes it on an object column
    in pandas 1 and 2, where a missing value becomes the text ["nan"]. *)
Definition cell_str (c : cell) : string :=
  match c with
  | Text s => s
  | NaN => "nan"
  end.

(** [.astype(str).str.strip().str.upper()] on one cell (lines 117-118). *)
Definition normalize_key (c : cell) : cell :=
  Text (PyStr.upper (PyStr.strip (cell_str c))).

(** The positions of label [c] in [cols]. *)
Fixpoint positions_from (i : nat) (c : string) (cols : list string) : list nat :=
  match cols with
  | [] => []
  | l :: cols' =>
      if decide (l = c) then i :: positions_from (S i) c cols'
      else positions_from (S i) c cols'
  end.

Definition positions (c : string) (cols : list string) : list nat :=
  positions_from 0 c cols.

(** The position of a label that occurs exactly once. *)
Definition unique_pos (c : string) (cols : list string) : option nat :=
  match positions c cols with
  | [i] => Some i
  | _ => None
  end.

Definition cell_at (i : nat) (r : list cell) : cell := default NaN (r !! i).

(** Replace, in a row, every cell that stands under label [c]. *)
Fixpoint update_under (c : string) (f : cell → cell) (cols : list string)
    (r : list cell) : list cell :=
  match cols, r with
  | l :: cols', x :: r' =>
      (if decide (l = c) then f x else x) :: update_under c f cols' r'
  | _, _ => r
  end.

Module pd.

(** [pd.DataFrame()] *)
Definition empty_frame : DataFrame := mkDataFrame [] [].

(** [df.empty]: true when either axis has length 0. *)
Definition empty (df : DataFrame) : bool :=
  bool_decide (columns df = []) || bool_decide (rows df = []).

(** [df.iloc[1:].reset_index(drop=True)] *)
Definition iloc_from1 (df : DataFrame) : DataFrame :=
  mkDataFrame (columns df) (drop 1 (rows df)).

(** Shape (0, 0). *)
Definition no_axes (df : DataFrame) : bool :=
  bool_decide (columns df = []) && bool_decide (rows df = []).

(** A row of a frame labelled [old], seen under the labels [new]: the cell
    of the label where [old] has it, [NaN] elsewhere. *)
Definition reindex_row (old new : list string) (r : list cell) : list cell :=
  (λ c, match positions c old with
        | i :: _ => cell_at i r
        | [] => NaN
        end) <$> new.

Definition union_labels (a b : list string) : list string :=
  a ++ filter (λ c, c ∉ a) b.

(** [pd.concat([acc, df], ignore_index=True)].
    A frame of shape (0, 0) contributes nothing.  With equal label
    sequences the rows are stacked, repeated labels or not.  Otherwise
    the labels are united in order of first appearance and every frame is
    re-indexed to them, which pandas refuses ([InvalidIndexError]) for a
    frame with a repeated label. *)
Definition concat (acc df : DataFrame) : option DataFrame :=
  if no_axes acc then Some df
  else if no_axes df then Some acc
  else if decide (columns acc = columns df) then
    Some (mkDataFrame (columns acc) (rows acc ++ rows df))
  else if decide (NoDup (columns acc) ∧ NoDup (columns df)) then
    let cols := union_labels (columns acc) (columns df) in
    Some (mkDataFrame cols
            ((reindex_row (columns acc) cols <$> rows acc) ++
             (reindex_row (columns df) cols <$> rows df)))
  else None.

(** [df[c]] used as a Series: the cells of the one column labelled [c].
    [None] stands for the exception that follows when the label is absent
    ([KeyError]) or repeated ([df[c]] is then a frame, and the Series
    methods called on it raise). *)
Definition series (df : DataFrame) (c : string) : option (list cell) :=
  i ← unique_pos c (columns df); Some (cell_at i <$> rows df).

(** [df[c] = values]: every column labelled [c] is overwritten, a new
    column is appended at the end when there is none. *)
Definition setitem (df : DataFrame) (c : string) (values : list cell) : DataFrame :=
  if decide (c ∈ columns df) then
    mkDataFrame (columns df)
      (zip_with (λ r v, update_under c (λ _, v) (columns df) r) (rows df) values)
  else
    mkDataFrame (columns df ++ [c]) (zip_with (λ r v, r ++ [v]) (rows df) values).

(** What [zip] sees when it iterates [df[c]]: the cells of the column, or,
    for a repeated label, the labels of the frame [df[c]]. *)
Definition iter_col (df : DataFrame) (c : string) : option (list cell) :=
  match positions c (columns df) with
  | [] => None
  | [i] => Some (cell_at i <$> rows df)
  | ps => Some ((λ _, Text c) <$> ps)
  end.

(** [df[labels]]: for each requested label, in order, every column that
    carries it; [KeyError] when one is absent. *)
Definition select (df : DataFrame) (labels : list string) : option DataFrame :=
  if decide (Forall (λ c, c ∈ columns df) labels) then
    let ps := labels ≫= (λ c, positions c (columns df)) in
    Some (mkDataFrame ((λ i, default EmptyString (columns df !! i)) <$> ps)
            ((λ r, (λ i, cell_at i r) <$> ps) <$> rows df))
  else None.

(** [df.rename(columns={old: new})] *)
Definition rename (df : DataFrame) (old new : string) : DataFrame :=
  mkDataFrame ((λ l, if decide (l = old) then new else l) <$> columns df) (rows df).

(** The suffix rule of [merge]: a label present on both sides gets
    [_x] on the left and [_y] on the right. *)
Definition add_suffix (suffix : string) (overlap labels : list string) : list string :=
  (λ l, if decide (l ∈ overlap) then l +:+ suffix else l) <$> labels.

(** A renamed label that repeats an earlier renamed label although the
    original one repeated none: [merge] raises [MergeError] for it. *)
Fixpoint suffix_clash (seen_old seen_new : list string)
    (old new : list string) : bool :=
  match old, new with
  | o :: old', n :: new' =>
      (bool_decide (n ∈ seen_new) && negb (bool_decide (o ∈ seen_old)))
      || suffix_clash (o :: seen_old) (n :: seen_new) old' new'
  | _, _ => false
  end.

(** [left.merge(right, left_on=left_on, right_on=right_on, how="left")].
    Both keys must name exactly one column.  When the two key labels are
    the same, one key column is kept: the left one, unless [left] has no
    row.  Labels left on both sides are then suffixed.  Every left row
    yields, in order, one row per right row with an equal key, or one row
    padded with [NaN] when there is none. *)
Definition merge (left right : DataFrame) (left_on right_on : string)
    : option DataFrame :=
  lk ← unique_pos left_on (columns left);
  rk ← unique_pos right_on (columns right);
  let same := bool_decide (left_on = right_on) in
  let drop_r := same && negb (bool_decide (rows left = [])) in
  let drop_l := same && bool_decide (rows left = []) in
  let lcols0 := if drop_l then delete lk (columns left) else columns left in
  let rcols0 := if drop_r then delete rk (columns right) else columns right in
  let overlap := filter (λ l, l ∈ rcols0) lcols0 in
  let lcols := add_suffix "_x" overlap lcols0 in
  let rcols := add_suffix "_y" overlap rcols0 in
  if suffix_clash [] [] lcols0 lcols || suffix_clash [] [] rcols0 rcols then None
  else
    Some (mkDataFrame (lcols ++ rcols)
            (rows left ≫= (λ l,
               let lc := if drop_l then delete lk l else l in
               match filter (λ r, cell_at rk r = cell_at lk l) (rows right) with
               | [] => [lc ++ replicate (length rcols) NaN]
               | ms => (λ r, lc ++ (if drop_r then delete rk r else r)) <$> ms
               end))).

(** [x.fillna(v)] on one cell. *)
Definition fillna (v : cell) (x : cell) : cell :=
  match x with
  | NaN => v
  | Text _ => x
  end.

(** [dict(zip(keys, values))]: a later pair replaces an earlier one with
    the same key. *)
Definition dict_zip (keys values : list cell) : gmap cell cell :=
  foldl (λ d kv, <[kv.1 := kv.2]> d) ∅ (zip keys values).

(** [s.map(d)] on one cell: a key that is not in the dict gives [NaN]. *)
Definition map_cell (d : gmap cell cell) (x : cell) : cell :=
  default NaN (d !! x).

(** Remove, in a row, every cell that stands under label [c]. *)
Fixpoint delete_under (c : string) (cols : list string) (r : list cell) : list cell :=
  match cols, r with
  | l :: cols', x :: r' =>
      if decide (l = c) then delete_under c cols' r'
      else x :: delete_under c cols' r'
  | _, _ => r
  end.

(** [col_data = df.pop(c); df.insert(0, c, col_data)].  The flag tells
    whether both calls returned.  [pop] raises [KeyError] for an absent
    label and leaves the frame as it is; for a repeated label it removes
    every column that carries it and [insert] then refuses the frame it
    is handed. *)
Definition pop_insert_front (c : string) (df : DataFrame) : DataFrame * bool :=
  match positions c (columns df) with
  | [] => (df, false)
  | [i] =>
      (mkDataFrame (c :: filter (λ l, l ≠ c) (columns df))
         ((λ r, cell_at i r :: delete_under c (columns df) r) <$> rows df),
       true)
  | _ =>
      (mkDataFrame (filter (λ l, l ≠ c) (columns df))
         (delete_under c (columns df) <$> rows df),
       false)
  end.

(** [df.head()]: the first five rows. *)
Definition head (df : DataFrame) : DataFrame :=
  mkDataFrame (columns df) (take 5 (rows df)).

End pd.

(** ** Uploaded files and the merge loop (lines 63-86) *)

(** An uploaded file: its name, its size in bytes and what the reader chosen
    by the file name ([pd.read_csv] or [pd.read_excel]) makes of it, [None]
    when the reader raises. *)
Record UploadedFile : Type := mkFile {
  name : string;
  size : Z;
  parsed : option DataFrame
}.

(** The messages shown by [st.error] and [st.warning]. *)
Inductive diagnostic : Type :=
  | FileTooLarge (file : string)         (* line 69 *)
  | ReadError (file : string)            (* line 75 *)
  | SchemaMismatch (file : string)       (* line 83 *)
  | MappingFailed (value_col : string)   (* line 135 *)
  | MappingFileError.                    (* line 146 *)

Global Instance diagnostic_eq_dec : EqDecision diagnostic.
Proof. solve_decision. Defined.

Definition size_limit : Z := 1073741824.

Record merge_state : Type := mkMergeState {
  merged_df : DataFrame;
  messages : list diagnostic
}.

Definition report (d : diagnostic) (st : merge_state) : merge_state :=
  mkMergeState (merged_df st) (messages st ++ [d]).

(** Lines 68-80: the size check, the read, the label rule and the row drop.
    A skipped file yields its message, a loaded one its frame. *)
Definition load_input (idx : nat) (file : UploadedFile) : diagnostic + DataFrame :=
  if (size_limit <? size file)%Z then inl (FileTooLarge (name file))
  else
    match parsed file with
    | None => inl (ReadError (name file))
    | Some df =>
        let df := mkDataFrame (normalize_input_columns (columns df)) (rows df) in
        inr (if (0 <? idx)%nat then pd.iloc_from1 df else df)
    end.

(** Line 82: [not merged_df.empty and not df.columns.equals(merged_df.columns)]. *)
Definition schema_mismatch (acc df : DataFrame) : bool :=
  negb (pd.empty acc) && negb (bool_decide (columns df = columns acc)).

(** One iteration of the loop at line 67.  [None]: [pd.concat] raised, and
    nothing catches it at line 86. *)
Definition merge_step (idx : nat) (file : UploadedFile) (st : merge_state)
    : option merge_state :=
  match load_input idx file with
  | inl d => Some (report d st)
  | inr df =>
      if schema_mismatch (merged_df st) df then
        Some (report (SchemaMismatch (name file)) st)
      else
        acc ← pd.concat (merged_df st) df;
        Some (mkMergeState acc (messages st))
  end.

Fixpoint merge_loop (idx : nat) (files : list UploadedFile) (st : merge_state)
    : option merge_state :=
  match files with
  | [] => Some st
  | file :: rest => st' ← merge_step idx file st; merge_loop (S idx) rest st'
  end.

(** Lines 63-86. *)
Definition merge_files (uploaded_files : list UploadedFile) : option merge_state :=
  merge_loop 0 uploaded_files (mkMergeState pd.empty_frame []).

(** The mapping file (lines 102-105): read, then [deduplicate_columns]. *)
Definition load_mapping (mapping_file : UploadedFile) : diagnostic + DataFrame :=
  match parsed mapping_file with
  | None => inl MappingFileError
  | Some df => inr (mkDataFrame (deduplicate_columns (columns df)) (rows df))
  end.

(** ** The lookup (lines 116-143) *)

(** The radio button of line 114: ["merge"] or ["map"]. *)
Inductive lookup_method : Type :=
  | Merge
  | Map.

Record lookup_request : Type := mkRequest {
  key_col_main : string;
  key_col_map : string;
  value_cols_to_map : list string;
  method : lookup_method
}.

(** The variables the lookup works on. *)
Record lookup_state : Type := mkLookupState {
  lk_merged_df : DataFrame;       (* [merged_df] *)
  lk_map_df : DataFrame;          (* [map_df] *)
  mapped_columns : list string;
  lk_messages : list diagnostic;
  lookup_done : bool              (* [st.session_state.lookup_done] *)
}.

Definition new_col_name (value_col_map : string) : string :=
  value_col_map +:+ "_mapped".

(** Lines 117 and 118: [df[c] = df[c].astype(str).str.strip().str.upper()]. *)
Definition normalize_key_column (df : DataFrame) (c : string) : option DataFrame :=
  values ← pd.series df c; Some (pd.setitem df c (normalize_key <$> values)).

(** Line 128: [df[c] = df.get(c, "Not Matched").fillna("Not Matched")].
    Without a column [c], [get] hands back the string and [fillna] raises. *)
Definition fill_not_matched (df : DataFrame) (c : string) : option DataFrame :=
  if decide (c ∈ columns df) then
    Some (mkDataFrame (columns df)
            (update_under c (pd.fillna not_matched) (columns df) <$> rows df))
  else None.

(** Lines 126-127. *)
Definition merge_branch (merged map_df : DataFrame) (req : lookup_request)
    (value_col_map : string) : option DataFrame :=
  temp ← pd.select map_df [key_col_map req; value_col_map];
  pd.merge merged (pd.rename temp value_col_map (new_col_name value_col_map))
    (key_col_main req) (key_col_map req).

(** Lines 130-131. *)
Definition map_branch (merged map_df : DataFrame) (req : lookup_request)
    (value_col_map : string) : option DataFrame :=
  keys ← pd.iter_col map_df (key_col_map req);
  values ← pd.iter_col map_df value_col_map;
  let lookup_dict := pd.dict_zip keys values in
  main ← pd.series merged (key_col_main req);
  Some (pd.setitem merged (new_col_name value_col_map)
          (pd.fillna not_matched <$> (pd.map_cell lookup_dict <$> main))).

Definition mapping_failed (value_col_map : string) (merged : DataFrame)
    (st : lookup_state) : lookup_state :=
  mkLookupState merged (lk_map_df st) (mapped_columns st)
    (lk_messages st ++ [MappingFailed value_col_map]) (lookup_done st).

Definition mapping_ok (value_col_map : string) (merged : DataFrame)
    (st : lookup_state) : lookup_state :=
  mkLookupState merged (lk_map_df st)
    (mapped_columns st ++ [new_col_name value_col_map])
    (lk_messages st) (lookup_done st).

(** The body of the loop at line 122, with its [try]/[except]. *)
Definition lookup_step (req : lookup_request) (st : lookup_state)
    (value_col_map : string) : lookup_state :=
  match method req with
  | Merge =>
      match merge_branch (lk_merged_df st) (lk_map_df st) req value_col_map with
      | None => mapping_failed value_col_map (lk_merged_df st) st
      | Some merged =>
          (* line 127 has assigned [merged_df] when line 128 runs *)
          match fill_not_matched merged (new_col_name value_col_map) with
          | None => mapping_failed value_col_map merged st
          | Some merged' => mapping_ok value_col_map merged' st
          end
      end
  | Map =>
      match map_branch (lk_merged_df st) (lk_map_df st) req value_col_map with
      | None => mapping_failed value_col_map (lk_merged_df st) st
      | Some merged => mapping_ok value_col_map merged st
      end
  end.

(** The loop of lines 137-139 over the labels still to move; it stops at
    the first call that raises. *)
Fixpoint reorder_loop (cols : list string) (df : DataFrame) : DataFrame * bool :=
  match cols with
  | [] => (df, true)
  | col :: rest =>
      match pd.pop_insert_front col df with
      | (df', true) => reorder_loop rest df'
      | (df', false) => (df', false)
      end
  end.

(** The [except] of line 145. *)
Definition lookup_aborted (merged map_df : DataFrame) (mapped : list string)
    (msgs : list diagnostic) : lookup_state :=
  mkLookupState merged map_df mapped (msgs ++ [MappingFileError]) false.

(** Lines 117-143, run when the button of line 116 is pressed. *)
Definition perform_lookup (merged map_df : DataFrame) (req : lookup_request)
    : lookup_state :=
  match normalize_key_column merged (key_col_main req) with
  | None => lookup_aborted merged map_df [] []
  | Some merged1 =>
      match normalize_key_column map_df (key_col_map req) with
      | None => lookup_aborted merged1 map_df [] []
      | Some map1 =>
          let st := foldl (lookup_step req)
                      (mkLookupState merged1 map1 [] [] false)
                      (value_cols_to_map req) in
          match reorder_loop (reverse (mapped_columns st)) (lk_merged_df st) with
          | (merged2, false) =>
              lookup_aborted merged2 map1 (mapped_columns st) (lk_messages st)
          | (merged2, true) =>
              (* line 143 selects the columns it displays *)
              let shown := mapped_columns st ++ [key_col_main req] in
              mkLookupState merged2 map1 (mapped_columns st)
                (if decide (Forall (λ c, c ∈ columns merged2) shown)
                 then lk_messages st
                 else lk_messages st ++ [MappingFileError])
                true
          end
      end
  end.

(** ** The display helper (lines 42-48) *)

Section Display.

(** What [astype(str)] makes of a missing value: the text ["nan"] in
    pandas 1 and 2, the missing value itself where strings have their own
    type. *)
Variable missing_as : cell.

(** [x.astype(str)] on one cell. *)
Definition astype_str (c : cell) : cell :=
  match c with
  | Text s => Text s
  | NaN => missing_as
  end.

(** Whether [df.loc[:, col] = df[col].astype(str)] raises for the column
    labelled [col]; the handler of line 46 then leaves the column as it
    is. *)
Variable raises : string → bool.

(** [fix_dataframe_arrow]: for every label of the frame, in order, the
    assignment of line 45, which reaches every column that carries the
    label. *)
Definition fix_dataframe_arrow (df : DataFrame) : DataFrame :=
  foldl (λ df col,
           if raises col then df
           else mkDataFrame (columns df)
                  (update_under col astype_str (columns df) <$> rows df))
        df (columns df).

End Display.

(** ** The export (lines 50-61) *)

(** Lines 51-52: the file name gets the format as its extension unless it
    ends with it already, in any case of letters. *)
Definition download_name (filename format : string) : string :=
  if PyStr.endswith (PyStr.lower filename) ("." +:+ format) then filename
  else filename +:+ "." +:+ format.

Section Downloads.

(** The bytes of a download.  [to_excel] stands for what the xlsxwriter
    engine writes for [df.to_excel(writer, index=False, sheet_name="Data")],
    [to_csv] for [df.to_csv(buffer, index=False)] encoded. *)
Variable bytes : Type.
Variable to_excel : DataFrame → bytes.
Variable to_csv : DataFrame → bytes.

Definition generate_download (df : DataFrame) (filename format : string)
    : bytes * string :=
  let filename := download_name filename format in
  if decide (format = "xlsx") then (to_excel df, filename)
  else (to_csv df, filename).

End Downloads.

(** ** The session and one run of the script *)

(** A value kept in [st.session_state]. *)
Inductive session_value : Type :=
  | SStr (s : string)
  | SBool (b : bool).

Global Instance session_value_eq_dec : EqDecision session_value.
Proof. solve_decision. Defined.

(** Python's truth value of a session value. *)
Definition truthy (v : session_value) : bool :=
  match v with
  | SBool b => b
  | SStr s => negb (bool_decide (s = EmptyString))
  end.

(** Lines 10-13: a key that is missing gets its default. *)
Definition session_setup (ss : gmap string session_value)
    : gmap string session_value :=
  let ss := match ss !! "uploader_key" with
            | Some _ => ss
            | None => <["uploader_key" := SStr "uploader_1"]> ss
            end in
  match ss !! "lookup_done" with
  | Some _ => ss
  | None => <["lookup_done" := SBool false]> ss
  end.

(** Lines 17-19: every key is deleted, then the uploader gets a key made of
    the time [now] of the click. *)
Definition start_over (now : string) (ss : gmap string session_value)
    : gmap string session_value :=
  let cleared := foldl (λ m key, delete key m) ss (elements (dom ss)) in
  <["uploader_key" := SStr ("uploader_" +:+ now)]> cleared.

(** [st.session_state.lookup_done] as a condition (line 149). *)
Definition lookup_done_flag (ss : gmap string session_value) : bool :=
  match ss !! "lookup_done" with
  | Some v => truthy v
  | None => false
  end.

(** What the widgets return in one run of the script. *)
Record widgets : Type := mkWidgets {
  start_over_clicked : bool;           (* line 16 *)
  clicked_at : string;                 (* [pd.Timestamp.now().timestamp()], line 19 *)
  files_uploaded : list UploadedFile;  (* line 23 *)
  merged_filename : string;            (* line 93 *)
  merged_format : string;              (* line 94 *)
  mapping_upload : option UploadedFile;(* line 100 *)
  lookup_choice : lookup_request;      (* lines 108-114 *)
  lookup_clicked : bool;               (* line 116 *)
  lookup_filename : string;            (* line 150 *)
  lookup_format : string               (* line 151 *)
}.

Section Script.

Variable bytes : Type.
Variable to_excel : DataFrame → bytes.
Variable to_csv : DataFrame → bytes.

(** What line 90 leaves in [merged_df]: [fix_dataframe_arrow] is handed
    [merged_df.head()], and whether its assignments reach the cells of
    [merged_df] itself depends on how pandas shares the memory of the two
    frames. *)
Variable after_preview : DataFrame → DataFrame.

(** What one run puts on the page. *)
Record page : Type := mkPage {
  page_messages : list diagnostic;
  merged_download : option (bytes * string);   (* line 96 *)
  lookup_download : option (bytes * string);   (* line 153 *)
  page_merged_df : DataFrame                   (* [merged_df] when the run ends *)
}.

Inductive run_result : Type :=
  | Rerun (ss : gmap string session_value)       (* [st.rerun()], line 20 *)
  | Crashed (ss : gmap string session_value)     (* line 86 raised *)
  | Rendered (ss : gmap string session_value) (p : page).

(** The mapping section, lines 98-146: the table, the session and the
    messages it leaves. *)
Definition mapping_section (w : widgets) (merged : DataFrame)
    (ss : gmap string session_value) (msgs : list diagnostic)
    : DataFrame * gmap string session_value * list diagnostic :=
  match mapping_upload w with
  | None => (merged, ss, msgs)
  | Some file =>
      match load_mapping file with
      | inl d => (merged, ss, msgs ++ [d])
      | inr map_df =>
          if lookup_clicked w then
            let out := perform_lookup merged map_df (lookup_choice w) in
            (lk_merged_df out,
             if lookup_done out then <["lookup_done" := SBool true]> ss else ss,
             msgs ++ lk_messages out)
          else (merged, ss, msgs)
      end
  end.

(** One run of the script, from the session of the run before. *)
Definition run_script (ss : gmap string session_value) (w : widgets) : run_result :=
  let ss := session_setup ss in
  if start_over_clicked w then Rerun (start_over (clicked_at w) ss)
  else
    match merge_files (files_uploaded w) with
    | None => Crashed ss
    | Some st =>
        let '(merged, ss, msgs, offered) :=
          if pd.empty (merged_df st) then
            (merged_df st, ss, messages st, None)
          else
            let merged := after_preview (merged_df st) in
            let offered :=
              Some (generate_download bytes to_excel to_csv merged
                      (merged_filename w) (merged_format w)) in
            let '(merged', ss', msgs) := mapping_section w merged ss (messages st) in
            (merged', ss', msgs, offered) in
        Rendered ss
          (mkPage msgs offered
             (if lookup_done_flag ss then
                Some (generate_download bytes to_excel to_csv merged
                        (lookup_filename w) (lookup_format w))
              else None)
             merged)
    end.

End Script.

(** ** Notions used by the properties *)

(** The step that rejects a table for its labels. *)
Definition rejected_for_schema (idx : nat) (file : UploadedFile)
    (st : merge_state) : Prop :=
  merge_step idx file st = Some (report (SchemaMismatch (name file)) st).

(** [c] labels exactly one column of [cols]. *)
Definition once (c : string) (cols : list string) : Prop :=
  ∃ l1 l2, cols = l1 ++ c :: l2 ∧ (c ∉ l1) ∧ (c ∉ l2).

(** The cell of row [r] under the first column labelled [c]. *)
Fixpoint row_get (c : string) (cols : list string) (r : list cell) : cell :=
  match cols, r with
  | l :: cols', x :: r' => if decide (l = c) then x else row_get c cols' r'
  | _, _ => NaN
  end.

(** The cells of a row that are left once the labels [cs] are popped. *)
Fixpoint delete_all (cs : list string) (cols : list string) (r : list cell)
    : list cell :=
  match cs with
  | [] => r
  | c :: cs' => delete_all cs' (filter (λ l, l ≠ c) cols) (pd.delete_under c cols r)
  end.

(** A frame after line 117 or 118: the cells under the key label are
    normalized. *)
Definition normalized (df : DataFrame) (c : string) : DataFrame :=
  mkDataFrame (columns df) (update_under c normalize_key (columns df) <$> rows df).

(** No row of the mapping table [M1] has, at its key position [j], the key
    that row [t] has at position [i]. *)
Definition unmatched (M1 : DataFrame) (j i : nat) (t : list cell) : Prop :=
  ∀ m, m ∈ rows M1 → cell_at j m ≠ cell_at i t.

(** What [merge] may make of a label of the merged table: it keeps it, or
    suffixes it when it is the label of the mapping key. *)
Definition kept (key l l' : string) : Prop :=
  l' = l ∨ (l = key ∧ l' = key +:+ "_x").

(** The labels under which [merge] adds the key column of the mapping table. *)
Definition key_label (key l : string) : Prop :=
  l = key ∨ l = key +:+ "_x" ∨ l = key +:+ "_y".

(** A row of the merged table during the lookup: the cells [t] of a row of
    the table the lookup started from, then the cells [e] of the columns
    added since, where every [_mapped] cell is the sentinel when the key of
    [t] is unmatched. *)
Definition row_ok (T1 M1 : DataFrame) (i j : nat) (added mapped : list string)
    (r : list cell) : Prop :=
  ∃ t e, r = t ++ e ∧ t ∈ rows T1 ∧ length e = length added ∧
         (unmatched M1 j i t → ∀ c, c ∈ mapped → row_get c added e = not_matched).

(** The invariant of the loop at line 122, after the value columns [P]. *)
Definition lookup_inv (T M : DataFrame) (req : lookup_request) (i j : nat)
    (P : list string) (st : lookup_state) : Prop :=
  let T1 := normalized T (key_col_main req) in
  let M1 := normalized M (key_col_map req) in
  ∃ T' added,
    columns (lk_merged_df st) = T' ++ added ∧
    Forall2 (kept (key_col_map req)) (columns T) T' ∧
    T' !! i = Some (key_col_main req) ∧
    Forall (λ l, l ∈ mapped_columns st ∨ key_label (key_col_map req) l) added ∧
    mapped_columns st `sublist_of` (new_col_name <$> P) ∧
    (∀ c, c ∈ mapped_columns st →
          once c added ∧ (method req = Merge → c ≠ key_col_map req)) ∧
    (method req = Map ∨ key_col_main req = key_col_map req →
     T' = columns T ∧ added = mapped_columns st ∧
     mapped_columns st = new_col_name <$> P) ∧
    rows (lk_merged_df st) ≠ [] ∧
    Forall (row_ok T1 M1 i j added (mapped_columns st)) (rows (lk_merged_df st)) ∧
    (∀ t, t ∈ rows T1 → ∃ e, t ++ e ∈ rows (lk_merged_df st)) ∧
    lk_map_df st = M1.

(** The contract under which the lookup is studied.  The test of line 88
    gives the merged table a row and a column, and the widgets of lines
    109-113 offer labels of the mapping table as its key and as value
    columns, the key left out.  The rest is assumed of the tables and is
    guaranteed by nothing in the script: the rows of the merged table are
    aligned with its labels, its key label names exactly one of its
    columns, the labels of the mapping table are pairwise distinct, the
    value columns are distinct, and no column of the merged table carries
    one of the names the lookup is about to create. *)
Definition lookup_contract (T M : DataFrame) (req : lookup_request) : Prop :=
  pd.empty T = false ∧ well_formed T ∧
  once (key_col_main req) (columns T) ∧
  NoDup (columns M) ∧ key_col_map req ∈ columns M ∧
  NoDup (value_cols_to_map req) ∧
  ∀ v, v ∈ value_cols_to_map req →
       v ∈ columns M ∧ v ≠ key_col_map req ∧ new_col_name v ∉ columns T.

(** The number of times label [c] occurs in [cols]. *)
Definition occurrences (c : string) (cols : list string) : nat :=
  length (filter (λ x, x = c) cols).

(** The name a label gets when it was met [n] times before. *)
Definition dedup_name (col : string) (n : nat) : string :=
  match n with
  | O => col
  | S _ => col +:+ "_" +:+ pretty n
  end.

(** What a file that is not the first of the upload does to a merged table
    that has rows and the labels [cols]: it adds its rows without the first
    one, or it is skipped with a message. *)
Definition later_file (cols : list string) (f : UploadedFile)
    : diagnostic + list (list cell) :=
  match load_input 1 f with
  | inl d => inl d
  | inr df =>
      if decide (columns df = cols) then inr (rows df)
      else inl (SchemaMismatch (name f))
  end.

Definition rows_added (cols : list string) (f : UploadedFile) : list (list cell) :=
  match later_file cols f with
  | inr rs => rs
  | inl _ => []
  end.

Definition message_left (cols : list string) (f : UploadedFile) : option diagnostic :=
  match later_file cols f with
  | inr _ => None
  | inl d => Some d
  end.

(** A text made of ASCII characters only: on such a text the string rules
    of [PyStr] are those of Python. *)
Definition is_ascii (s : string) : Prop :=
  Forall (λ c, nat_of_ascii c < 128) (list_ascii_of_string s).


(** What the map method finds for [key] in the mapping table [M1] whose key
    cells are normalized: the cell under [value_col] of the last row whose
    cell under [key_col] is [key]; the sentinel when there is no such row,
    or when that cell is missing. *)
Definition mapped_value (M1 : DataFrame) (key_col value_col : string) (key : cell)
    : cell :=
  pd.fillna not_matched
    (match last (filter (λ m, row_get key_col (columns M1) m = key) (rows M1)) with
     | Some m => row_get value_col (columns M1) m
     | None => NaN
     end).

(** The cells the merge method puts under [value_col_mapped] for a row with
    key [key]: one for each row of the mapping table [M1] with that key, in
    order, a missing cell replaced by the sentinel; the sentinel alone when
    no row has the key. *)
Definition merged_values (M1 : DataFrame) (key_col value_col : string) (key : cell)
    : list cell :=
  match filter (λ m, row_get key_col (columns M1) m = key) (rows M1) with
  | [] => [not_matched]
  | ms => (λ m, pd.fillna not_matched (row_get value_col (columns M1) m)) <$> ms
  end.

(** The [_mapped] cells the merge method adds to a row with key [key] over
    the value columns [P]: every choice of one cell per value column, the
    choice for the first value column varying slowest. *)
Definition merged_cells (M1 : DataFrame) (key_col : string) (P : list string)
    (key : cell) : list (list cell) :=
  foldl (λ es v, es ≫= (λ e, (λ x, e ++ [x]) <$> merged_values M1 key_col v key))
        [[]] P.

(** ** Sample files and tables *)

(** A mapping file whose header holds an empty name and a placeholder. *)
Definition placeholder_header_file : UploadedFile :=
  mkFile "map.csv" 64 (Some (mkDataFrame [EmptyString; "Unnamed: 0"] [])).

Definition oversized_mapping_file : UploadedFile :=
  mkFile "map.csv" 2147483648
    (Some (mkDataFrame ["ID"; "Name"] [[Text "A1"; Text "Bob"]])).

Definition sales_jan : DataFrame :=
  mkDataFrame ["ID"; "Amount"] [[Text "a1"; Text "10"]; [Text "b2"; Text "20"]].

Definition sales_feb : DataFrame :=
  mkDataFrame ["ID"; "Amount"] [[Text "ID"; Text "Amount"]; [Text "c3"; Text "30"]].

Definition header_only_file : UploadedFile :=
  mkFile "a.csv" 2 (Some (mkDataFrame ["a"] [])).

Definition other_columns_file : UploadedFile :=
  mkFile "b.csv" 6 (Some (mkDataFrame ["b"] [[Text "1"]; [Text "2"]])).

Definition oversized_file : UploadedFile :=
  mkFile "big.csv" 2000000000 (Some (mkDataFrame ["b"] [[Text "0"]])).

Definition ids_table : DataFrame :=
  mkDataFrame ["ID"] [[Text "a1"]; [Text "A1 "]].

Definition names_table : DataFrame :=
  mkDataFrame ["ID"; "Name"] [[Text "a1"; Text "Bob"]].

Definition name_request (m : lookup_method) : lookup_request :=
  mkRequest "ID" "ID" ["Name"] m.

Definition sales_table : DataFrame :=
  mkDataFrame ["ID"; "Sales"]
    [[Text "a1"; Text "10"]; [Text " b2"; Text "20"]; [Text "zz"; Text "30"]].

Definition regions_table : DataFrame :=
  mkDataFrame ["ID"; "Region"; "Manager"]
    [[Text "A1"; Text "North"; Text "Ann"]; [Text "B2"; Text "South"; NaN]].

Definition region_manager_request (m : lookup_method) : lookup_request :=
  mkRequest "ID" "ID" ["Region"; "Manager"] m.

(** What the widgets return in a run in which nothing is pressed and no
    mapping file is given; the text inputs and select boxes hold their
    defaults (lines 93, 94, 150 and 151). *)
Definition idle_widgets (files : list UploadedFile) : widgets :=
  mkWidgets false "0" files "merged_file" "xlsx" None (name_request Map) false
    "after_lookup" "xlsx".

(** A session in which a lookup was performed in an earlier run. *)
Definition session_after_lookup : gmap string session_value :=
  <["lookup_done" := SBool true]> (<["uploader_key" := SStr "uploader_1"]> ∅).


(** A merged table that already has a column under the name the lookup
    gives the column it creates for [Region]. *)
Definition labelled_sales_table : DataFrame :=
  mkDataFrame ["ID"; "Region_mapped"; "Sales"]
    [[Text "a1"; Text "old"; Text "10"]; [Text "zz"; Text "kept"; Text "30"]].

Definition region_table : DataFrame :=
  mkDataFrame ["ID"; "Region"] [[Text "A1"; Text "North"]].

Definition region_request (m : lookup_method) : lookup_request :=
  mkRequest "ID" "ID" ["Region"] m.

(** A mapping table in which two rows have the same key once normalized. *)
Definition regions_repeated_table : DataFrame :=
  mkDataFrame ["ID"; "Region"; "Manager"]
    [[Text "A1"; Text "North"; Text "Ann"]; [Text "a1 "; Text "East"; Text "Bob"]].

(** * Properties *)

(** ** Examples *)

Example dedup_xxx : deduplicate_columns ["x"; "x"; "x"] = ["x"; "x_1"; "x_2"].
Proof. vm_compute. reflexivity. Qed.

Example blank_example :
  normalize_input_columns ["Unnamed: 0"; " a b  "; "Unnamed: 1"] = [EmptyString; "a b"; EmptyString].
Proof. vm_compute. reflexivity. Qed.


(** Two rows of the mapping table with one key: the merge method yields a
    row for each, the map method keeps the value of the later one. *)
Example merge_fans_out :
  rows (lk_merged_df
          (perform_lookup (mkDataFrame ["ID"] [[Text "k"]])
             (mkDataFrame ["ID"; "Name"] [[Text "K"; Text "v1"]; [Text "K"; Text "v2"]])
             (name_request Merge))) =
    [[Text "v1"; Text "K"]; [Text "v2"; Text "K"]].
Proof. vm_compute. reflexivity. Qed.

Example map_keeps_last :
  rows (lk_merged_df
          (perform_lookup (mkDataFrame ["ID"] [[Text "k"]])
             (mkDataFrame ["ID"; "Name"] [[Text "K"; Text "v1"]; [Text "K"; Text "v2"]])
             (name_request Map))) =
    [[Text "v2"; Text "K"]].
Proof. vm_compute. reflexivity. Qed.

(** Keys are compared after trimming and uppercasing. *)
Example both_rows_match :
  lk_merged_df (perform_lookup ids_table names_table (name_request Map)) =
    mkDataFrame ["Name_mapped"; "ID"]
      [[Text "Bob"; Text "A1"]; [Text "Bob"; Text "A1"]].
Proof. vm_compute. reflexivity. Qed.

(** A merge on two different key labels adds the key column of the mapping
    table, suffixed from the second value column on. *)
Example merge_on_different_keys :
  columns (lk_merged_df
             (perform_lookup sales_table
                (mkDataFrame ["Key"; "Region"; "Manager"] (rows regions_table))
                (mkRequest "ID" "Key" ["Region"; "Manager"] Merge))) =
    ["Region_mapped"; "Manager_mapped"; "ID"; "Sales"; "Key_x"; "Key_y"].
Proof. vm_compute. reflexivity. Qed.

(** ** Column names *)

Section Dedup.

Lemma counter_get_insert_ne seen (a b : string) n :
  a ≠ b → counter_get (<[a := n]> seen) b = counter_get seen b.
Proof. intros Hne. unfold counter_get. by rewrite lookup_insert_ne. Qed.

(** A label that was not met before is appended as it is. *)
Lemma dedup_loop_fresh cols : ∀ seen new_cols,
  NoDup cols →
  (∀ c, c ∈ cols → counter_get seen c = 0) →
  dedup_loop cols seen new_cols = new_cols ++ cols.
Proof.
  induction cols as [|col rest IH]; intros seen new_cols Hnd Hseen; simpl.
  - by rewrite app_nil_r.
  - apply NoDup_cons in Hnd as [Hnotin Hnd].
    rewrite (Hseen col) by apply list_elem_of_here.
    rewrite IH; [by rewrite <- app_assoc | done |].
    intros c Hc. rewrite counter_get_insert_ne;
      [apply Hseen; by apply list_elem_of_further|].
    intros ->. contradiction.
Qed.

Lemma deduplicate_columns_NoDup_id cols :
  NoDup cols → deduplicate_columns cols = cols.
Proof.
  intros Hnd. unfold deduplicate_columns.
  by rewrite dedup_loop_fresh.
Qed.

End Dedup.

(** C9. [deduplicate_columns] does not always return pairwise distinct
    names: on ["x"; "x"; "x_1"] the suffixed second name collides with the
    third, and the result names "x_1" twice. *)
Theorem deduplicate_columns_collision :
  deduplicate_columns ["x"; "x"; "x_1"] = ["x"; "x_1"; "x_1"] ∧
  ¬ NoDup (deduplicate_columns ["x"; "x"; "x_1"]).
Proof.
  assert (Heq : deduplicate_columns ["x"; "x"; "x_1"] = ["x"; "x_1"; "x_1"])
    by (vm_compute; reflexivity).
  split; [exact Heq|].
  rewrite Heq. intros Hnd.
  apply NoDup_cons in Hnd as [_ Hnd].
  apply NoDup_cons in Hnd as [Hnotin _].
  apply Hnotin. apply list_elem_of_here.
Qed.

(** C7, counterexample: the mapping-table header made of the empty name and
    "Unnamed: 0" is not normalized to the empty name and "_1"; the lookup
    sees it unchanged. *)
Lemma mapping_header_not_blanked :
  ∃ df, load_mapping placeholder_header_file = inr df ∧
        columns df = [EmptyString; "Unnamed: 0"] ∧
        columns df ≠ [EmptyString; "_1"].
Proof.
  eexists. split; [vm_compute; reflexivity|]. split; [reflexivity|discriminate].
Qed.

(** C7, amended. The mapping table's labels go through
    [deduplicate_columns] and nothing else: labels that are pairwise
    distinct are kept as the reader gave them, placeholder or padded with
    blanks as they may be. The blanking and trimming rule is applied to the
    input tables, and those are not deduplicated; only the two rules one
    after the other turn the empty name and "Unnamed: 0" into the empty
    name and "_1". *)
Theorem mapping_columns_deduplicated_only (file : UploadedFile) (df : DataFrame) :
  parsed file = Some df →
  load_mapping file = inr (mkDataFrame (deduplicate_columns (columns df)) (rows df)) ∧
  (NoDup (columns df) → load_mapping file = inr df) ∧
  ((size file ≤ size_limit)%Z →
   load_input 0 file = inr (mkDataFrame (blank_or_strip <$> columns df) (rows df))) ∧
  deduplicate_columns ["x"; "x"; "x"] = ["x"; "x_1"; "x_2"] ∧
  normalize_input_columns [EmptyString; "Unnamed: 0"] = [EmptyString; EmptyString] ∧
  deduplicate_columns (normalize_input_columns [EmptyString; "Unnamed: 0"]) = [EmptyString; "_1"].
Proof.
  intros Hp. unfold load_mapping, load_input. rewrite Hp.
  split; [reflexivity|]. split.
  - intros Hnd. rewrite deduplicate_columns_NoDup_id by done. by destruct df.
  - split.
    + intros Hsz. destruct (Z.ltb_spec size_limit (size file)); [lia|reflexivity].
    + repeat split; vm_compute; reflexivity.
Qed.

Lemma mapping_columns_deduplicated_only_witness :
  load_mapping placeholder_header_file = inr (mkDataFrame [EmptyString; "Unnamed: 0"] []).
Proof.
  destruct (mapping_columns_deduplicated_only placeholder_header_file
              (mkDataFrame [EmptyString; "Unnamed: 0"] []) eq_refl) as (_ & H & _).
  apply H. apply (bool_decide_unpack _). vm_compute. exact I.
Defined.

(** ** The size limit *)

(** C10. A file of 2 GiB is refused by the merge loop before its content
    is looked at, yet accepted and read as a mapping file. *)
Theorem oversized_mapping_file_is_read :
  (size_limit < size oversized_mapping_file)%Z ∧
  load_input 0 oversized_mapping_file = inl (FileTooLarge "map.csv") ∧
  load_mapping oversized_mapping_file =
    inr (mkDataFrame ["ID"; "Name"] [[Text "A1"; Text "Bob"]]).
Proof. repeat split; vm_compute; reflexivity. Qed.

(** ** The merge loop *)

Section MergeLoop.

Lemma empty_false df :
  pd.empty df = false ↔ columns df ≠ [] ∧ rows df ≠ [].
Proof.
  unfold pd.empty. rewrite orb_false_iff, !bool_decide_eq_false. tauto.
Qed.

Lemma schema_mismatch_true acc df :
  schema_mismatch acc df = true ↔
  columns acc ≠ [] ∧ rows acc ≠ [] ∧ columns df ≠ columns acc.
Proof.
  unfold schema_mismatch.
  rewrite andb_true_iff, !negb_true_iff, empty_false, bool_decide_eq_false.
  tauto.
Qed.

Lemma concat_empty_frame df : pd.concat pd.empty_frame df = Some df.
Proof. reflexivity. Qed.

Lemma concat_same_columns acc df :
  columns acc = columns df → rows acc ≠ [] →
  pd.concat acc df = Some (mkDataFrame (columns acc) (rows acc ++ rows df)).
Proof.
  intros Hc Hr. unfold pd.concat, pd.no_axes.
  rewrite (bool_decide_eq_false_2 (rows acc = [])) by done.
  rewrite andb_false_r.
  destruct (bool_decide (columns df = []) && bool_decide (rows df = [])) eqn:Hdf.
  - apply andb_true_iff in Hdf as [_ Hrows%bool_decide_eq_true].
    rewrite Hrows, app_nil_r. by destruct acc.
  - by rewrite decide_True.
Qed.

(** A file within the size limit that the reader accepts is loaded with
    its labels blanked or trimmed, and without its first row unless it
    comes first. *)
Lemma load_input_parsed idx file t :
  (size file ≤ size_limit)%Z → parsed file = Some t →
  load_input idx file =
    inr (mkDataFrame (normalize_input_columns (columns t))
           (if decide (idx = 0) then rows t else drop 1 (rows t))).
Proof.
  intros Hsz Hp. unfold load_input. rewrite Hp.
  destruct (Z.ltb_spec size_limit (size file)); [lia|].
  destruct idx; reflexivity.
Qed.

Lemma load_input_inr idx file df :
  load_input idx file = inr df →
  ∃ t, (size file ≤ size_limit)%Z ∧ parsed file = Some t ∧
       columns df = normalize_input_columns (columns t) ∧
       rows df = if decide (idx = 0) then rows t else drop 1 (rows t).
Proof.
  unfold load_input.
  destruct (Z.ltb_spec size_limit (size file)); [discriminate|].
  destruct (parsed file) as [t|]; [|discriminate].
  intros [= <-]. exists t. destruct idx; simpl; auto.
Qed.

Lemma merge_loop_app pre : ∀ idx rest st,
  merge_loop idx (pre ++ rest) st =
  st' ← merge_loop idx pre st; merge_loop (idx + length pre) rest st'.
Proof.
  induction pre as [|f pre IH]; intros idx rest st; simpl.
  - by rewrite Nat.add_0_r.
  - destruct (merge_step idx f st) as [st1|]; simpl; [|done].
    rewrite IH. by rewrite Nat.add_succ_r.
Qed.

End MergeLoop.




(** C2, counterexample: after a first file with a header and no row the
    accumulator has the column "a" and zero rows; the second file has
    other labels, is not rejected and its rows are appended. *)
Lemma zero_row_accumulator_accepts_other_columns :
  merge_files [header_only_file] =
    Some (mkMergeState (mkDataFrame ["a"] []) []) ∧
  ¬ rejected_for_schema 1 other_columns_file
      (mkMergeState (mkDataFrame ["a"] []) []) ∧
  merge_files [header_only_file; other_columns_file] =
    Some (mkMergeState (mkDataFrame ["a"; "b"] [[NaN; Text "2"]]) []).
Proof.
  split; [vm_compute; reflexivity|]. split; [|vm_compute; reflexivity].
  unfold rejected_for_schema. vm_compute. discriminate.
Qed.

(** C2, amended. A loaded table is rejected exactly when the accumulator
    has at least one column and at least one row and the table's label
    sequence differs from the accumulator's. The rejection adds the
    schema-mismatch message, leaves the accumulator as it is and the loop
    goes on with the next file. *)
Theorem schema_rejection_rule (idx : nat) (file : UploadedFile)
    (rest : list UploadedFile) (st : merge_state) (df : DataFrame) :
  load_input idx file = inr df →
  (rejected_for_schema idx file st ↔
   columns (merged_df st) ≠ [] ∧ rows (merged_df st) ≠ [] ∧
   columns df ≠ columns (merged_df st)) ∧
  (rejected_for_schema idx file st →
   merge_loop idx (file :: rest) st =
   merge_loop (S idx) rest
     (mkMergeState (merged_df st) (messages st ++ [SchemaMismatch (name file)]))) ∧
  (¬ rejected_for_schema idx file st →
   merge_step idx file st =
   acc ← pd.concat (merged_df st) df; Some (mkMergeState acc (messages st))).
Proof.
  intros Hload.
  assert (Hiff : rejected_for_schema idx file st ↔
                 schema_mismatch (merged_df st) df = true).
  { unfold rejected_for_schema, merge_step. rewrite Hload.
    destruct (schema_mismatch (merged_df st) df); [done|].
    split; [|done].
    destruct (pd.concat (merged_df st) df) as [acc|]; simpl; [|done].
    intros [= _ Hm]. unfold report in Hm.
    apply (f_equal length) in Hm. rewrite length_app in Hm. simpl in Hm. lia. }
  split; [by rewrite Hiff, schema_mismatch_true|]. split.
  - intros Hrej. cbn [merge_loop]. by rewrite Hrej.
  - rewrite Hiff. intros Hno. unfold merge_step. rewrite Hload.
    by destruct (schema_mismatch (merged_df st) df).
Qed.

Lemma schema_rejection_rule_witness :
  rejected_for_schema 1 header_only_file
    (mkMergeState (mkDataFrame ["b"] [[Text "1"]]) []).
Proof.
  apply (schema_rejection_rule 1 header_only_file []
           (mkMergeState (mkDataFrame ["b"] [[Text "1"]]) [])
           (mkDataFrame ["a"] []) eq_refl).
  repeat split; discriminate.
Defined.

(** C3, counterexample: the first file is refused as oversized, so the
    second one is the first table accepted; it still loses its first row. *)
Lemma first_accepted_table_loses_first_row :
  merge_files [oversized_file; other_columns_file] =
    Some (mkMergeState (mkDataFrame ["b"] [[Text "2"]]) [FileTooLarge "big.csv"]) ∧
  merge_files [other_columns_file] =
    Some (mkMergeState (mkDataFrame ["b"] [[Text "1"]; [Text "2"]]) []).
Proof. split; vm_compute; reflexivity. Qed.

(** C3, amended. The first row of a loaded table is dropped exactly when
    the table is not at position 0 of the upload sequence, whatever
    happened to the files before it; the loop hands every file its
    position in that sequence. *)
Theorem first_row_dropped_by_position (pre rest : list UploadedFile)
    (file : UploadedFile) (df : DataFrame) (st0 : merge_state) :
  load_input (length pre) file = inr df →
  (∃ t, parsed file = Some t ∧
        rows df = if decide (length pre = 0) then rows t else drop 1 (rows t)) ∧
  merge_loop 0 (pre ++ file :: rest) st0 =
    st ← merge_loop 0 pre st0;
    st' ← merge_step (length pre) file st;
    merge_loop (S (length pre)) rest st'.
Proof.
  intros Hload. split.
  - apply load_input_inr in Hload as (t & _ & Hp & _ & Hr). eauto.
  - rewrite merge_loop_app. simpl. reflexivity.
Qed.

Lemma first_row_dropped_by_position_witness :
  ∃ t, parsed other_columns_file = Some t ∧
       rows (mkDataFrame ["b"] [[Text "2"]]) =
         if decide (length [oversized_file] = 0) then rows t else drop 1 (rows t).
Proof.
  exact (proj1 (first_row_dropped_by_position [oversized_file] [] other_columns_file
                  (mkDataFrame ["b"] [[Text "2"]])
                  (mkMergeState pd.empty_frame []) eq_refl)).
Defined.

(** ** The lookup: rows and the mapping table *)

Section LookupRows.

Implicit Types (df merged map_df : DataFrame) (req : lookup_request).

Lemma positions_from_elem c cols : ∀ k i,
  i ∈ positions_from k c cols → cols !! (i - k) = Some c ∧ k ≤ i.
Proof.
  induction cols as [|l cols IH]; intros k i Hi; simpl in Hi.
  - by apply elem_of_nil in Hi.
  - destruct (decide (l = c)) as [->|Hne].
    + apply elem_of_cons in Hi as [->|Hi].
      * rewrite Nat.sub_diag. split; [done|lia].
      * apply IH in Hi as [Hl Hle]. split; [|lia].
        replace (i - k) with (S (i - S k)) by lia. done.
    + apply IH in Hi as [Hl Hle]. split; [|lia].
      replace (i - k) with (S (i - S k)) by lia. done.
Qed.

Lemma positions_from_nil c cols k :
  positions_from k c cols = [] ↔ c ∉ cols.
Proof.
  revert k. induction cols as [|l cols IH]; intros k; simpl.
  - split; [intros _; apply not_elem_of_nil|done].
  - rewrite not_elem_of_cons. destruct (decide (l = c)) as [->|Hne].
    + split; [done|]. by intros [? _].
    + rewrite IH. split; [intros ?; split; [congruence|done] | by intros [_ ?]].
Qed.

Lemma update_under_absent c f cols r :
  c ∉ cols → update_under c f cols r = r.
Proof.
  revert r. induction cols as [|l cols IH]; intros [|x r] Hn; simpl; try done.
  apply not_elem_of_cons in Hn as [Hne Hn].
  rewrite decide_False by done. f_equal. by apply IH.
Qed.

Lemma unique_pos_elem c cols i : unique_pos c cols = Some i → c ∈ cols.
Proof.
  unfold unique_pos, positions. intros H.
  destruct (decide (c ∈ cols)) as [|Hn]; [done|].
  apply (positions_from_nil c cols 0) in Hn. rewrite Hn in H. discriminate.
Qed.

Lemma update_under_length c f cols r :
  length (update_under c f cols r) = length r.
Proof.
  revert r. induction cols as [|l cols IH]; intros [|x r]; simpl; auto.
Qed.


(** Writing the value computed from the one cell under a label is the
    same as updating that cell. *)
Lemma update_under_unique c f cols : ∀ r k i,
  positions_from k c cols = [i] →
  update_under c (λ _, f (cell_at (i - k) r)) cols r = update_under c f cols r.
Proof.
  induction cols as [|l cols IH]; intros r k i Hpos; [done|].
  destruct r as [|x r]; [done|]. simpl in *.
  destruct (decide (l = c)) as [->|Hne].
  - injection Hpos as -> Hnil. rewrite Nat.sub_diag. unfold cell_at at 1. simpl.
    f_equal. apply positions_from_nil in Hnil.
    by rewrite !update_under_absent.
  - f_equal.
    assert (Hi : S k ≤ i).
    { eapply (positions_from_elem c cols (S k) i). rewrite Hpos.
      apply list_elem_of_here. }
    rewrite <- (IH r (S k) i Hpos).
    replace (i - k) with (S (i - S k)) by lia. reflexivity.
Qed.

Lemma zip_with_fmap_same {A B C} (g : A → B → C) (h : A → B) (l : list A) :
  zip_with g l (h <$> l) = (λ x, g x (h x)) <$> l.
Proof. induction l; simpl; by f_equal. Qed.

(** Lines 117-118 on a frame: the labels stay, and every row is changed
    under the key label only, where the cell is normalized. *)
Lemma normalize_key_column_spec df c df' :
  normalize_key_column df c = Some df' →
  df' = mkDataFrame (columns df) (update_under c normalize_key (columns df) <$> rows df).
Proof.
  unfold normalize_key_column, pd.series. intros H.
  destruct (unique_pos c (columns df)) as [i|] eqn:Hi; [|discriminate].
  simpl in H. injection H as <-.
  unfold pd.setitem. rewrite decide_True by (by eapply unique_pos_elem).
  f_equal. rewrite <- list_fmap_compose, zip_with_fmap_same.
  apply list_fmap_ext. intros _ r _. simpl.
  unfold unique_pos, positions in Hi.
  destruct (positions_from 0 c (columns df)) as [|i' [|]] eqn:Hpos; try discriminate.
  injection Hi as ->.
  rewrite <- (update_under_unique c normalize_key (columns df) r 0 i Hpos).
  by rewrite Nat.sub_0_r.
Qed.

Lemma normalize_key_column_rows df c df' :
  normalize_key_column df c = Some df' → length (rows df') = length (rows df).
Proof. intros ->%normalize_key_column_spec. simpl. by rewrite length_fmap. Qed.

Lemma setitem_rows df c values :
  length values = length (rows df) →
  length (rows (pd.setitem df c values)) = length (rows df).
Proof.
  intros Hlen. unfold pd.setitem.
  destruct (decide (c ∈ columns df)); simpl; rewrite length_zip_with; lia.
Qed.

Lemma bind_length_ge {A B} (f : A → list B) (l : list A) :
  (∀ x, f x ≠ []) → length l ≤ length (l ≫= f).
Proof.
  intros Hf. induction l as [|x l IH]; [simpl; lia|].
  rewrite bind_cons, length_app. specialize (Hf x).
  destruct (f x); [done|simpl; lia].
Qed.

(** A left join keeps every left row at least once. *)
Lemma merge_rows left right left_on right_on out :
  pd.merge left right left_on right_on = Some out →
  length (rows left) ≤ length (rows out).
Proof.
  unfold pd.merge. intros H.
  destruct (unique_pos left_on (columns left)) as [lk|]; [|discriminate].
  destruct (unique_pos right_on (columns right)) as [rk|]; [|discriminate].
  simpl in H. destruct (_ || _) in H; [discriminate|].
  injection H as <-. simpl. apply bind_length_ge.
  intros l. destruct (filter _ (rows right)); simpl; done.
Qed.

Lemma fill_not_matched_rows df c df' :
  fill_not_matched df c = Some df' → length (rows df') = length (rows df).
Proof.
  unfold fill_not_matched. destruct (decide _); [|discriminate].
  intros [= <-]. simpl. by rewrite length_fmap.
Qed.

Lemma map_branch_rows merged map_df req v out :
  map_branch merged map_df req v = Some out →
  length (rows out) = length (rows merged).
Proof.
  unfold map_branch, pd.series. intros H.
  destruct (pd.iter_col map_df (key_col_map req)); [|discriminate].
  destruct (pd.iter_col map_df v); [|discriminate].
  destruct (unique_pos _ (columns merged)); [|discriminate].
  simpl in H. injection H as <-.
  apply setitem_rows. by rewrite !length_fmap.
Qed.

Lemma lookup_step_rows req st v :
  length (rows (lk_merged_df st)) ≤ length (rows (lk_merged_df (lookup_step req st v))) ∧
  (method req = Map →
   length (rows (lk_merged_df (lookup_step req st v))) = length (rows (lk_merged_df st))).
Proof.
  unfold lookup_step. destruct (method req).
  - split; [|done]. unfold merge_branch.
    destruct (pd.select _ _) as [temp|]; simpl; [|lia].
    destruct (pd.merge _ _ _ _) as [merged|] eqn:Hm; simpl; [|lia].
    apply merge_rows in Hm.
    destruct (fill_not_matched _ _) as [merged'|] eqn:Hf; simpl; [|lia].
    apply fill_not_matched_rows in Hf. lia.
  - destruct (map_branch _ _ _ _) as [merged|] eqn:Hm; simpl; [|lia].
    apply map_branch_rows in Hm. lia.
Qed.


Lemma lookup_steps_rows req vs : ∀ st,
  length (rows (lk_merged_df st)) ≤
    length (rows (lk_merged_df (foldl (lookup_step req) st vs))) ∧
  (method req = Map →
   length (rows (lk_merged_df (foldl (lookup_step req) st vs))) =
     length (rows (lk_merged_df st))).
Proof.
  induction vs as [|v vs IH]; intros st; simpl; [lia|].
  destruct (IH (lookup_step req st v)) as [Hle Heq].
  destruct (lookup_step_rows req st v) as [Hle1 Heq1].
  split; [lia|]. intros Hm. rewrite Heq, Heq1; done.
Qed.


Lemma pop_insert_front_rows c df :
  length (rows (pd.pop_insert_front c df).1) = length (rows df).
Proof.
  unfold pd.pop_insert_front.
  destruct (positions c (columns df)) as [|i [|]]; simpl; by rewrite ?length_fmap.
Qed.

End LookupRows.

Lemma reorder_loop_rows cols : ∀ df,
  length (rows (reorder_loop cols df).1) = length (rows df).
Proof.
  induction cols as [|c cols IH]; intros df; simpl; [done|].
  pose proof (pop_insert_front_rows c df) as Hpop.
  destruct (pd.pop_insert_front c df) as [df' []]; simpl in *.
  - by rewrite IH.
  - done.
Qed.

(** C4. The lookup never removes a row of the merged table: the result has
    at least as many rows as the table it was given, and exactly as many
    under the map method. *)
Theorem lookup_keeps_rows (T M : DataFrame) (req : lookup_request) :
  length (rows T) ≤ length (rows (lk_merged_df (perform_lookup T M req))) ∧
  (method req = Map →
   length (rows (lk_merged_df (perform_lookup T M req))) = length (rows T)).
Proof.
  unfold perform_lookup.
  destruct (normalize_key_column T (key_col_main req)) as [T1|] eqn:HT; [|simpl; lia].
  apply normalize_key_column_rows in HT.
  destruct (normalize_key_column M (key_col_map req)) as [M1|]; [|simpl; lia].
  set (st0 := mkLookupState T1 M1 [] [] false).
  destruct (lookup_steps_rows req (value_cols_to_map req) st0) as [Hle Heq].
  set (st := foldl (lookup_step req) st0 (value_cols_to_map req)) in *.
  pose proof (reorder_loop_rows (reverse (mapped_columns st)) (lk_merged_df st)) as Hre.
  destruct (reorder_loop _ _) as [T2 []]; simpl in *.
  - split; [lia|]. intros Hm. rewrite Hre, Heq; done.
  - split; [lia|]. intros Hm. rewrite Hre, Heq; done.
Qed.

Lemma lookup_keeps_rows_witness :
  length (rows (lk_merged_df (perform_lookup ids_table names_table (name_request Map)))) =
  length (rows ids_table).
Proof.
  exact (proj2 (lookup_keeps_rows ids_table names_table (name_request Map)) eq_refl).
Defined.




(** ** Labels *)

Section LabelFacts.

Lemma list_ascii_app (a b : string) :
  list_ascii_of_string (a +:+ b) = list_ascii_of_string a ++ list_ascii_of_string b.
Proof. induction a as [|c a IH]; simpl; [done|]. by rewrite IH. Qed.

Lemma list_ascii_inj (a b : string) :
  list_ascii_of_string a = list_ascii_of_string b → a = b.
Proof.
  intros H. rewrite <- (string_of_list_ascii_of_string a).
  rewrite <- (string_of_list_ascii_of_string b). by rewrite H.
Qed.

Global Instance new_col_name_inj : Inj (=) (=) new_col_name.
Proof.
  intros a b H. unfold new_col_name in H.
  apply (f_equal list_ascii_of_string) in H. rewrite !list_ascii_app in H.
  apply app_inv_tail in H. by apply list_ascii_inj.
Qed.

(** A label that [merge] suffixed is no [_mapped] label. *)
Lemma suffix_x_not_mapped (l v : string) : l +:+ "_x" ≠ new_col_name v.
Proof.
  unfold new_col_name. intros H.
  apply (f_equal list_ascii_of_string) in H. rewrite !list_ascii_app in H.
  apply (f_equal last) in H.
  change (list_ascii_of_string "_x") with (["_"%char] ++ ["x"%char]) in H.
  change (list_ascii_of_string "_mapped")
    with (list_ascii_of_string "_mappe" ++ ["d"%char]) in H.
  rewrite !app_assoc, !last_snoc in H. discriminate.
Qed.

Lemma suffix_y_not_mapped (l v : string) : l +:+ "_y" ≠ new_col_name v.
Proof.
  unfold new_col_name. intros H.
  apply (f_equal list_ascii_of_string) in H. rewrite !list_ascii_app in H.
  apply (f_equal last) in H.
  change (list_ascii_of_string "_y") with (["_"%char] ++ ["y"%char]) in H.
  change (list_ascii_of_string "_mapped")
    with (list_ascii_of_string "_mappe" ++ ["d"%char]) in H.
  rewrite !app_assoc, !last_snoc in H. discriminate.
Qed.

Lemma suffix_not_self (l s : string) : s ≠ EmptyString → l +:+ s ≠ l.
Proof.
  intros Hs H. apply (f_equal list_ascii_of_string) in H.
  rewrite list_ascii_app in H.
  apply (f_equal length) in H. rewrite length_app in H.
  destruct s; [done|]. simpl in H. lia.
Qed.

Lemma positions_from_app c A B k :
  positions_from k c (A ++ B) =
  positions_from k c A ++ positions_from (k + length A) c B.
Proof.
  revert k. induction A as [|a A IH]; intros k; simpl.
  - by rewrite Nat.add_0_r.
  - rewrite IH. replace (S k + length A) with (k + S (length A)) by lia.
    by destruct (decide (a = c)).
Qed.

Lemma once_positions c cols :
  once c cols ↔ ∃ i, positions c cols = [i].
Proof.
  split.
  - intros (l1 & l2 & -> & H1 & H2). exists (length l1).
    unfold positions. rewrite positions_from_app. simpl.
    rewrite decide_True by done.
    apply (positions_from_nil c l1 0) in H1.
    apply (positions_from_nil c l2 (S (length l1))) in H2.
    by rewrite H1, H2.
  - intros [i Hi]. unfold positions in Hi.
    assert (Hgen : ∀ k, positions_from k c cols = [i] → once c cols).
    { clear Hi. induction cols as [|a cols IH]; intros k Hk; simpl in Hk; [done|].
      destruct (decide (a = c)) as [->|Hne].
      - injection Hk as _ Hnil. apply positions_from_nil in Hnil.
        exists [], cols. repeat split; [apply not_elem_of_nil|done].
      - destruct (IH _ Hk) as (l1 & l2 & -> & H1 & H2).
        exists (a :: l1), l2. repeat split; [|done].
        apply not_elem_of_cons. split; [congruence|done]. }
    by eapply Hgen.
Qed.

Lemma once_unique_pos c cols : once c cols ↔ ∃ i, unique_pos c cols = Some i.
Proof.
  rewrite once_positions. unfold unique_pos. split.
  - intros [i ->]. eauto.
  - intros [i Hi]. destruct (positions c cols) as [|j [|]]; try discriminate. eauto.
Qed.

Lemma unique_pos_lookup c cols i : unique_pos c cols = Some i → cols !! i = Some c.
Proof.
  unfold unique_pos, positions. intros H.
  destruct (positions_from 0 c cols) as [|j [|]] eqn:Hp; try discriminate.
  injection H as ->.
  destruct (positions_from_elem c cols 0 i) as [Hl _];
    [rewrite Hp; apply list_elem_of_here|].
  by rewrite Nat.sub_0_r in Hl.
Qed.

Lemma positions_from_lookup c cols : ∀ k i,
  cols !! i = Some c → k + i ∈ positions_from k c cols.
Proof.
  induction cols as [|a cols IH]; intros k [|i] Hi; simpl in *; try done.
  - injection Hi as ->. rewrite decide_True by done.
    rewrite Nat.add_0_r. apply list_elem_of_here.
  - replace (k + S i) with (S k + i) by lia.
    destruct (decide (a = c)); [apply list_elem_of_further|]; by apply IH.
Qed.

(** The position of a label that occurs once is wherever it is found. *)
Lemma unique_pos_is c cols i j :
  unique_pos c cols = Some i → cols !! j = Some c → i = j.
Proof.
  unfold unique_pos, positions. intros H Hj.
  destruct (positions_from 0 c cols) as [|i' [|]] eqn:Hp; try discriminate.
  injection H as ->.
  pose proof (positions_from_lookup c cols 0 j Hj) as Hin.
  rewrite Hp in Hin. simpl in Hin. by apply list_elem_of_singleton in Hin.
Qed.

Lemma NoDup_once c cols : NoDup cols → c ∈ cols → once c cols.
Proof.
  intros Hnd Hin. apply list_elem_of_split in Hin as (l1 & l2 & ->).
  exists l1, l2. split; [done|].
  apply NoDup_app in Hnd as (_ & H1 & H2).
  apply NoDup_cons in H2 as [H2 _]. split; [|done].
  intros Hc. apply (H1 c Hc). apply list_elem_of_here.
Qed.

Lemma once_elem c cols : once c cols → c ∈ cols.
Proof.
  intros (l1 & l2 & -> & _). apply elem_of_app. right. apply list_elem_of_here.
Qed.

Lemma once_app_l c A B : once c A → c ∉ B → once c (A ++ B).
Proof.
  intros (l1 & l2 & -> & H1 & H2) HB. exists l1, (l2 ++ B).
  rewrite <- app_assoc. repeat split; [done|]. by apply not_elem_of_app.
Qed.

Lemma once_app_r c A B : c ∉ A → once c B → once c (A ++ B).
Proof.
  intros HA (l1 & l2 & -> & H1 & H2). exists (A ++ l1), l2.
  rewrite <- app_assoc. repeat split; [|done]. by apply not_elem_of_app.
Qed.

Lemma once_fmap (f : string → string) c cols :
  (∀ l, l ∈ cols → f l = c ↔ l = c) → once c cols → once c (f <$> cols).
Proof.
  intros Hf (l1 & l2 & -> & H1 & H2).
  exists (f <$> l1), (f <$> l2). rewrite fmap_app, fmap_cons.
  assert (Hc : f c = c).
  { apply Hf; [|done]. apply elem_of_app. right. apply list_elem_of_here. }
  rewrite Hc. split; [done|].
  split; intros (l & Hl & Hin)%list_elem_of_fmap; symmetry in Hl.
  - assert (Hlc : l = c) by (apply Hf; [apply elem_of_app; by left|done]).
    subst l. exact (H1 Hin).
  - assert (Hlc : l = c).
    { apply Hf; [|done]. apply elem_of_app. right. by apply list_elem_of_further. }
    subst l. exact (H2 Hin).
Qed.

Lemma once_filter_cons c c' cols :
  c ≠ c' → once c cols → once c (c' :: filter (λ l, l ≠ c') cols).
Proof.
  intros Hne (l1 & l2 & -> & H1 & H2).
  exists (c' :: filter (λ l, l ≠ c') l1), (filter (λ l, l ≠ c') l2).
  rewrite filter_app, filter_cons_True by done. split; [done|].
  split.
  - apply not_elem_of_cons. split; [done|]. rewrite list_elem_of_filter. tauto.
  - rewrite list_elem_of_filter. tauto.
Qed.

End LabelFacts.

(** ** Rows under their labels *)

Section RowFacts.

Implicit Types (c : string) (cols : list string) (r : list cell).

Lemma row_get_app_l c A B ra rb :
  length ra = length A → c ∈ A → row_get c (A ++ B) (ra ++ rb) = row_get c A ra.
Proof.
  revert ra. induction A as [|a A IH]; intros [|x ra] Hlen Hin; simpl in *; try done.
  - by apply elem_of_nil in Hin.
  - destruct (decide (a = c)); [done|]. apply IH; [lia|].
    apply elem_of_cons in Hin as [->|]; done.
Qed.

Lemma row_get_app_r c A B ra rb :
  length ra = length A → c ∉ A → row_get c (A ++ B) (ra ++ rb) = row_get c B rb.
Proof.
  revert ra. induction A as [|a A IH]; intros [|x ra] Hlen Hn; simpl in *; try done.
  apply not_elem_of_cons in Hn as [Hne Hn].
  rewrite decide_False by done. apply IH; [lia|done].
Qed.

Lemma row_get_fmap (f : string → string) c cols r :
  (∀ l, l ∈ cols → f l = c ↔ l = c) →
  row_get c (f <$> cols) r = row_get c cols r.
Proof.
  revert r. induction cols as [|a cols IH]; intros [|x r] Hf; simpl; try done.
  rewrite IH; cycle 1.
  { intros l Hl. apply Hf. by apply list_elem_of_further. }
  pose proof (Hf a (list_elem_of_here _ _)) as Ha.
  destruct (decide (f a = c)), (decide (a = c)); tauto.
Qed.

Lemma row_get_positions c cols : ∀ r k i,
  positions_from k c cols = [i] → cell_at (i - k) r = row_get c cols r.
Proof.
  induction cols as [|a cols IH]; intros r k i Hp; simpl in Hp; [done|].
  destruct r as [|x r].
  { unfold cell_at. by rewrite lookup_nil. }
  simpl. destruct (decide (a = c)) as [->|Hne].
  - injection Hp as -> _. by rewrite Nat.sub_diag.
  - assert (Hi : S k ≤ i).
    { eapply (positions_from_elem c cols (S k) i). rewrite Hp. apply list_elem_of_here. }
    rewrite <- (IH r (S k) i Hp).
    replace (i - k) with (S (i - S k)) by lia. reflexivity.
Qed.

Lemma delete_under_length c cols r :
  length r = length cols →
  length (pd.delete_under c cols r) = length (filter (λ l, l ≠ c) cols).
Proof.
  revert r. induction cols as [|a cols IH]; intros [|x r] Hlen; simpl in *; try done.
  destruct (decide (a = c)) as [->|Hne].
  - rewrite filter_cons_False by (intros H; by apply H). apply IH. lia.
  - rewrite filter_cons_True by done. simpl. f_equal. apply IH. lia.
Qed.

Lemma delete_under_absent c cols r : c ∉ cols → pd.delete_under c cols r = r.
Proof.
  revert r. induction cols as [|a cols IH]; intros [|x r] Hn; simpl; try done.
  apply not_elem_of_cons in Hn as [Hne Hn].
  rewrite decide_False by done. f_equal. by apply IH.
Qed.

Lemma delete_under_app c A B ra rb :
  length ra = length A →
  pd.delete_under c (A ++ B) (ra ++ rb) =
  pd.delete_under c A ra ++ pd.delete_under c B rb.
Proof.
  revert ra. induction A as [|a A IH]; intros [|x ra] Hlen; simpl in *; try done.
  destruct (decide (a = c)); [apply IH; lia|]. simpl. f_equal. apply IH. lia.
Qed.

Lemma row_get_nil c cols : row_get c cols [] = NaN.
Proof. by destruct cols. Qed.

Lemma row_get_delete_under c c' cols r :
  c ≠ c' →
  row_get c (filter (λ l, l ≠ c') cols) (pd.delete_under c' cols r) = row_get c cols r.
Proof.
  intros Hne. revert r.
  induction cols as [|a cols IH]; intros [|x r]; try done.
  - by rewrite !row_get_nil.
  - simpl. destruct (decide (a = c')) as [->|Hne'].
    + rewrite filter_cons_False by (intros H; by apply H).
      rewrite decide_False by done. apply IH.
    + rewrite filter_cons_True by done. simpl.
      destruct (decide (a = c)); [done|apply IH].
Qed.

Lemma delete_all_cons cs : ∀ c cols x r,
  c ∉ cs → delete_all cs (c :: cols) (x :: r) = x :: delete_all cs cols r.
Proof.
  induction cs as [|c' cs IH]; intros c cols x r Hn; simpl; [done|].
  apply not_elem_of_cons in Hn as [Hne Hn].
  rewrite filter_cons_True by done. rewrite decide_False by done. by apply IH.
Qed.

Lemma delete_all_app cs : ∀ A B ra rb,
  length ra = length A → (∀ c, c ∈ cs → c ∉ A) →
  delete_all cs (A ++ B) (ra ++ rb) = ra ++ delete_all cs B rb.
Proof.
  induction cs as [|c cs IH]; intros A B ra rb Hlen Hn; simpl; [done|].
  assert (HcA : c ∉ A) by (apply Hn; apply list_elem_of_here).
  rewrite filter_app, delete_under_app by done.
  rewrite (delete_under_absent c A) by done.
  assert (HfA : filter (λ l, l ≠ c) A = A).
  { clear -HcA. induction A as [|a A IHA]; [done|].
    apply not_elem_of_cons in HcA as [Hne HcA].
    rewrite filter_cons_True by done. f_equal. by apply IHA. }
  rewrite HfA. apply IH; [done|].
  intros c' Hc'. apply Hn. by apply list_elem_of_further.
Qed.

Lemma delete_all_length cs : ∀ cols r,
  length r = length cols →
  length (delete_all cs cols r) = length (filter (λ l, l ∉ cs) cols).
Proof.
  induction cs as [|c cs IH]; intros cols r Hlen; simpl.
  - rewrite Hlen. f_equal. symmetry. clear. induction cols as [|a cols IHc]; [done|].
    rewrite filter_cons_True by apply not_elem_of_nil. by f_equal.
  - rewrite IH by (by apply delete_under_length).
    rewrite list_filter_filter. f_equal. apply list_filter_iff.
    intros l. rewrite not_elem_of_cons. tauto.
Qed.

(** Lines 137-139 on a frame in which every label to move occurs once:
    the labels come to the front in the reverse of the order in which they
    are moved, each with its cells, and the other columns follow as they
    were. *)
Lemma reorder_loop_spec cs : ∀ df,
  NoDup cs → (∀ c, c ∈ cs → once c (columns df)) → well_formed df →
  reorder_loop cs df =
    (mkDataFrame (reverse cs ++ filter (λ l, l ∉ cs) (columns df))
       ((λ r, ((λ c, row_get c (columns df) r) <$> reverse cs) ++
              delete_all cs (columns df) r) <$> rows df),
     true).
Proof.
  induction cs as [|c cs IH]; intros [cols rws] Hnd Honce Hwf; simpl in *.
  - f_equal. f_equal.
    + clear. induction cols as [|a cols IHc]; [done|].
      rewrite filter_cons_True by apply not_elem_of_nil. by f_equal.
    + clear. induction rws; simpl; by f_equal.
  - apply NoDup_cons in Hnd as [Hc Hnd].
    destruct (proj1 (once_positions c cols) (Honce c (list_elem_of_here _ _))) as [i Hi].
    unfold pd.pop_insert_front. simpl. rewrite Hi.
    rewrite IH; simpl.
    + f_equal. f_equal.
      * rewrite reverse_cons, <- app_assoc. f_equal. simpl.
        rewrite filter_cons_True by done. f_equal.
        rewrite list_filter_filter. apply list_filter_iff.
        intros l. rewrite not_elem_of_cons. tauto.
      * rewrite <- list_fmap_compose. apply Forall_fmap_ext_1.
        eapply Forall_impl; [exact Hwf|]. intros r Hr. simpl in *.
        rewrite reverse_cons, fmap_app, <- app_assoc. simpl.
        rewrite delete_all_cons by done.
        rewrite <- (row_get_positions c cols r 0 i Hi), Nat.sub_0_r.
        f_equal. apply list_fmap_ext. intros j c' Hc'.
        apply list_elem_of_lookup_2 in Hc'. rewrite elem_of_reverse in Hc'.
        assert (Hne : c ≠ c') by (intros Heq; subst c'; exact (Hc Hc')).
        rewrite decide_False by done.
        apply row_get_delete_under. congruence.
    + done.
    + intros c' Hc'. apply once_filter_cons.
      * intros Heq. subst c'. exact (Hc Hc').
      * apply Honce. by apply list_elem_of_further.
    + unfold well_formed in *. simpl in *. apply Forall_fmap.
      eapply Forall_impl; [exact Hwf|]. intros r Hr. simpl.
      f_equal. by apply delete_under_length.
Qed.

End RowFacts.

(** ** The pandas calls of one lookup step *)

Section StepCalls.

Implicit Types (c : string) (cols : list string) (r : list cell).

Lemma update_under_snoc c f A r x :
  c ∉ A → length r = length A →
  update_under c f (A ++ [c]) (r ++ [x]) = r ++ [f x].
Proof.
  revert r. induction A as [|a A IH]; intros [|y r] Hn Hlen; simpl in *; try done.
  - by rewrite decide_True.
  - apply not_elem_of_cons in Hn as [Hne Hn].
    rewrite decide_False by done. f_equal. apply IH; [done|lia].
Qed.

Lemma cell_at_app_l i ra rb : i < length ra → cell_at i (ra ++ rb) = cell_at i ra.
Proof. intros Hi. unfold cell_at. by rewrite lookup_app_l. Qed.

Lemma update_under_at c f cols r i :
  cols !! i = Some c → i < length r →
  cell_at i (update_under c f cols r) = f (cell_at i r).
Proof.
  revert r i. induction cols as [|a cols IH]; intros [|x r] [|i] Hc Hi;
    simpl in *; try done; try lia.
  - injection Hc as ->. by rewrite decide_True.
  - change (cell_at i (update_under c f cols r) = f (cell_at i r)).
    apply IH; [done|lia].
Qed.

Lemma normalize_key_column_once df c :
  once c (columns df) →
  normalize_key_column df c =
    Some (mkDataFrame (columns df)
            (update_under c normalize_key (columns df) <$> rows df)).
Proof.
  intros [i Hi]%once_unique_pos.
  destruct (normalize_key_column df c) as [df'|] eqn:H.
  - by rewrite (normalize_key_column_spec _ _ _ H).
  - unfold normalize_key_column, pd.series in H. by rewrite Hi in H.
Qed.

Lemma once_positions_lookup c cols :
  once c cols → ∃ i, positions c cols = [i] ∧ cols !! i = Some c.
Proof.
  intros Ho. destruct (proj1 (once_positions c cols) Ho) as [i Hi].
  exists i. split; [done|]. apply unique_pos_lookup. unfold unique_pos. by rewrite Hi.
Qed.

(** [map_df[[key, value]].rename(columns={value: new})] on a frame with
    pairwise distinct labels. *)
Lemma select_rename_pair map_df key value new jk jv :
  positions key (columns map_df) = [jk] → columns map_df !! jk = Some key →
  positions value (columns map_df) = [jv] → columns map_df !! jv = Some value →
  value ≠ key →
  (temp ← pd.select map_df [key; value]; Some (pd.rename temp value new)) =
    Some (mkDataFrame [key; new]
            ((λ m, [cell_at jk m; cell_at jv m]) <$> rows map_df)).
Proof.
  intros Hk Hkl Hv Hvl Hne. unfold pd.select.
  rewrite decide_True; cycle 1.
  { repeat constructor; by eapply list_elem_of_lookup_2. }
  simpl. rewrite Hk, Hv. simpl. rewrite Hkl, Hvl. simpl.
  unfold pd.rename. simpl.
  rewrite decide_False by congruence. by rewrite decide_True.
Qed.

Lemma suffix_clash_same l : ∀ seen, pd.suffix_clash seen seen l l = false.
Proof.
  induction l as [|a l IH]; intros seen; simpl; [done|].
  rewrite IH, orb_false_r.
  destruct (bool_decide (a ∈ seen)); done.
Qed.

Lemma add_suffix_nil suffix labels : pd.add_suffix suffix [] labels = labels.
Proof.
  unfold pd.add_suffix. induction labels as [|a l IH]; [done|].
  rewrite fmap_cons, IH.
  by rewrite decide_False by apply not_elem_of_nil.
Qed.

(** The left join of line 127, on a left frame with at least one row and a
    right frame [key, new] whose [new] is no label of the left frame. *)
Lemma merge_key_value left rows2 left_on key new i :
  unique_pos left_on (columns left) = Some i →
  new ≠ key → new ∉ columns left → rows left ≠ [] →
  ∃ (ren : string → string) (kr : list string),
    (∀ l, ren l = l ∨ (l = key ∧ left_on ≠ key ∧ ren l = key +:+ "_x")) ∧
    (left_on = key ∧ kr = [] ∧ (∀ l, ren l = l) ∨
     left_on ≠ key ∧ (kr = [key] ∨ kr = [key +:+ "_y"])) ∧
    (pd.merge left (mkDataFrame [key; new] rows2) left_on key = None ∨
     pd.merge left (mkDataFrame [key; new] rows2) left_on key =
       Some (mkDataFrame ((ren <$> columns left) ++ kr ++ [new])
               (rows left ≫= (λ l,
                  match filter (λ r, cell_at 0 r = cell_at i l) rows2 with
                  | [] => [l ++ replicate (length (kr ++ [new])) NaN]
                  | ms => (λ r, l ++ (if bool_decide (left_on = key)
                                      then delete 0 r else r)) <$> ms
                  end)))) ∧
    (left_on = key →
     pd.merge left (mkDataFrame [key; new] rows2) left_on key ≠ None).
Proof.
  intros Hi Hne Hnew Hrows. unfold pd.merge. rewrite Hi. simpl.
  assert (Hrk : unique_pos key [key; new] = Some 0).
  { unfold unique_pos, positions. simpl.
    rewrite decide_True by done. by rewrite decide_False. }
  rewrite Hrk. simpl.
  rewrite (bool_decide_eq_false_2 (rows left = [])) by done. simpl.
  rewrite andb_false_r, andb_true_r.
  destruct (decide (left_on = key)) as [Heq|Hneq].
  - (* one key label: the right key column is dropped *)
    rewrite (bool_decide_eq_true_2 (left_on = key)) by done. simpl.
    assert (Hov : filter (λ l, l ∈ [new]) (columns left) = []).
    { clear -Hnew. induction (columns left) as [|a l IH]; [done|].
      apply not_elem_of_cons in Hnew as [Hne Hnew].
      rewrite filter_cons_False; [by apply IH|].
      rewrite list_elem_of_singleton. congruence. }
    rewrite Hov, !add_suffix_nil, !suffix_clash_same. simpl.
    exists (λ l, l), []. split; [by left|]. split; [left; by repeat split|].
    split; [|done]. right. by rewrite list_fmap_id.
  - rewrite (bool_decide_eq_false_2 (left_on = key)) by done. simpl.
    set (overlap := filter (λ l, l ∈ [key; new]) (columns left)).
    assert (Hov : ∀ l, l ∈ overlap → l = key).
    { intros l. unfold overlap. rewrite list_elem_of_filter.
      intros [Hl Hin]. apply elem_of_cons in Hl as [->|Hl]; [done|].
      apply list_elem_of_singleton in Hl. by subst. }
    exists (λ l, if decide (l ∈ overlap) then l +:+ "_x" else l),
           [if decide (key ∈ overlap) then key +:+ "_y" else key].
    split.
    { intros l. destruct (decide (l ∈ overlap)) as [Hl|]; [|by left].
      right. by rewrite (Hov l Hl) in *. }
    split.
    { right. split; [done|]. destruct (decide (key ∈ overlap)); auto. }
    split; [|done].
    assert (Hnew' : new ∉ overlap).
    { intros H. apply Hov in H. done. }
    unfold pd.add_suffix at 2 4. simpl.
    rewrite (decide_False (P := new ∈ overlap)) by done.
    unfold pd.add_suffix.
    destruct (_ || _); [by left|right]. reflexivity.
Qed.

Lemma dict_zip_lookup_None keys values k :
  k ∉ keys → pd.dict_zip keys values !! k = None.
Proof.
  intros Hk. unfold pd.dict_zip.
  assert (Hgen : ∀ (l : list (cell * cell)) (d : gmap cell cell),
             d !! k = None → k ∉ l.*1 →
             foldl (λ d kv, <[kv.1 := kv.2]> d) d l !! k = None).
  { induction l as [|[a b] l IH]; intros d Hd Hl; simpl in *; [done|].
    apply not_elem_of_cons in Hl as [Hne Hl].
    apply IH; [|done]. by rewrite lookup_insert_ne. }
  apply Hgen; [apply lookup_empty|].
  intros Hin. apply Hk. clear -Hin.
  revert values Hin. induction keys as [|a keys IH]; intros [|b values] Hin;
    simpl in *; try by apply elem_of_nil in Hin.
  apply elem_of_cons in Hin as [->|Hin]; [apply list_elem_of_here|].
  apply list_elem_of_further. by eapply IH.
Qed.

Lemma merge_right_key_repeated left rows2 left_on key :
  pd.merge left (mkDataFrame [key; key] rows2) left_on key = None.
Proof.
  assert (Hrk : unique_pos key [key; key] = None).
  { unfold unique_pos, positions. simpl. by rewrite !decide_True by done. }
  unfold pd.merge. destruct (unique_pos left_on _); [|done].
  cbn [mbind option_bind columns]. by rewrite Hrk.
Qed.

End StepCalls.

(** ** The state of the lookup loop *)

Section LookupInvariant.

Variables (T M : DataFrame) (req : lookup_request) (i j : nat).

Local Abbreviation kT := (key_col_main req).
Local Abbreviation kM := (key_col_map req).
Local Abbreviation V := (value_cols_to_map req).
Local Abbreviation T1 := (normalized T (key_col_main req)).
Local Abbreviation M1 := (normalized M (key_col_map req)).
Local Abbreviation inv := (lookup_inv T M req i j).

Hypothesis HT_rows : rows T ≠ [].
Hypothesis HT_wf : well_formed T.
Hypothesis Hi : unique_pos kT (columns T) = Some i.
Hypothesis HM_nodup : NoDup (columns M).
Hypothesis Hj : unique_pos kM (columns M) = Some j.
Hypothesis HV : ∀ v, v ∈ V →
  v ∈ columns M ∧ v ≠ kM ∧ new_col_name v ∉ columns T.

Lemma T1_row_length t : t ∈ rows T1 → length t = length (columns T).
Proof.
  simpl. intros (r & -> & Hr)%list_elem_of_fmap.
  rewrite update_under_length.
  unfold well_formed in HT_wf. rewrite Forall_forall in HT_wf. by apply HT_wf.
Qed.

Lemma key_pos_lt : i < length (columns T).
Proof. apply unique_pos_lookup in Hi. by eapply lookup_lt_Some. Qed.

Lemma kT_not_mapped v : v ∈ V → kT ≠ new_col_name v.
Proof.
  intros Hv Heq. destruct (HV v Hv) as (_ & _ & Hn). apply Hn.
  rewrite <- Heq. by eapply unique_pos_elem.
Qed.

Lemma fresh_kept T' v :
  Forall2 (kept kM) (columns T) T' → v ∈ V → new_col_name v ∉ T'.
Proof.
  intros HF Hv Hin.
  apply list_elem_of_lookup in Hin as [p Hp].
  destruct (Forall2_lookup_r _ _ _ _ _ HF Hp) as (l & Hl & [Hk|[_ Hk]]).
  - destruct (HV v Hv) as (_ & _ & Hn). apply Hn. rewrite Hk.
    by eapply list_elem_of_lookup_2.
  - symmetry in Hk. by apply suffix_x_not_mapped in Hk.
Qed.

Lemma key_label_not_mapped l v : key_label kM l → l ≠ kM → l ≠ new_col_name v.
Proof.
  intros [->|[->| ->]] Hne; [done|apply suffix_x_not_mapped|apply suffix_y_not_mapped].
Qed.

(** The label of the next value column is not in the frame yet. *)
Lemma inv_fresh P st v :
  inv P st → v ∈ V → v ∉ P →
  (method req = Merge → new_col_name v ≠ kM) →
  new_col_name v ∉ columns (lk_merged_df st).
Proof.
  intros (T' & added & Hcols & Hkept & _ & Hadded & Hsub & _ & Hexact & _)
    Hv HvP Hkey.
  rewrite Hcols. apply not_elem_of_app. split; [by apply fresh_kept|].
  assert (Hmapped : new_col_name v ∉ mapped_columns st).
  { intros Hin. apply HvP.
    apply (sublist_subseteq _ _ Hsub) in Hin.
    apply list_elem_of_fmap in Hin as (p & Heq & Hp).
    by apply new_col_name_inj in Heq as ->. }
  destruct (method req) eqn:Hm.
  - intros Hin. rewrite Forall_forall in Hadded.
    destruct (Hadded _ Hin) as [Hmp|Hkl]; [done|].
    destruct Hkl as [Hk|[Hk|Hk]].
    + by apply Hkey.
    + symmetry in Hk. by apply suffix_x_not_mapped in Hk.
    + symmetry in Hk. by apply suffix_y_not_mapped in Hk.
  - destruct Hexact as (_ & -> & _); [by left|done].
Qed.

(** A step that fails before line 127 leaves the frame as it is. *)
Lemma inv_unchanged P st v :
  inv P st →
  ¬ (method req = Map ∨ kT = kM) →
  inv (P ++ [v]) (mapping_failed v (lk_merged_df st) st).
Proof.
  intros (T' & added & Hcols & Hkept & Hi' & Hadded & Hsub & Honce & Hexact &
          Hrows & Hok & Hcov & HM) Hno.
  exists T', added. simpl. repeat split; try done.
  - rewrite fmap_app. by apply sublist_inserts_r.
  - by apply Honce.
  - by apply Honce.
Qed.

Lemma ren_fixes_mapped (ren : string → string) c v :
  (∀ l, ren l = l ∨ (l = kM ∧ kT ≠ kM ∧ ren l = kM +:+ "_x")) →
  c = new_col_name v → c ≠ kM → ∀ l, ren l = c ↔ l = c.
Proof.
  intros Hren -> Hne l. destruct (Hren l) as [Hl|(-> & _ & Hl)]; rewrite Hl.
  - done.
  - split; [|done]. intros H. by apply suffix_x_not_mapped in H.
Qed.

(** A step that succeeds: the labels of the frame are kept or suffixed, the
    mapping key may be added, the new [_mapped] label comes last, and every
    row is an old row extended by the new cells. *)
Lemma inv_extend P st v (ren : string → string) (kr : list string)
    (new_rows : list (list cell)) :
  inv P st → v ∈ V → v ∉ P →
  (∀ l, ren l = l ∨ (l = kM ∧ kT ≠ kM ∧ ren l = kM +:+ "_x")) →
  (kr = [] ∨ kr = [kM] ∨ kr = [kM +:+ "_y"]) →
  (method req = Merge → new_col_name v ≠ kM) →
  new_col_name v ∉ columns (lk_merged_df st) →
  (method req = Map ∨ kT = kM → kr = [] ∧ ∀ l, ren l = l) →
  (∀ r', r' ∈ new_rows →
     ∃ l krc y, r' = l ++ krc ++ [y] ∧ l ∈ rows (lk_merged_df st) ∧
                length krc = length kr ∧
                ((∀ m, m ∈ rows M1 → cell_at j m ≠ cell_at i l) → y = not_matched)) →
  (∀ l, l ∈ rows (lk_merged_df st) → ∃ krc y, l ++ krc ++ [y] ∈ new_rows) →
  inv (P ++ [v])
    (mapping_ok v
       (mkDataFrame ((ren <$> columns (lk_merged_df st)) ++ kr ++ [new_col_name v])
          new_rows) st).
Proof.
  intros Hinv Hv HvP Hren Hkr Hnk Hfresh Hex Hnew Hcover.
  pose proof Hinv as (T' & added & Hcols & Hkept & Hi' & Hadded & Hsub & Honce &
                      Hexact & Hrows & Hok & Hcov & HM).
  set (new := new_col_name v) in *.
  rewrite Hcols in Hfresh. apply not_elem_of_app in Hfresh as [HfT Hfa].
  assert (Hfix : ∀ c u, c = new_col_name u → (method req = Merge → c ≠ kM) →
                        ∀ l, ren l = c ↔ l = c).
  { intros c u Hc Hk l. destruct (method req) eqn:Hmeth.
    - eapply ren_fixes_mapped; eauto.
    - destruct Hex as [_ Hid]; [by left|]. by rewrite Hid. }
  assert (Hmapped : ∀ c, c ∈ mapped_columns st →
                         c ≠ new ∧ (∀ l, ren l = c ↔ l = c) ∧ c ∉ kr).
  { intros c Hc. destruct (Honce c Hc) as [Ho Hk].
    assert (Hu : ∃ u, c = new_col_name u).
    { apply (sublist_subseteq _ _ Hsub) in Hc.
      apply list_elem_of_fmap in Hc as (u & -> & _). eauto. }
    destruct Hu as [u Hu]. split; [|split].
    - intros ->. apply Hfa. by apply once_elem.
    - by eapply Hfix.
    - destruct (method req) eqn:Hmeth.
      + specialize (Hk eq_refl). destruct Hkr as [->|[->| ->]].
        * apply not_elem_of_nil.
        * rewrite list_elem_of_singleton. done.
        * rewrite list_elem_of_singleton, Hu. intros Heq. symmetry in Heq.
          by apply suffix_y_not_mapped in Heq.
      + destruct Hex as [-> _]; [by left|]. apply not_elem_of_nil. }
  assert (Hnew_fix : ∀ l, ren l = new ↔ l = new) by (by eapply Hfix).
  assert (Hnew_kr : (new ∉ kr) ∧ Forall (key_label kM) kr).
  { destruct (method req) eqn:Hmeth.
    - specialize (Hnk eq_refl). destruct Hkr as [->|[->| ->]].
      + split; [apply not_elem_of_nil|constructor].
      + split; [by rewrite list_elem_of_singleton|].
        constructor; [by left|constructor].
      + split.
        * rewrite list_elem_of_singleton. intros Heq. symmetry in Heq.
          by apply suffix_y_not_mapped in Heq.
        * constructor; [right; by right|constructor].
    - destruct Hex as [-> _]; [by left|]. split; [apply not_elem_of_nil|constructor]. }
  destruct Hnew_kr as [Hnew_kr Hkr_key].
  assert (Hnew_ren : ∀ l : list string, new ∉ l → new ∉ ren <$> l).
  { intros l Hl (x & Hx & Hin)%list_elem_of_fmap. symmetry in Hx.
    apply (proj1 (Hnew_fix x)) in Hx. rewrite Hx in Hin. exact (Hl Hin). }
  exists (ren <$> T'), ((ren <$> added) ++ kr ++ [new]). simpl.
  split. { by rewrite Hcols, fmap_app, <- app_assoc. }
  split.
  { apply Forall2_fmap_r. eapply Forall2_impl; [exact Hkept|].
    intros l l' [->|[-> ->]]; unfold compose.
    - destruct (Hren l) as [->|(-> & _ & ->)]; [by left|right; done].
    - destruct (Hren (kM +:+ "_x")) as [->|(Hbad & _)]; [by right|].
      by apply suffix_not_self in Hbad. }
  split.
  { rewrite list_lookup_fmap, Hi'. simpl. f_equal.
    destruct (Hren kT) as [->|(? & ? & _)]; done. }
  split.
  { rewrite !Forall_app. repeat split.
    - apply Forall_fmap. rewrite Forall_forall in Hadded |- *.
      intros l Hl. simpl. destruct (Hadded l Hl) as [Hm|Hk].
      + left. apply elem_of_app. left.
        destruct (Hmapped l Hm) as (_ & Hl' & _).
        by rewrite (proj2 (Hl' l) eq_refl).
      + right. destruct (Hren l) as [->|(-> & _ & ->)]; [done|].
        right. by left.
    - eapply Forall_impl; [exact Hkr_key|]. intros l Hl. by right.
    - constructor; [|constructor]. left. apply elem_of_app. right.
      apply list_elem_of_here. }
  split. { rewrite fmap_app. by apply sublist_app. }
  split.
  { intros c [Hc|Hc]%elem_of_app.
    - destruct (Honce c Hc) as [Ho Hk]. destruct (Hmapped c Hc) as (Hcn & Hcf & Hckr).
      split; [|done].
      apply once_app_l.
      + apply once_fmap; [|done]. intros l _. apply Hcf.
      + apply not_elem_of_app. split; [done|].
        rewrite list_elem_of_singleton. done.
    - apply list_elem_of_singleton in Hc as ->. split; [|done].
      apply once_app_r; [by apply Hnew_ren|].
      apply once_app_r; [done|].
      exists [], []. repeat split; apply not_elem_of_nil. }
  split.
  { intros Hc. destruct (Hexact Hc) as (-> & -> & Hmp).
    destruct (Hex Hc) as [-> Hid].
    assert (Hidf : ∀ l : list string, ren <$> l = l).
    { intros l. rewrite <- (list_fmap_id l) at 2. apply list_fmap_ext. intros; apply Hid. }
    rewrite !Hidf. simpl. split; [done|]. split; [done|].
    by rewrite Hmp, fmap_app. }
  split.
  { destruct (rows (lk_merged_df st)) as [|l ?] eqn:Hr; [done|].
    destruct (Hcover l) as (krc & y & Hin); [apply list_elem_of_here|].
    intros ->. by apply elem_of_nil in Hin. }
  split.
  { rewrite Forall_forall in Hok |- *. intros r' Hr'.
    destruct (Hnew r' Hr') as (l & krc & y & -> & Hl & Hlen & Hy).
    destruct (Hok l Hl) as (t & e & -> & Ht & Hlene & Hun).
    exists t, (e ++ krc ++ [y]). split; [by rewrite <- app_assoc|].
    split; [done|]. split.
    { rewrite !length_app, !length_fmap. simpl. lia. }
    intros Hunm c Hc.
    assert (Hy' : y = not_matched).
    { apply Hy. intros m Hm. rewrite cell_at_app_l; [by apply Hunm|].
      rewrite (T1_row_length t Ht). apply key_pos_lt. }
    apply elem_of_app in Hc as [Hc|Hc].
    - destruct (Honce c Hc) as [Ho Hk]. destruct (Hmapped c Hc) as (Hcn & Hcf & Hckr).
      rewrite row_get_app_l.
      + rewrite row_get_fmap; [by apply Hun|]. intros l _. apply Hcf.
      + by rewrite length_fmap.
      + apply list_elem_of_fmap. exists c. split; [|by apply once_elem].
        symmetry. by apply Hcf.
    - apply list_elem_of_singleton in Hc as ->.
      rewrite row_get_app_r; [|by rewrite length_fmap|by apply Hnew_ren].
      rewrite row_get_app_r; [|done|done].
      simpl. by rewrite decide_True. }
  split; [|done].
  intros t Ht. destruct (Hcov t Ht) as [e He].
  destruct (Hcover _ He) as (krc & y & Hin).
  exists (e ++ krc ++ [y]). by rewrite app_assoc.
Qed.

Lemma inv_row_length P st l :
  inv P st → l ∈ rows (lk_merged_df st) →
  length l = length (columns (lk_merged_df st)).
Proof.
  intros (T' & added & Hcols & Hkept & _ & _ & _ & _ & _ & _ & Hok & _) Hl.
  rewrite Forall_forall in Hok.
  destruct (Hok l Hl) as (t & e & -> & Ht & Hlen & _).
  rewrite Hcols, !length_app, Hlen, (T1_row_length t Ht).
  by rewrite (Forall2_length _ _ _ Hkept).
Qed.

(** While the lookup is exact, the key label stays where it was. *)
Lemma inv_key_pos P st i0 :
  inv P st → unique_pos kT (columns (lk_merged_df st)) = Some i0 → i0 = i.
Proof.
  intros (T' & added & Hcols & _ & Hi' & _) H0.
  eapply unique_pos_is; [exact H0|]. rewrite Hcols. by apply lookup_app_l_Some.
Qed.

Lemma inv_key_unique P st :
  inv P st → (∀ p, p ∈ P → p ∈ V) → method req = Map ∨ kT = kM →
  unique_pos kT (columns (lk_merged_df st)) = Some i.
Proof.
  intros Hinv HP Hc.
  pose proof Hinv as (T' & added & Hcols & _ & _ & _ & _ & _ & Hexact & _).
  destruct (Hexact Hc) as (-> & -> & Hmp).
  assert (Ho : once kT (columns (lk_merged_df st))).
  { rewrite Hcols. apply once_app_l; [apply once_unique_pos; eauto|].
    rewrite Hmp. intros (p & Hp & Hin)%list_elem_of_fmap.
    by apply (kT_not_mapped p (HP p Hin)). }
  apply once_unique_pos in Ho as [i0 H0].
  by rewrite H0, (inv_key_pos P st i0 Hinv H0).
Qed.

(** The rows that lines 127-128 make of one row [l] of the merged table. *)
Lemma merge_row_expansion (ren : string → string) (cols kr : list string)
    (new : string) (rowsM : list (list cell)) (jv : nat) (same : bool)
    (l : list cell) :
  (same = true ∧ kr = [] ∨ same = false ∧ length kr = 1) →
  new ∉ (ren <$> cols) ++ kr → length l = length cols →
  ∃ pairs : list (list cell * cell),
    pairs ≠ [] ∧
    update_under new (pd.fillna not_matched) ((ren <$> cols) ++ kr ++ [new]) <$>
      match filter (λ r, cell_at 0 r = cell_at i l)
              ((λ m, [cell_at j m; cell_at jv m]) <$> rowsM) with
      | [] => [l ++ replicate (length (kr ++ [new])) NaN]
      | ms => (λ r, l ++ (if same then delete 0 r else r)) <$> ms
      end
    = (λ p, l ++ p.1 ++ [p.2]) <$> pairs ∧
    Forall (λ p, length p.1 = length kr ∧
                 ((∀ m, m ∈ rowsM → cell_at j m ≠ cell_at i l) → p.2 = not_matched))
      pairs.
Proof.
  intros Hsame Hnew Hlen.
  assert (Hupd : ∀ krc y, length krc = length kr →
            update_under new (pd.fillna not_matched)
              ((ren <$> cols) ++ kr ++ [new]) (l ++ krc ++ [y]) =
            l ++ krc ++ [pd.fillna not_matched y]).
  { intros krc y Hk. rewrite !app_assoc.
    apply update_under_snoc; [done|].
    rewrite !length_app, length_fmap. lia. }
  destruct (filter _ _) as [|r0 ms] eqn:Hf.
  - exists [(replicate (length kr) NaN, not_matched)]. split; [done|]. split.
    + simpl. f_equal. rewrite length_app. simpl.
      replace (length kr + 1) with (S (length kr)) by lia.
      rewrite replicate_S_end. rewrite Hupd; [done|by rewrite length_replicate].
    + repeat constructor. simpl. by rewrite length_replicate.
  - exists ((λ r, (if same then [] else [cell_at 0 r],
                   pd.fillna not_matched (cell_at 1 r))) <$> (r0 :: ms)).
    split; [done|].
    assert (Hms : ∀ r, r ∈ r0 :: ms →
              ∃ m, m ∈ rowsM ∧ r = [cell_at j m; cell_at jv m] ∧
                   cell_at j m = cell_at i l).
    { intros r Hr. rewrite <- Hf in Hr. apply list_elem_of_filter in Hr as [Heq Hr].
      apply list_elem_of_fmap in Hr as (m & -> & Hm). exists m. done. }
    split.
    + rewrite <- !list_fmap_compose. apply Forall_fmap_ext_1.
      rewrite Forall_forall. intros r Hr. simpl.
      destruct (Hms r Hr) as (m & _ & -> & _).
      destruct Hsame as [[-> ->]|[-> Hk]]; simpl.
      * exact (Hupd [] _ eq_refl).
      * exact (Hupd [cell_at j m] _ (eq_sym Hk)).
    + apply Forall_fmap. rewrite Forall_forall. intros r Hr. simpl.
      destruct (Hms r Hr) as (m & Hm & -> & Hkey). split.
      * destruct Hsame as [[-> ->]|[-> Hk]]; simpl; done.
      * intros Hun. by apply Hun in Hkey.
Qed.

Lemma M1_positions c :
  c ∈ columns M → ∃ jc, positions c (columns M1) = [jc] ∧ columns M1 !! jc = Some c.
Proof. intros Hc. simpl. apply once_positions_lookup. by apply NoDup_once. Qed.

Lemma M1_key_positions :
  positions kM (columns M1) = [j] ∧ columns M1 !! j = Some kM.
Proof.
  simpl. split; [|by apply unique_pos_lookup].
  unfold unique_pos in Hj.
  destruct (positions kM (columns M)) as [|j' [|]]; try discriminate.
  by injection Hj as ->.
Qed.

(** Lines 126-128 keep the invariant. *)
Lemma merge_step_inv P st v :
  inv P st → (∀ p, p ∈ P → p ∈ V) → v ∈ V → v ∉ P → method req = Merge →
  inv (P ++ [v]) (lookup_step req st v).
Proof.
  intros Hinv HP Hv HvP Hmeth.
  pose proof Hinv as (T' & added & Hcols & Hkept & Hi' & Hadded & Hsub & Honce &
                      Hexact & Hrows & Hok & Hcov & HM).
  destruct (HV v Hv) as (HvM & Hvk & HvT).
  destruct M1_key_positions as [Hpk Hlk].
  destruct (M1_positions v HvM) as (jv & Hpv & Hlv).
  pose proof (select_rename_pair M1 kM v (new_col_name v) j jv Hpk Hlk Hpv Hlv Hvk)
    as Hpair.
  unfold lookup_step. rewrite Hmeth. unfold merge_branch. rewrite HM.
  destruct (pd.select M1 [kM; v]) as [temp|]; [|discriminate].
  cbn [mbind option_bind] in Hpair |- *.
  apply (inj Some) in Hpair. rewrite Hpair. clear Hpair temp.
  set (rows2 := (λ m, [cell_at j m; cell_at jv m]) <$> _).
  set (new := new_col_name v).
  destruct (decide (new = kM)) as [Heq|Hnk].
  - (* the renamed value column takes the label of the key *)
    assert (Hnone : pd.merge (lk_merged_df st) (mkDataFrame [kM; new] rows2) kT kM = None).
    { rewrite Heq. apply merge_right_key_repeated. }
    rewrite Hnone. apply inv_unchanged; [done|].
    intros [?|Hk]; [congruence|]. apply (kT_not_mapped v Hv).
    by rewrite Hk, <- Heq.
  - destruct (unique_pos kT (columns (lk_merged_df st))) as [i0|] eqn:H0; cycle 1.
    { assert (Hnone : pd.merge (lk_merged_df st) (mkDataFrame [kM; new] rows2) kT kM
                      = None).
      { unfold pd.merge. by rewrite H0. }
      rewrite Hnone. apply inv_unchanged; [done|].
      intros Hc. by rewrite (inv_key_unique P st Hinv HP Hc) in H0. }
    pose proof (inv_key_pos P st i0 Hinv H0) as ->.
    assert (Hfresh : new ∉ columns (lk_merged_df st)).
    { apply (inv_fresh P st v Hinv Hv HvP). done. }
    destruct (merge_key_value (lk_merged_df st) rows2 kT kM new i H0 Hnk Hfresh Hrows)
      as (ren & kr & Hren & Hkr & Hres & Hsame).
    destruct Hres as [Hnone|Hsome].
    { rewrite Hnone. apply inv_unchanged; [done|].
      intros [?|Hk]; [congruence|]. by apply Hsame. }
    rewrite Hsome. unfold fill_not_matched. cbn [columns rows].
    rewrite decide_True; cycle 1.
    { rewrite !elem_of_app. right. right. apply list_elem_of_here. }
    assert (Hkr' : kr = [] ∨ kr = [kM] ∨ kr = [kM +:+ "_y"]).
    { destruct Hkr as [(_ & -> & _)|(_ & [->| ->])]; auto. }
    assert (Hflag : bool_decide (kT = kM) = true ∧ kr = [] ∨
                    bool_decide (kT = kM) = false ∧ length kr = 1).
    { destruct Hkr as [(Hk & -> & _)|(Hk & [->| ->])].
      - left. by rewrite bool_decide_eq_true_2.
      - right. by rewrite bool_decide_eq_false_2.
      - right. by rewrite bool_decide_eq_false_2. }
    assert (Hnew_out : new ∉ (ren <$> columns (lk_merged_df st)) ++ kr).
    { apply not_elem_of_app. split.
      - intros (l & Hl & Hin)%list_elem_of_fmap. symmetry in Hl.
        apply (proj1 (ren_fixes_mapped ren new v Hren eq_refl Hnk l)) in Hl.
        by subst l.
      - destruct Hkr' as [->|[->| ->]].
        + apply not_elem_of_nil.
        + by rewrite list_elem_of_singleton.
        + rewrite list_elem_of_singleton. intros Heq. symmetry in Heq.
          by apply suffix_y_not_mapped in Heq. }
    apply inv_extend; try done.
    + intros [?|Hk]; [congruence|].
      destruct Hkr as [(_ & -> & Hid)|(Hne & _)]; done.
    + intros r' (r0 & -> & Hr0)%list_elem_of_fmap.
      apply list_elem_of_bind in Hr0 as (l & Hr0 & Hl).
      destruct (merge_row_expansion ren (columns (lk_merged_df st)) kr new
                  (rows M1) jv (bool_decide (kT = kM)) l Hflag Hnew_out
                  (inv_row_length P st l Hinv Hl)) as (pairs & _ & Heq & Hprs).
      assert (Hin : update_under new (pd.fillna not_matched)
                      ((ren <$> columns (lk_merged_df st)) ++ kr ++ [new]) r0
                    ∈ (λ p : list cell * cell, l ++ p.1 ++ [p.2]) <$> pairs).
      { rewrite <- Heq. apply list_elem_of_fmap. eauto. }
      apply list_elem_of_fmap in Hin as ([krc y] & Hshape & Hp).
      rewrite Forall_forall in Hprs. destruct (Hprs _ Hp) as [Hlen Hy].
      exists l, krc, y. done.
    + intros l Hl.
      destruct (merge_row_expansion ren (columns (lk_merged_df st)) kr new
                  (rows M1) jv (bool_decide (kT = kM)) l Hflag Hnew_out
                  (inv_row_length P st l Hinv Hl)) as (pairs & Hne & Heq & _).
      destruct pairs as [|[krc y] pairs]; [done|].
      exists krc, y.
      assert (Hin : l ++ krc ++ [y]
                    ∈ (λ p : list cell * cell, l ++ p.1 ++ [p.2]) <$> (krc, y) :: pairs).
      { simpl. apply list_elem_of_here. }
      rewrite <- Heq in Hin. apply list_elem_of_fmap in Hin as (r0 & -> & Hr0).
      apply list_elem_of_fmap. exists r0. split; [done|].
      apply list_elem_of_bind. eauto.
Qed.

(** Lines 130-131 keep the invariant. *)
Lemma map_step_inv P st v :
  inv P st → (∀ p, p ∈ P → p ∈ V) → v ∈ V → v ∉ P → method req = Map →
  inv (P ++ [v]) (lookup_step req st v).
Proof.
  intros Hinv HP Hv HvP Hmeth.
  pose proof Hinv as (T' & added & Hcols & Hkept & Hi' & Hadded & Hsub & Honce &
                      Hexact & Hrows & Hok & Hcov & HM).
  destruct (HV v Hv) as (HvM & Hvk & HvT).
  destruct M1_key_positions as [Hpk Hlk].
  destruct (M1_positions v HvM) as (jv & Hpv & Hlv).
  assert (Hfresh : new_col_name v ∉ columns (lk_merged_df st)).
  { apply (inv_fresh P st v Hinv Hv HvP). congruence. }
  unfold lookup_step. rewrite Hmeth. unfold map_branch, pd.iter_col, pd.series.
  rewrite HM, Hpk, Hpv. cbn [mbind option_bind].
  rewrite (inv_key_unique P st Hinv HP (or_introl Hmeth)). cbn [mbind option_bind].
  unfold pd.setitem. rewrite decide_False by done.
  set (d := pd.dict_zip _ _).
  rewrite <- !list_fmap_compose, zip_with_fmap_same.
  set (new_rows := _ <$> rows (lk_merged_df st)).
  replace (mkDataFrame (columns (lk_merged_df st) ++ [new_col_name v]) new_rows)
    with (mkDataFrame (((λ l, l) <$> columns (lk_merged_df st)) ++ [] ++
                       [new_col_name v]) new_rows)
    by (by rewrite list_fmap_id).
  apply (inv_extend P st v (λ l, l) [] new_rows); try done.
  - by left.
  - by left.
  - congruence.
  - intros r' (l & -> & Hl)%list_elem_of_fmap.
    exists l, [], ((pd.fillna not_matched ∘ pd.map_cell d ∘ cell_at i) l).
    repeat split; [done|]. intros Hun. simpl.
    unfold pd.map_cell, d. rewrite dict_zip_lookup_None; [done|].
    intros (m & Hm & Hin)%list_elem_of_fmap. by apply (Hun m Hin).
  - intros l Hl. exists [], ((pd.fillna not_matched ∘ pd.map_cell d ∘ cell_at i) l).
    apply list_elem_of_fmap. exists l. done.
Qed.

(** Every pass of the loop at line 122 keeps the invariant. *)
Lemma lookup_step_inv P st v :
  inv P st → (∀ p, p ∈ P → p ∈ V) → v ∈ V → v ∉ P →
  inv (P ++ [v]) (lookup_step req st v).
Proof.
  intros. destruct (method req) eqn:Hm.
  - by apply merge_step_inv.
  - by apply map_step_inv.
Qed.

Lemma lookup_steps_inv vs : ∀ P st,
  inv P st → (∀ p, p ∈ P ++ vs → p ∈ V) → NoDup (P ++ vs) →
  inv (P ++ vs) (foldl (lookup_step req) st vs).
Proof.
  induction vs as [|v vs IH]; intros P st Hinv HP Hnd; simpl.
  - by rewrite app_nil_r.
  - replace (P ++ v :: vs) with ((P ++ [v]) ++ vs) in * by (by rewrite <- app_assoc).
    apply IH; [|done|done].
    apply lookup_step_inv; [done|..].
    + intros p Hp. apply HP. rewrite elem_of_app. left. rewrite elem_of_app. by left.
    + apply HP. rewrite elem_of_app. left. rewrite elem_of_app. right.
      apply list_elem_of_here.
    + apply NoDup_app in Hnd as (Hnd & _ & _). apply NoDup_app in Hnd as (_ & Hd & _).
      intros Hin. apply (Hd v Hin). apply list_elem_of_here.
Qed.

(** The state in which the loop starts. *)
Lemma inv_initial :
  inv [] (mkLookupState T1 M1 [] [] false).
Proof.
  exists (columns T), []. simpl. rewrite app_nil_r.
  split; [done|]. split.
  { apply Forall2_same_length_lookup_2; [done|]. intros k l l' Hl Hl'.
    left. congruence. }
  split; [by apply unique_pos_lookup|].
  split; [constructor|]. split; [constructor|].
  split. { intros c Hc. by apply elem_of_nil in Hc. }
  split; [done|]. split. { by destruct (rows T). }
  split.
  { rewrite Forall_forall. intros r Hr. exists r, []. rewrite app_nil_r.
    repeat split; try done. intros _ c Hc. by apply elem_of_nil in Hc. }
  split; [|done]. intros t Ht. exists []. by rewrite app_nil_r.
Qed.

Lemma inv_mapped_fresh P st c :
  inv P st → (∀ p, p ∈ P → p ∈ V) → c ∈ mapped_columns st →
  ∃ T' added, columns (lk_merged_df st) = T' ++ added ∧ (c ∉ T') ∧ once c added.
Proof.
  intros (T' & added & Hcols & Hkept & _ & _ & Hsub & Honce & _) HP Hc.
  exists T', added. split; [done|]. split; [|by apply Honce].
  apply (sublist_subseteq _ _ Hsub) in Hc.
  apply list_elem_of_fmap in Hc as (u & -> & Hu).
  apply fresh_kept; [done|]. by apply HP.
Qed.

(** The whole lookup under the contract: the loop ends in a state of the
    invariant, and lines 137-139 then move its [_mapped] columns. *)
Lemma perform_lookup_result :
  NoDup V →
  ∃ st, inv V st ∧
    lk_merged_df (perform_lookup T M req) =
      mkDataFrame
        (mapped_columns st ++
         filter (λ l, l ∉ reverse (mapped_columns st)) (columns (lk_merged_df st)))
        ((λ r, ((λ c, row_get c (columns (lk_merged_df st)) r) <$> mapped_columns st) ++
               delete_all (reverse (mapped_columns st))
                 (columns (lk_merged_df st)) r) <$> rows (lk_merged_df st)) ∧
    lk_map_df (perform_lookup T M req) = M1 ∧
    mapped_columns (perform_lookup T M req) = mapped_columns st ∧
    lookup_done (perform_lookup T M req) = true.
Proof.
  intros HndV.
  set (st := foldl (lookup_step req) (mkLookupState T1 M1 [] [] false) V).
  assert (Hinv : inv V st).
  { apply (lookup_steps_inv V [] _ inv_initial); simpl; done. }
  exists st. split; [done|].
  assert (HP : ∀ p, p ∈ V → p ∈ V) by done.
  assert (Hre : reorder_loop (reverse (mapped_columns st)) (lk_merged_df st) =
    (mkDataFrame
       (mapped_columns st ++
        filter (λ l, l ∉ reverse (mapped_columns st)) (columns (lk_merged_df st)))
       ((λ r, ((λ c, row_get c (columns (lk_merged_df st)) r) <$> mapped_columns st) ++
              delete_all (reverse (mapped_columns st))
                (columns (lk_merged_df st)) r) <$> rows (lk_merged_df st)),
     true)).
  { rewrite reorder_loop_spec.
    - by rewrite reverse_involutive.
    - rewrite reverse_Permutation.
      destruct Hinv as (T' & added & _ & _ & _ & _ & Hsub & _).
      eapply sublist_NoDup; [|exact Hsub]. apply NoDup_fmap_2; [apply _|done].
    - intros c Hc. rewrite elem_of_reverse in Hc.
      destruct (inv_mapped_fresh V st c Hinv HP Hc) as (T' & added & -> & HcT & Ho).
      by apply once_app_r.
    - unfold well_formed. rewrite Forall_forall. intros l Hl.
      by eapply inv_row_length. }
  unfold perform_lookup.
  rewrite (normalize_key_column_once T kT) by (apply once_unique_pos; eauto).
  rewrite (normalize_key_column_once M kM) by (apply once_unique_pos; eauto).
  change (foldl (lookup_step req) _ V) with st.
  rewrite Hre. done.
Qed.

End LookupInvariant.

(** ** The lookup under its contract *)

Section Contract.

Variables (T M : DataFrame) (req : lookup_request).
Hypothesis Hcontract : lookup_contract T M req.

Local Abbreviation kT := (key_col_main req).
Local Abbreviation kM := (key_col_map req).
Local Abbreviation V := (value_cols_to_map req).
Local Abbreviation out := (perform_lookup T M req).

Lemma filter_all {A} (P : A → Prop) `{∀ x, Decision (P x)} (l : list A) :
  (∀ x, x ∈ l → P x) → filter P l = l.
Proof.
  induction l as [|a l IH]; intros Hl; [done|].
  rewrite filter_cons_True by (apply Hl; apply list_elem_of_here).
  f_equal. apply IH. intros x Hx. apply Hl. by apply list_elem_of_further.
Qed.

Lemma filter_none {A} (P : A → Prop) `{∀ x, Decision (P x)} (l : list A) :
  (∀ x, x ∈ l → ¬ P x) → filter P l = [].
Proof.
  induction l as [|a l IH]; intros Hl; [done|].
  rewrite filter_cons_False by (apply Hl; apply list_elem_of_here).
  apply IH. intros x Hx. apply Hl. by apply list_elem_of_further.
Qed.

Lemma fmap_constant {A B} (f : A → B) (y : B) (l : list A) :
  (∀ x, x ∈ l → f x = y) → f <$> l = replicate (length l) y.
Proof.
  induction l as [|a l IH]; intros Hl; simpl; [done|].
  rewrite (Hl a) by apply list_elem_of_here. f_equal.
  apply IH. intros x Hx. apply Hl. by apply list_elem_of_further.
Qed.

(** The state in which the loop ends, and what lines 137-139 make of it. *)
Lemma contract_result :
  ∃ i j st T' added,
    unique_pos kT (columns T) = Some i ∧
    unique_pos kM (columns M) = Some j ∧
    columns (lk_merged_df st) = T' ++ added ∧
    length T' = length (columns T) ∧
    Forall2 (kept kM) (columns T) T' ∧
    mapped_columns st `sublist_of` (new_col_name <$> V) ∧
    (∀ c, c ∈ mapped_columns st → (c ∉ T') ∧ c ∈ added) ∧
    (method req = Map ∨ kT = kM →
     T' = columns T ∧ added = mapped_columns st ∧
     mapped_columns st = new_col_name <$> V) ∧
    Forall (row_ok (normalized T kT) (normalized M kM) i j added (mapped_columns st))
      (rows (lk_merged_df st)) ∧
    (∀ t, t ∈ rows (normalized T kT) → ∃ e, t ++ e ∈ rows (lk_merged_df st)) ∧
    lk_merged_df out =
      mkDataFrame
        (mapped_columns st ++ T' ++
         filter (λ l, l ∉ reverse (mapped_columns st)) added)
        ((λ r, ((λ c, row_get c (columns (lk_merged_df st)) r) <$> mapped_columns st) ++
               delete_all (reverse (mapped_columns st))
                 (columns (lk_merged_df st)) r) <$> rows (lk_merged_df st)) ∧
    mapped_columns out = mapped_columns st ∧
    lookup_done out = true.
Proof.
  destruct Hcontract as (Hne & Hwf & HkT & HndM & HkM & HndV & HV).
  apply empty_false in Hne as [_ Hrows].
  apply once_unique_pos in HkT as [i Hi].
  destruct (proj1 (once_unique_pos kM (columns M)) (NoDup_once _ _ HndM HkM)) as [j Hj].
  destruct (perform_lookup_result T M req i j Hrows Hwf Hi HndM Hj HV HndV)
    as (st & Hinv & Hdf & _ & Hmp & Hdone).
  pose proof Hinv as (T' & added & Hcols & Hkept & _ & _ & Hsub & Honce & Hexact &
                      _ & Hok & Hcov & _).
  assert (HmT : ∀ c, c ∈ mapped_columns st → c ∉ T').
  { intros c Hc. apply (sublist_subseteq _ _ Hsub) in Hc.
    apply list_elem_of_fmap in Hc as (u & -> & Hu).
    by apply (fresh_kept T M req HV). }
  exists i, j, st, T', added. repeat split; try done.
  - symmetry. by eapply Forall2_length.
  - by apply HmT.
  - by apply once_elem, Honce.
  - by apply Hexact.
  - by apply Hexact.
  - by apply Hexact.
  - rewrite Hdf, Hcols, filter_app. do 2 f_equal.
    rewrite filter_all; [done|]. intros l Hl Hin.
    rewrite elem_of_reverse in Hin. by apply (HmT l).
Qed.

End Contract.

(** The labels of the result under the contract of the lookup: the lookup
    completes and the result's columns are: first the [_mapped] columns it created, in the
    order of the value columns; then the columns the merged table had, in
    their order (a label that collides with the mapping key carries the
    suffix [_x] of pandas' merge); then the key columns a merge on two
    different key labels adds. Under the map method, or when both keys have
    the same label, every value column yields its [_mapped] column and the
    result's labels are exactly those followed by the labels of the merged
    table. *)
Theorem mapped_columns_moved_to_front (T M : DataFrame) (req : lookup_request) :
  lookup_contract T M req →
  let out := perform_lookup T M req in
  lookup_done out = true ∧
  mapped_columns out `sublist_of` (new_col_name <$> value_cols_to_map req) ∧
  ∃ T' added,
    columns (lk_merged_df out) = mapped_columns out ++ T' ++ added ∧
    Forall2 (λ l l', l' = l ∨ l' = l +:+ "_x") (columns T) T' ∧
    (∀ c, c ∈ mapped_columns out → c ∉ T' ++ added) ∧
    (key_col_map req ∉ columns T → T' = columns T) ∧
    (method req = Map ∨ key_col_main req = key_col_map req →
     mapped_columns out = new_col_name <$> value_cols_to_map req ∧
     T' = columns T ∧ added = []).
Proof.
  intros Hc out.
  destruct (contract_result T M req Hc)
    as (i & j & st & T' & added & Hi & Hj & Hcols & HlenT & Hkept & Hsub & Hmapped &
        Hexact & Hok & Hcov & Hdf & Hmp & Hdone).
  fold out in Hdf, Hmp, Hdone. rewrite Hmp.
  split; [done|]. split; [done|].
  exists T', (filter (λ l, l ∉ reverse (mapped_columns st)) added).
  split; [by rewrite Hdf|]. split.
  { eapply Forall2_impl; [exact Hkept|]. intros l l' [->|[-> ->]]; auto. }
  split.
  { intros c Hm. apply not_elem_of_app. split; [by apply Hmapped|].
    rewrite list_elem_of_filter, elem_of_reverse. tauto. }
  split.
  { intros HkM. apply list_eq_same_length with (length T'); [done|done|].
    intros k l' l Hk Hl' Hl.
    destruct (Forall2_lookup_lr _ _ _ _ _ _ Hkept Hl Hl') as [->|[-> _]]; [done|].
    exfalso. apply HkM. by eapply list_elem_of_lookup_2. }
  intros Hcase. destruct (Hexact Hcase) as (-> & -> & Heq).
  split; [done|]. split; [done|].
  apply filter_none. intros l Hl Hn. apply Hn. by rewrite elem_of_reverse.
Qed.

Lemma sales_contract (m : lookup_method) :
  lookup_contract sales_table regions_table (region_manager_request m).
Proof.
  split; [reflexivity|].
  split; [repeat constructor|].
  split; [exists [], ["Sales"]; repeat split; apply (bool_decide_unpack _); exact I|].
  split; [apply (bool_decide_unpack _); exact I|].
  split; [apply (bool_decide_unpack _); exact I|].
  split; [apply (bool_decide_unpack _); exact I|].
  apply Forall_forall. apply (bool_decide_unpack _). vm_compute. exact I.
Defined.

(** The rows of the result under the contract of the lookup, with either
    method: every row of the result consists of the cells of the [_mapped] columns, followed by
    the cells of a row of the merged table with its key normalized, followed
    by the cells of the added key columns; every row of the merged table
    yields such a row; and when no row of the mapping table has the same
    normalized key as that row, every one of its [_mapped] cells is the
    string "Not Matched". *)
Theorem unmatched_rows_not_matched (T M : DataFrame) (req : lookup_request)
    (i j : nat) :
  lookup_contract T M req → well_formed M →
  unique_pos (key_col_main req) (columns T) = Some i →
  unique_pos (key_col_map req) (columns M) = Some j →
  let out := perform_lookup T M req in
  let n := length (mapped_columns out) in
  let with_key t := update_under (key_col_main req) normalize_key (columns T) t in
  take n (columns (lk_merged_df out)) = mapped_columns out ∧
  (∀ r, r ∈ rows (lk_merged_df out) →
     ∃ t mc rest,
       t ∈ rows T ∧ r = mc ++ with_key t ++ rest ∧ length mc = n ∧
       ((∀ m, m ∈ rows M →
           normalize_key (cell_at j m) ≠ normalize_key (cell_at i t)) →
        mc = replicate n not_matched)) ∧
  (∀ t, t ∈ rows T →
     ∃ mc rest, mc ++ with_key t ++ rest ∈ rows (lk_merged_df out) ∧ length mc = n).
Proof.
  intros Hc HwfM Hi Hj out n with_key.
  destruct (contract_result T M req Hc)
    as (i' & j' & st & T' & added & Hi' & Hj' & Hcols & HlenT & Hkept & Hsub & Hmapped &
        Hexact & Hok & Hcov & Hdf & Hmp & Hdone).
  rewrite Hi in Hi'. injection Hi' as <-. rewrite Hj in Hj'. injection Hj' as <-.
  fold out in Hdf, Hmp, Hdone. subst n. rewrite Hmp, Hdf. cbn [columns rows].
  destruct Hc as (_ & HwfT & _).
  assert (Hlen_t : ∀ t, t ∈ rows T → length (with_key t) = length T').
  { intros t Ht. unfold with_key. rewrite update_under_length, HlenT.
    unfold well_formed in HwfT. rewrite Forall_forall in HwfT. by apply HwfT. }
  (* what lines 137-139 make of a row [t ++ e] of the loop's last frame *)
  assert (Hshape : ∀ t e, t ∈ rows T →
    ((λ c, row_get c (columns (lk_merged_df st)) (with_key t ++ e)) <$> mapped_columns st) ++
      delete_all (reverse (mapped_columns st)) (columns (lk_merged_df st))
        (with_key t ++ e) =
    ((λ c, row_get c added e) <$> mapped_columns st) ++ with_key t ++
      delete_all (reverse (mapped_columns st)) added e).
  { intros t e Ht. rewrite Hcols. f_equal.
    - apply list_fmap_ext. intros k c Hk. apply list_elem_of_lookup_2 in Hk.
      apply row_get_app_r; [by apply Hlen_t|by apply Hmapped].
    - apply delete_all_app; [by apply Hlen_t|].
      intros c Hin. rewrite elem_of_reverse in Hin. by apply Hmapped. }
  split; [by rewrite take_app_length|]. split.
  - intros r (r0 & -> & Hr0)%list_elem_of_fmap.
    rewrite Forall_forall in Hok.
    destruct (Hok r0 Hr0) as (t1 & e & -> & Ht1 & Hlen & Hun).
    apply list_elem_of_fmap in Ht1 as (t & -> & Ht).
    exists t, ((λ c, row_get c added e) <$> mapped_columns st),
           (delete_all (reverse (mapped_columns st)) added e).
    split; [done|]. split; [by apply Hshape|].
    split; [by rewrite length_fmap|].
    intros Hno. apply fmap_constant. intros c Hm. apply Hun; [|done].
    intros m1 (m & -> & Hm')%list_elem_of_fmap.
    assert (Hmlen : length m = length (columns M)).
    { unfold well_formed in HwfM. rewrite Forall_forall in HwfM. by apply HwfM. }
    assert (Htlen : length t = length (columns T)).
    { unfold well_formed in HwfT. rewrite Forall_forall in HwfT. by apply HwfT. }
    rewrite (update_under_at _ _ _ _ j), (update_under_at _ _ _ _ i).
    + by apply Hno.
    + by apply unique_pos_lookup.
    + rewrite Htlen. apply unique_pos_lookup in Hi. by eapply lookup_lt_Some.
    + by apply unique_pos_lookup.
    + rewrite Hmlen. apply unique_pos_lookup in Hj. by eapply lookup_lt_Some.
  - intros t Ht.
    destruct (Hcov (with_key t)) as [e He].
    { apply list_elem_of_fmap. by exists t. }
    exists ((λ c, row_get c added e) <$> mapped_columns st),
           (delete_all (reverse (mapped_columns st)) added e).
    split; [|by rewrite length_fmap].
    rewrite <- Hshape by done.
    apply list_elem_of_fmap. by exists (with_key t ++ e).
Qed.


(** C6. The merged table already has a column labelled [Region_mapped] and
    [Region] is looked up by the map method.  Line 131 creates no column:
    it overwrites the one the table has, and lines 137-139 move that
    column to the front.  The result has three columns, not four; the
    values the table held under [Region_mapped] are gone, and the columns
    the table had do not follow the moved block in their order. *)
Lemma existing_mapped_label_is_overwritten_and_moved :
  columns labelled_sales_table = ["ID"; "Region_mapped"; "Sales"] ∧
  lk_merged_df (perform_lookup labelled_sales_table region_table
                  (region_request Map)) =
    mkDataFrame ["Region_mapped"; "ID"; "Sales"]
      [[Text "North"; Text "A1"; Text "10"];
       [Text "Not Matched"; Text "ZZ"; Text "30"]] ∧
  columns (lk_merged_df (perform_lookup labelled_sales_table region_table
                           (region_request Map))) ≠
    ["Region_mapped"] ++ columns labelled_sales_table.
Proof.
  split; [reflexivity|]. split; [vm_compute; reflexivity|].
  vm_compute. discriminate.
Qed.

(** * Further properties of the code *)

(** ** [deduplicate_columns] (lines 31-40) *)

Section DedupNames.

Lemma occurrences_snoc c pre x :
  occurrences c (pre ++ [x]) = occurrences c pre + (if decide (x = c) then 1 else 0).
Proof.
  unfold occurrences. rewrite filter_app, length_app. f_equal.
  destruct (decide (x = c)).
  - by rewrite filter_cons_True.
  - by rewrite filter_cons_False.
Qed.

(** The loop with its counter, against the count of the labels read so far. *)
Lemma dedup_loop_occurrences cols : ∀ pre seen new_cols,
  (∀ c, counter_get seen c = occurrences c pre) →
  dedup_loop cols seen new_cols =
    new_cols ++ imap (λ i c, dedup_name c (occurrences c (pre ++ take i cols))) cols.
Proof.
  induction cols as [|col rest IH]; intros pre seen new_cols Hseen; simpl.
  - by rewrite app_nil_r.
  - rewrite (IH (pre ++ [col])).
    + rewrite app_nil_r, Hseen.
      replace (imap ((λ i c, dedup_name c (occurrences c (pre ++ take i (col :: rest))))
                     ∘ S) rest)
        with (imap (λ i c, dedup_name c (occurrences c ((pre ++ [col]) ++ take i rest)))
                rest).
      * unfold dedup_name.
        destruct (occurrences col pre); by rewrite <- app_assoc.
      * apply imap_ext. intros i c _. simpl. by rewrite <- app_assoc.
    + intros c. rewrite occurrences_snoc. unfold counter_get.
      destruct (decide (col = c)) as [->|Hne].
      * rewrite lookup_insert_eq. simpl. specialize (Hseen c).
        unfold counter_get in Hseen. lia.
      * rewrite lookup_insert_ne by done. rewrite Nat.add_0_r. apply Hseen.
Qed.

(** The decimal rendering of a number holds no underscore. *)
Lemma pretty_N_go_chars x : ∀ s,
  "_"%char ∉ list_ascii_of_string s →
  "_"%char ∉ list_ascii_of_string (pretty_N_go x s).
Proof.
  induction (N.lt_wf_0 x) as [x _ IH]; intros s Hs.
  assert (x = 0 ∨ 0 < x)%N as [->|Hpos] by lia.
  - by rewrite pretty_N_go_0.
  - rewrite pretty_N_go_step by done. apply IH.
    + by apply N.div_lt.
    + simpl. apply not_elem_of_cons. split; [|done].
      unfold pretty_N_char. by repeat case_match.
Qed.

Lemma pretty_nat_chars (n : nat) :
  "_"%char ∉ list_ascii_of_string (pretty n).
Proof.
  unfold pretty, pretty_nat, pretty, pretty_N.
  case_decide.
  - simpl. rewrite list_elem_of_singleton. discriminate.
  - apply pretty_N_go_chars. apply not_elem_of_nil.
Qed.

(** A generated name tells the label and the count it was made of. *)
Lemma generated_name_inj (a b : string) (n m : nat) :
  a +:+ "_" +:+ pretty n = b +:+ "_" +:+ pretty m → a = b ∧ n = m.
Proof.
  intros H. apply (f_equal list_ascii_of_string) in H.
  rewrite !list_ascii_app in H.
  change (list_ascii_of_string "_") with ["_"%char] in H. simpl in H.
  apply not_elem_of_app_cons_inv_r in H as (Hab & _ & Hnm);
    [|apply pretty_nat_chars..].
  split; [by apply list_ascii_inj|].
  apply list_ascii_inj in Hnm. by apply (inj pretty) in Hnm.
Qed.

Lemma occurrences_take_lt c cols i j :
  i < j → cols !! i = Some c →
  occurrences c (take i cols) < occurrences c (take j cols).
Proof.
  intros Hij Hi.
  assert (Hlen : i < length cols) by (by eapply lookup_lt_Some).
  rewrite <- (take_drop i (take j cols)).
  rewrite take_take, Nat.min_l by lia.
  unfold occurrences. rewrite filter_app, length_app.
  rewrite (drop_S (take j cols) c i); cycle 1.
  { rewrite lookup_take_lt by lia. done. }
  rewrite filter_cons_True by done. simpl. lia.
Qed.

(** The function as a map over the positions of its argument. *)
Lemma deduplicate_columns_imap (cols : list string) :
  deduplicate_columns cols =
  imap (λ i c, dedup_name c (occurrences c (take i cols))) cols.
Proof. unfold deduplicate_columns. by rewrite (dedup_loop_occurrences cols []). Qed.

End DedupNames.

(** X1. [deduplicate_columns] returns one name per input name, and the name
    at each position is the input name itself when it did not occur before
    that position, and the input name followed by [_k] when it occurred [k]
    times before it. *)
Theorem deduplicate_columns_by_occurrence (cols : list string) :
  length (deduplicate_columns cols) = length cols ∧
  ∀ i, deduplicate_columns cols !! i =
       (λ c, dedup_name c (occurrences c (take i cols))) <$> cols !! i.
Proof.
  rewrite deduplicate_columns_imap. split; [by rewrite length_imap|].
  intros i. by rewrite list_lookup_imap.
Qed.

(** X2. When no input name is itself one of the names the function can
    generate from an input name (the name, an underscore and a count from
    1), the names [deduplicate_columns] returns are pairwise distinct. *)
Theorem deduplicate_columns_distinct (cols : list string) :
  (∀ c n, c ∈ cols → 0 < n → c +:+ "_" +:+ pretty n ∉ cols) →
  NoDup (deduplicate_columns cols).
Proof.
  intros Hfree. apply NoDup_alt. intros i j x Hi Hj.
  rewrite deduplicate_columns_imap, list_lookup_imap in Hi, Hj.
  destruct (cols !! i) as [ci|] eqn:Hci; [|done].
  destruct (cols !! j) as [cj|] eqn:Hcj; [|done].
  simpl in Hi, Hj. injection Hi as Hi. injection Hj as Hj.
  assert (Hsame : ci = cj ∧
                  occurrences ci (take i cols) = occurrences cj (take j cols)).
  { rewrite <- Hj in Hi. unfold dedup_name in Hi.
    destruct (occurrences ci (take i cols)) as [|ni] eqn:Hni,
             (occurrences cj (take j cols)) as [|nj] eqn:Hnj.
    - done.
    - exfalso. apply (Hfree cj (S nj)); [by eapply list_elem_of_lookup_2|lia|].
      rewrite <- Hi. by eapply list_elem_of_lookup_2.
    - exfalso. apply (Hfree ci (S ni)); [by eapply list_elem_of_lookup_2|lia|].
      rewrite Hi. by eapply list_elem_of_lookup_2.
    - by apply generated_name_inj in Hi as [-> ->]. }
  destruct Hsame as [<- Hocc].
  destruct (Nat.lt_trichotomy i j) as [Hlt|[->|Hlt]]; [|done|].
  - pose proof (occurrences_take_lt ci cols i j Hlt Hci). lia.
  - pose proof (occurrences_take_lt ci cols j i Hlt Hcj). lia.
Qed.

Lemma deduplicate_columns_distinct_witness :
  NoDup (deduplicate_columns ["x"; "y"; "x"]).
Proof.
  apply deduplicate_columns_distinct.
  intros c n Hc Hn Hin.
  assert (Hshort : ∀ s, s ∈ ["x"; "y"; "x"] → String.length s = 1).
  { intros s Hs. repeat (apply elem_of_cons in Hs as [->|Hs]; [done|]).
    by apply elem_of_nil in Hs. }
  apply Hshort in Hin. apply Hshort in Hc.
  destruct c as [|a [|b c]]; simpl in Hc, Hin; try discriminate.
Defined.

(** ** The export (lines 50-61) *)

Section ExportName.

Lemma endswith_app (s suffix : string) :
  PyStr.endswith (s +:+ suffix) suffix = true.
Proof.
  induction s as [|c s IH]; simpl.
  - destruct suffix; simpl; [done|]. by rewrite bool_decide_eq_true_2.
  - rewrite IH. apply orb_true_r.
Qed.

Lemma lower_app (a b : string) :
  PyStr.lower (a +:+ b) = PyStr.lower a +:+ PyStr.lower b.
Proof. induction a as [|c a IH]; simpl; [done|by rewrite IH]. Qed.

End ExportName.

(** X3. The file name of a download, for the two formats of the select
    boxes.  A name that already ends with a dot and the format, in any case
    of letters, is kept as it was typed; every other name gets a dot and the
    format appended.  So the name returned always ends with the extension
    once letters are lowered, and a name the function has returned is
    returned as it is when it is passed again. *)
Theorem download_name_extension (stem ext filename format : string) :
  format = "xlsx" ∨ format = "csv" →
  (PyStr.lower ext = format →
   download_name (stem +:+ "." +:+ ext) format = stem +:+ "." +:+ ext) ∧
  (PyStr.endswith (PyStr.lower filename) ("." +:+ format) = false →
   download_name filename format = filename +:+ "." +:+ format) ∧
  PyStr.endswith (PyStr.lower (download_name filename format)) ("." +:+ format) = true ∧
  download_name (download_name filename format) format = download_name filename format.
Proof.
  intros Hformat.
  assert (Hlow : PyStr.lower format = format) by (by destruct Hformat as [-> | ->]).
  assert (Hends : ∀ name,
            PyStr.endswith (PyStr.lower (download_name name format))
              ("." +:+ format) = true).
  { intros name. unfold download_name.
    destruct (PyStr.endswith (PyStr.lower name) ("." +:+ format)) eqn:He; [done|].
    rewrite lower_app. change (PyStr.lower ("." +:+ format))
      with ("." +:+ PyStr.lower format).
    rewrite Hlow. apply endswith_app. }
  split; [|split; [|split]].
  - intros Hext. unfold download_name.
    rewrite lower_app. change (PyStr.lower ("." +:+ ext))
      with ("." +:+ PyStr.lower ext).
    by rewrite Hext, endswith_app.
  - intros Hno. unfold download_name. by rewrite Hno.
  - apply Hends.
  - unfold download_name at 1. by rewrite Hends.
Qed.

Lemma download_name_extension_witness :
  download_name "Report.CSV" "csv" = "Report.CSV" ∧
  download_name "merged_file" "csv" = "merged_file.csv" ∧
  PyStr.endswith (PyStr.lower (download_name "merged_file" "csv")) ".csv" = true ∧
  download_name (download_name "merged_file" "csv") "csv" =
    download_name "merged_file" "csv".
Proof.
  destruct (download_name_extension "Report" "CSV" "merged_file" "csv"
              (or_intror eq_refl)) as (Hkept & Hadded & Hends & Hagain).
  split; [exact (Hkept eq_refl)|]. split; [exact (Hadded eq_refl)|].
  split; [exact Hends|exact Hagain].
Defined.

(** ** [fix_dataframe_arrow] (lines 42-48) *)

Section DisplayHelper.

Variable missing_as : cell.
Variable raises : string → bool.

Local Abbreviation to_str := (astype_str missing_as).

(** What the loop makes of a cell under label [l]. *)
Local Abbreviation shown :=
  (λ (l : string) (c : cell), if raises l then c else astype_str missing_as c).

Lemma astype_str_idemp c : to_str (to_str c) = to_str c.
Proof. destruct c as [s|]; [done|]. simpl. by destruct missing_as. Qed.

Lemma shown_idemp l c : shown l (shown l c) = shown l c.
Proof. cbv beta. destruct (raises l); [done|apply astype_str_idemp]. Qed.

(** The loop over the labels [cs] keeps the labels and works row by row. *)
Lemma fix_fold_rows (cs : list string) : ∀ df,
  foldl (λ df col,
           if raises col then df
           else mkDataFrame (columns df)
                  (update_under col to_str (columns df) <$> rows df)) df cs =
  mkDataFrame (columns df)
    ((λ r, foldl (λ r col, if raises col then r
                           else update_under col to_str (columns df) r) r cs)
       <$> rows df).
Proof.
  induction cs as [|c cs IH]; intros [cols rs]; simpl.
  - by rewrite list_fmap_id.
  - destruct (raises c); rewrite IH; simpl; [done|].
    by rewrite <- list_fmap_compose.
Qed.

Lemma update_under_lookup c f cols r p l :
  cols !! p = Some l →
  update_under c f cols r !! p = (if decide (l = c) then f else id) <$> r !! p.
Proof.
  revert r p. induction cols as [|l' cols IH]; intros [|x r] [|p]; simpl; try done.
  - intros [= ->]. by destruct (decide (l = c)).
  - intros Hl. by apply IH.
Qed.

(** A row after the passes for the labels [cs]. *)
Lemma fix_fold_row cols (cs : list string) : ∀ r p l,
  cols !! p = Some l →
  foldl (λ r col, if raises col then r else update_under col to_str cols r) r cs
    !! p =
  (if decide (l ∈ cs) then shown l else id) <$> r !! p.
Proof.
  induction cs as [|c cs IH] using rev_ind; intros r p l Hl; simpl.
  - by rewrite option_fmap_id.
  - rewrite foldl_app. simpl.
    assert (Hstep : ∀ r', (if raises c then r' else update_under c to_str cols r') !! p =
                          (if decide (l = c) then shown l else id) <$> r' !! p).
    { intros r'. destruct (decide (l = c)) as [->|Hne].
      - destruct (raises c); [by rewrite option_fmap_id|].
        rewrite (update_under_lookup _ _ _ _ _ c Hl). by rewrite decide_True.
      - destruct (raises c); [by rewrite option_fmap_id|].
        rewrite (update_under_lookup _ _ _ _ _ l Hl). by rewrite decide_False. }
    rewrite Hstep, (IH _ _ l Hl), <- option_fmap_compose.
    apply option_fmap_ext. intros x. simpl.
    destruct (decide (l = c)) as [->|Hne].
    + rewrite (decide_True (P := c ∈ cs ++ [c]))
        by (apply elem_of_app; right; apply list_elem_of_here).
      destruct (decide (c ∈ cs)); [apply shown_idemp|done].
    + destruct (decide (l ∈ cs)) as [Hin|Hout].
      * rewrite decide_True by (apply elem_of_app; by left). done.
      * rewrite decide_False; [done|].
        intros [?|Hc%list_elem_of_singleton]%elem_of_app; done.
Qed.

Lemma fix_fold_length cols (cs : list string) : ∀ r,
  length (foldl (λ r col, if raises col then r
                          else update_under col to_str cols r) r cs) = length r.
Proof.
  induction cs as [|c cs IH]; intros r; simpl; [done|].
  rewrite IH. destruct (raises c); [done|apply update_under_length].
Qed.

(** The helper on a frame whose rows are aligned with its labels. *)
Lemma fix_dataframe_arrow_rows df :
  well_formed df →
  fix_dataframe_arrow missing_as raises df =
    mkDataFrame (columns df) ((λ r, zip_with shown (columns df) r) <$> rows df).
Proof.
  intros Hwf. unfold fix_dataframe_arrow. rewrite fix_fold_rows. f_equal.
  apply Forall_fmap_ext_1. eapply Forall_impl; [exact Hwf|].
  intros r Hr. simpl in Hr. apply list_eq. intros p.
  rewrite lookup_zip_with.
  destruct (columns df !! p) as [l|] eqn:Hl; simpl.
  - rewrite (fix_fold_row _ _ _ _ l Hl).
    rewrite decide_True by (by eapply list_elem_of_lookup_2).
    by destruct (r !! p).
  - apply lookup_ge_None in Hl.
    apply lookup_ge_None_2. rewrite fix_fold_length. lia.
Qed.

End DisplayHelper.

(** X4. On a frame whose rows are aligned with its labels,
    [fix_dataframe_arrow] keeps the labels and the rows in number and
    length.  A cell under a label whose assignment raises is left as it
    is; under every other label a cell that holds a value keeps its text,
    and a missing cell becomes what [astype(str)] makes of a missing value,
    which depends on the version of pandas and is left open.  So a frame
    without missing values is returned as it is, and calling the helper on
    its own result changes nothing. *)
Theorem fix_dataframe_arrow_stringifies (missing_as : cell) (raises : string → bool)
    (df : DataFrame) :
  well_formed df →
  let out := fix_dataframe_arrow missing_as raises df in
  out =
    mkDataFrame (columns df)
      ((λ r, zip_with (λ l c, if raises l then c else astype_str missing_as c)
                      (columns df) r) <$> rows df) ∧
  well_formed out ∧
  (Forall (λ r, NaN ∉ r) (rows df) → out = df) ∧
  fix_dataframe_arrow missing_as raises out = out.
Proof.
  intros Hwf out. subst out.
  assert (Hwf' : well_formed (fix_dataframe_arrow missing_as raises df)).
  { rewrite fix_dataframe_arrow_rows by done.
    unfold well_formed in *. simpl. apply Forall_fmap.
    eapply Forall_impl; [exact Hwf|]. intros r Hr. simpl in *.
    rewrite length_zip_with. lia. }
  split; [by apply fix_dataframe_arrow_rows|]. split; [done|]. split.
  - intros Hfull. rewrite fix_dataframe_arrow_rows by done.
    destruct df as [cols rs]. simpl in *. f_equal.
    rewrite <- (list_fmap_id rs) at 2. apply Forall_fmap_ext_1.
    unfold well_formed in Hwf. simpl in Hwf.
    rewrite Forall_forall in Hwf, Hfull. apply Forall_forall. intros r Hr.
    specialize (Hwf r Hr). specialize (Hfull r Hr). simpl.
    apply list_eq. intros p. rewrite lookup_zip_with.
    destruct (r !! p) as [c|] eqn:Hc.
    + destruct (cols !! p) as [l|] eqn:Hl; simpl.
      * destruct (raises l); [done|]. destruct c as [t|]; [done|].
        exfalso. apply Hfull. by eapply list_elem_of_lookup_2.
      * apply lookup_ge_None in Hl. apply lookup_lt_Some in Hc. lia.
    + by destruct (cols !! p).
  - rewrite (fix_dataframe_arrow_rows missing_as raises _ Hwf').
    rewrite (fix_dataframe_arrow_rows missing_as raises _ Hwf). simpl. f_equal.
    rewrite <- list_fmap_compose. apply list_fmap_ext. intros _ r _. simpl.
    apply list_eq. intros p. rewrite !lookup_zip_with.
    destruct (columns df !! p) as [l|]; [|done]. simpl.
    destruct (r !! p) as [c|]; [|done]. simpl.
    destruct (raises l); [done|]. by rewrite astype_str_idemp.
Qed.

Lemma fix_dataframe_arrow_stringifies_witness :
  let out := fix_dataframe_arrow (Text "nan") (λ l, bool_decide (l = "Sales"))
               sales_table in
  out =
    mkDataFrame (columns sales_table)
      ((λ r, zip_with (λ l c, if bool_decide (l = "Sales") then c
                              else astype_str (Text "nan") c)
                      (columns sales_table) r) <$> rows sales_table) ∧
  well_formed out ∧
  (Forall (λ r, NaN ∉ r) (rows sales_table) → out = sales_table) ∧
  fix_dataframe_arrow (Text "nan") (λ l, bool_decide (l = "Sales")) out = out.
Proof.
  apply (fix_dataframe_arrow_stringifies (Text "nan") (λ l, bool_decide (l = "Sales"))
           sales_table).
  unfold well_formed. simpl. repeat constructor.
Defined.

(** ** The session and the runs of the script (lines 9-20 and 88-153) *)

Section Session.

Lemma foldl_delete_lookup (ks : list string) : ∀ (m : gmap string session_value) k,
  foldl (λ m key, delete key m) m ks !! k = if decide (k ∈ ks) then None else m !! k.
Proof.
  induction ks as [|a ks IH]; intros m k; simpl; [done|].
  rewrite IH. destruct (decide (k ∈ ks)) as [Hin|Hout].
  - rewrite decide_True; [done|]. by apply list_elem_of_further.
  - destruct (decide (k = a)) as [->|Hne].
    + rewrite lookup_delete_eq. rewrite decide_True; [done|]. apply list_elem_of_here.
    + rewrite lookup_delete_ne by done. rewrite decide_False; [done|].
      by intros [?|?]%elem_of_cons.
Qed.

(** Lines 17-19 leave the uploader key alone in the session. *)
Lemma start_over_singleton now ss :
  start_over now ss = {["uploader_key" := SStr ("uploader_" +:+ now)]}.
Proof.
  unfold start_over.
  replace (foldl (λ m key, delete key m) ss (elements (dom ss)))
    with (∅ : gmap string session_value); [done|].
  apply map_eq. intros k. rewrite lookup_empty, foldl_delete_lookup.
  destruct (decide (k ∈ elements (dom ss))) as [|Hout]; [done|].
  symmetry. apply not_elem_of_dom. by rewrite <- elem_of_elements.
Qed.

Lemma lookup_done_flag_setup ss :
  lookup_done_flag (session_setup ss) = lookup_done_flag ss.
Proof.
  unfold lookup_done_flag, session_setup.
  destruct (ss !! "uploader_key") eqn:Hu.
  - destruct (ss !! "lookup_done") eqn:Hl; [by rewrite Hl|].
    by rewrite lookup_insert_eq.
  - rewrite lookup_insert_ne by done.
    destruct (ss !! "lookup_done") eqn:Hl.
    + by rewrite lookup_insert_ne, Hl.
    + by rewrite lookup_insert_eq.
Qed.

Lemma lookup_done_flag_set ss :
  lookup_done_flag (<["lookup_done" := SBool true]> ss) = true.
Proof. unfold lookup_done_flag. by rewrite lookup_insert_eq. Qed.

End Session.

Section Runs.

Context {bytes : Type} (to_excel to_csv : DataFrame → bytes)
        (after_preview : DataFrame → DataFrame).

Local Abbreviation run := (run_script bytes to_excel to_csv after_preview).
Local Abbreviation download := (generate_download bytes to_excel to_csv).

(** The session and the table the mapping section leaves. *)
Lemma mapping_section_flag w merged ss msgs merged' ss' msgs' :
  mapping_section w merged ss msgs = (merged', ss', msgs') →
  (lookup_done_flag ss = true → lookup_done_flag ss' = true) ∧
  (lookup_clicked w = false →
   merged' = merged ∧ ss' = ss) ∧
  (lookup_done_flag ss = false → lookup_done_flag ss' = true →
   lookup_clicked w = true ∧ is_Some (mapping_upload w)) ∧
  ss' !! "uploader_key" = ss !! "uploader_key".
Proof.
  unfold mapping_section. intros H.
  destruct (mapping_upload w) as [file|]; cycle 1.
  { injection H as <- <- <-. repeat split; try done; congruence. }
  destruct (load_mapping file) as [d|map_df].
  { injection H as <- <- <-. repeat split; try done; congruence. }
  destruct (lookup_clicked w).
  - injection H as <- <- <-.
    destruct (lookup_done (perform_lookup merged map_df (lookup_choice w))).
    + rewrite lookup_done_flag_set, lookup_insert_ne by done.
      repeat split; try done; by eexists.
    + repeat split; try done; congruence.
  - injection H as <- <- <-. repeat split; try done; congruence.
Qed.

(** A run that is not a Start Over, in terms of its mapping section. *)
Lemma run_rendered ss w :
  start_over_clicked w = false →
  ∀ st, merge_files (files_uploaded w) = Some st →
  run ss w =
    if pd.empty (merged_df st) then
      Rendered bytes (session_setup ss)
        (mkPage bytes (messages st) None
           (if lookup_done_flag ss then
              Some (download (merged_df st) (lookup_filename w) (lookup_format w))
            else None)
           (merged_df st))
    else
      let out := mapping_section w (after_preview (merged_df st))
                   (session_setup ss) (messages st) in
      Rendered bytes out.1.2
        (mkPage bytes out.2
           (Some (download (after_preview (merged_df st))
                    (merged_filename w) (merged_format w)))
           (if lookup_done_flag out.1.2 then
              Some (download out.1.1 (lookup_filename w) (lookup_format w))
            else None)
           out.1.1).
Proof.
  intros Hso st Hst. unfold run_script. rewrite Hso, Hst.
  destruct (pd.empty (merged_df st)).
  - by rewrite lookup_done_flag_setup.
  - simpl. by destruct (mapping_section _ _ _ _) as [[? ?] ?].
Qed.

End Runs.

(** X5. A run in which Start Over is pressed ends in a rerun whose session
    holds the uploader key of the click and nothing else, whatever was
    uploaded or stored before; and in the run that follows, as long as the
    lookup button is not pressed, the lookup flag is off and no lookup
    download is offered. *)
Theorem start_over_resets {bytes : Type} (to_excel to_csv : DataFrame → bytes)
    (after_preview : DataFrame → DataFrame)
    (ss : gmap string session_value) (w : widgets) :
  start_over_clicked w = true →
  let fresh : gmap string session_value :=
    {["uploader_key" := SStr ("uploader_" +:+ clicked_at w)]} in
  run_script bytes to_excel to_csv after_preview ss w = Rerun bytes fresh ∧
  ∀ w' ss' p,
    run_script bytes to_excel to_csv after_preview fresh w' = Rendered bytes ss' p →
    lookup_clicked w' = false →
    lookup_done_flag ss' = false ∧ lookup_download bytes p = None ∧
    ss' !! "uploader_key" = Some (SStr ("uploader_" +:+ clicked_at w)).
Proof.
  intros Hso fresh. split.
  { unfold run_script. rewrite Hso. by rewrite start_over_singleton. }
  intros w' ss' p Hrun Hclick.
  assert (Hflag : lookup_done_flag fresh = false).
  { unfold lookup_done_flag, fresh. by rewrite lookup_singleton_ne. }
  assert (Hkey : session_setup fresh !! "uploader_key" =
                 Some (SStr ("uploader_" +:+ clicked_at w))).
  { unfold session_setup, fresh. rewrite lookup_singleton_eq.
    rewrite lookup_singleton_ne by done.
    rewrite lookup_insert_ne by done. by rewrite lookup_singleton_eq. }
  destruct (start_over_clicked w') eqn:Hso'.
  { unfold run_script in Hrun. by rewrite Hso' in Hrun. }
  destruct (merge_files (files_uploaded w')) as [st|] eqn:Hst.
  2:{ unfold run_script in Hrun. by rewrite Hso', Hst in Hrun. }
  rewrite (run_rendered _ _ _ _ _ Hso' st Hst) in Hrun.
  destruct (pd.empty (merged_df st)).
  - injection Hrun as <- <-. simpl. rewrite Hflag.
    by rewrite lookup_done_flag_setup.
  - destruct (mapping_section w' (after_preview (merged_df st))
                (session_setup fresh) (messages st)) as [[m' s'] msgs'] eqn:Hmap.
    simpl in Hrun. injection Hrun as <- <-. simpl.
    apply mapping_section_flag in Hmap as (_ & Hsame & _ & _).
    destruct (Hsame Hclick) as [-> ->].
    rewrite lookup_done_flag_setup, Hflag. done.
Qed.

Lemma start_over_resets_witness :
  let w := mkWidgets true "1730000000.5" [other_columns_file] "merged_file" "xlsx"
             None (name_request Map) false "after_lookup" "xlsx" in
  let fresh : gmap string session_value :=
    {["uploader_key" := SStr "uploader_1730000000.5"]} in
  run_script DataFrame id id id session_after_lookup w = Rerun DataFrame fresh ∧
  ∀ w' ss' p,
    run_script DataFrame id id id fresh w' = Rendered DataFrame ss' p →
    lookup_clicked w' = false →
    lookup_done_flag ss' = false ∧ lookup_download DataFrame p = None ∧
    ss' !! "uploader_key" = Some (SStr "uploader_1730000000.5").
Proof.
  intros w fresh.
  apply (start_over_resets (bytes := DataFrame) id id id session_after_lookup w).
  reflexivity.
Defined.

(** X6. The download offered after a lookup is written from the table of
    the current run.  In a run in which neither Start Over nor the lookup
    button is pressed, while the session still holds the lookup flag of an
    earlier run, the merge loop builds the table again, no lookup step
    touches it, and the file offered as the lookup download is written from
    that table: the one the merged download is written from. *)
Theorem lookup_download_without_lookup {bytes : Type}
    (to_excel to_csv : DataFrame → bytes) (after_preview : DataFrame → DataFrame)
    (ss : gmap string session_value) (w : widgets) (st : merge_state) :
  start_over_clicked w = false →
  lookup_clicked w = false →
  lookup_done_flag ss = true →
  merge_files (files_uploaded w) = Some st →
  let table := if pd.empty (merged_df st) then merged_df st
               else after_preview (merged_df st) in
  ∃ ss' p,
    run_script bytes to_excel to_csv after_preview ss w = Rendered bytes ss' p ∧
    lookup_done_flag ss' = true ∧
    page_merged_df bytes p = table ∧
    lookup_download bytes p =
      Some (generate_download bytes to_excel to_csv table
              (lookup_filename w) (lookup_format w)) ∧
    (pd.empty (merged_df st) = false →
     merged_download bytes p =
       Some (generate_download bytes to_excel to_csv table
               (merged_filename w) (merged_format w))).
Proof.
  intros Hso Hclick Hflag Hst table.
  rewrite (run_rendered _ _ _ _ _ Hso st Hst). subst table.
  destruct (pd.empty (merged_df st)).
  - eexists _, _. split; [done|]. simpl.
    rewrite lookup_done_flag_setup, Hflag. done.
  - destruct (mapping_section w (after_preview (merged_df st))
                (session_setup ss) (messages st)) as [[m' s'] msgs'] eqn:Hmap.
    simpl. eexists _, _. split; [done|]. simpl.
    apply mapping_section_flag in Hmap as (_ & Hsame & _ & _).
    destruct (Hsame Hclick) as [-> ->].
    rewrite lookup_done_flag_setup, Hflag. done.
Qed.

Lemma lookup_download_without_lookup_witness :
  let w := idle_widgets [other_columns_file] in
  let table := mkDataFrame ["b"] [[Text "1"]; [Text "2"]] in
  ∃ ss' p,
    run_script DataFrame id id id session_after_lookup w = Rendered DataFrame ss' p ∧
    lookup_done_flag ss' = true ∧
    page_merged_df DataFrame p = table ∧
    lookup_download DataFrame p =
      Some (generate_download DataFrame id id table "after_lookup" "xlsx") ∧
    (pd.empty table = false →
     merged_download DataFrame p =
       Some (generate_download DataFrame id id table "merged_file" "xlsx")).
Proof.
  intros w table.
  apply (lookup_download_without_lookup (bytes := DataFrame) id id id
           session_after_lookup w (mkMergeState table [])); reflexivity.
Defined.

(** X7. A run that renders the page never turns the lookup flag off; it
    turns it on only when the lookup button is pressed with a mapping file
    given and a merged table that is not empty; the lookup download is
    offered exactly when the flag is on at the end of the run; and the
    uploader key is the one the run started with, or the default. *)
Theorem lookup_flag_across_a_run {bytes : Type}
    (to_excel to_csv : DataFrame → bytes) (after_preview : DataFrame → DataFrame)
    (ss ss' : gmap string session_value) (w : widgets) (p : page bytes) :
  run_script bytes to_excel to_csv after_preview ss w = Rendered bytes ss' p →
  (lookup_done_flag ss = true → lookup_done_flag ss' = true) ∧
  (lookup_done_flag ss = false → lookup_done_flag ss' = true →
   lookup_clicked w = true ∧ is_Some (mapping_upload w) ∧
   ∃ st, merge_files (files_uploaded w) = Some st ∧ pd.empty (merged_df st) = false) ∧
  (is_Some (lookup_download bytes p) ↔ lookup_done_flag ss' = true) ∧
  ss' !! "uploader_key" = session_setup ss !! "uploader_key".
Proof.
  intros Hrun.
  destruct (start_over_clicked w) eqn:Hso.
  { unfold run_script in Hrun. by rewrite Hso in Hrun. }
  destruct (merge_files (files_uploaded w)) as [st|] eqn:Hst.
  2:{ unfold run_script in Hrun. by rewrite Hso, Hst in Hrun. }
  rewrite (run_rendered _ _ _ _ _ Hso st Hst) in Hrun.
  destruct (pd.empty (merged_df st)) eqn:Hempty.
  - injection Hrun as <- <-. simpl. rewrite lookup_done_flag_setup.
    split; [done|]. split; [congruence|]. split; [|done].
    destruct (lookup_done_flag ss); split; try done; by intros [? ?].
  - destruct (mapping_section w (after_preview (merged_df st))
                (session_setup ss) (messages st)) as [[m' s'] msgs'] eqn:Hmap.
    simpl in Hrun. injection Hrun as <- <-. simpl.
    apply mapping_section_flag in Hmap as (Hkeep & _ & Hset & Hkey).
    rewrite lookup_done_flag_setup in Hkeep, Hset.
    split; [done|]. split.
    { intros Hoff Hon. destruct (Hset Hoff Hon) as [? ?]. eauto. }
    split; [|done].
    destruct (lookup_done_flag s'); split; try done; by intros [? ?].
Qed.

Lemma lookup_flag_across_a_run_witness :
  let w := idle_widgets [other_columns_file] in
  let table := mkDataFrame ["b"] [[Text "1"]; [Text "2"]] in
  let ss' := session_after_lookup in
  let p := mkPage DataFrame []
             (Some (generate_download DataFrame id id table "merged_file" "xlsx"))
             (Some (generate_download DataFrame id id table "after_lookup" "xlsx"))
             table in
  (lookup_done_flag session_after_lookup = true → lookup_done_flag ss' = true) ∧
  (lookup_done_flag session_after_lookup = false → lookup_done_flag ss' = true →
   lookup_clicked w = true ∧ is_Some (mapping_upload w) ∧
   ∃ st, merge_files (files_uploaded w) = Some st ∧ pd.empty (merged_df st) = false) ∧
  (is_Some (lookup_download DataFrame p) ↔ lookup_done_flag ss' = true) ∧
  ss' !! "uploader_key" = session_setup session_after_lookup !! "uploader_key".
Proof.
  intros w table ss' p.
  apply (lookup_flag_across_a_run (bytes := DataFrame) id id id
           session_after_lookup ss' w p).
  reflexivity.
Defined.

(** ** The merge loop over any number of files (lines 63-86) *)

Section MergeMany.

Lemma load_input_later idx file : 0 < idx → load_input idx file = load_input 1 file.
Proof. intros Hidx. unfold load_input. by destruct idx; [lia|]. Qed.

(** The loop from a table that has rows and columns. *)
Lemma merge_loop_later files : ∀ idx st,
  0 < idx → pd.empty (merged_df st) = false →
  merge_loop idx files st =
    Some (mkMergeState
            (mkDataFrame (columns (merged_df st))
               (rows (merged_df st) ++
                (files ≫= rows_added (columns (merged_df st)))))
            (messages st ++ omap (message_left (columns (merged_df st))) files)).
Proof.
  induction files as [|f files IH]; intros idx [acc msgs] Hidx Hne; simpl in *.
  { rewrite !app_nil_r. by destruct acc. }
  unfold merge_step, rows_added, message_left, later_file.
  rewrite (load_input_later idx f Hidx).
  destruct (load_input 1 f) as [d|df] eqn:Hload; simpl.
  - rewrite IH by (done || lia). simpl. by rewrite <- app_assoc.
  - unfold schema_mismatch. rewrite Hne. simpl.
    destruct (decide (columns df = columns acc)) as [Heq|Hneq].
    + rewrite bool_decide_eq_true_2 by done. simpl.
      apply empty_false in Hne as [Hc Hr].
      rewrite concat_same_columns by done. simpl.
      rewrite IH; [|lia|]; simpl.
      * by rewrite <- app_assoc.
      * apply empty_false. simpl. split; [done|]. by destruct (rows acc).
    + rewrite bool_decide_eq_false_2 by done. simpl.
      rewrite IH by (done || lia). simpl. by rewrite <- app_assoc.
Qed.

(** The labels of the accumulator stay pairwise distinct, and the loop
    returns, when those of every table it loads are. *)
Lemma merge_loop_NoDup files : ∀ idx st,
  NoDup (columns (merged_df st)) →
  Forall (λ f, ∀ t, parsed f = Some t →
               NoDup (normalize_input_columns (columns t))) files →
  ∃ st', merge_loop idx files st = Some st' ∧ NoDup (columns (merged_df st')).
Proof.
  induction files as [|f files IH]; intros idx st Hnd Hfiles; simpl.
  { eauto. }
  apply Forall_cons in Hfiles as [Hf Hfiles].
  unfold merge_step.
  destruct (load_input idx f) as [d|df] eqn:Hload; simpl.
  { by apply IH. }
  destruct (schema_mismatch (merged_df st) df); simpl.
  { by apply IH. }
  assert (Hdf : NoDup (columns df)).
  { apply load_input_inr in Hload as (t & _ & Hp & -> & _). by apply Hf. }
  unfold pd.concat.
  destruct (pd.no_axes (merged_df st)); simpl; [by apply IH|].
  destruct (pd.no_axes df); simpl; [by apply IH|].
  destruct (decide (columns (merged_df st) = columns df)); simpl; [by apply IH|].
  rewrite decide_True by done. simpl. apply IH; [|done]. simpl.
  unfold pd.union_labels. apply NoDup_app. split; [done|]. split.
  - intros c Hc [Hout _]%list_elem_of_filter. done.
  - by apply NoDup_filter.
Qed.

(** The rows of the accumulator stay aligned with its labels when those of
    every table read are. *)
Lemma merge_loop_well_formed files : ∀ idx st st',
  well_formed (merged_df st) →
  Forall (λ f, ∀ t, parsed f = Some t → well_formed t) files →
  merge_loop idx files st = Some st' →
  well_formed (merged_df st').
Proof.
  induction files as [|f files IH]; intros idx st st' Hwf Hfiles; simpl.
  { by intros [= <-]. }
  apply Forall_cons in Hfiles as [Hf Hfiles].
  unfold merge_step.
  destruct (load_input idx f) as [d|df] eqn:Hload; simpl.
  { by apply IH. }
  destruct (schema_mismatch (merged_df st) df); simpl.
  { by apply IH. }
  assert (Hdf : well_formed df).
  { apply load_input_inr in Hload as (t & _ & Hp & Hc & Hr).
    specialize (Hf t Hp). unfold well_formed in *. rewrite Hc, Hr.
    unfold normalize_input_columns. rewrite length_fmap.
    destruct (decide (idx = 0)); [done|]. by apply Forall_drop. }
  unfold pd.concat.
  destruct (pd.no_axes (merged_df st)); simpl; [by apply IH|].
  destruct (pd.no_axes df); simpl; [by apply IH|].
  destruct (decide (columns (merged_df st) = columns df)) as [Heq|Hneq]; simpl.
  { apply IH; [|done]. unfold well_formed in *. simpl.
    apply Forall_app. split; [done|]. by rewrite Heq. }
  destruct (decide (NoDup (columns (merged_df st)) ∧ NoDup (columns df)));
    simpl; [|done].
  apply IH; [|done]. unfold well_formed. simpl.
  apply Forall_app. split; apply Forall_fmap, Forall_forall; intros r _; simpl;
    unfold pd.reindex_row; by rewrite length_fmap.
Qed.


End MergeMany.

(** X8. When the first file is within the size limit and is read as a
    table that has a row and a column, merging it with any number of
    further files returns: the labels are those of the first table,
    blanked or trimmed; the rows are its rows, followed, file by file in
    upload order, by the rows without the first one of every further file
    that is within the limit, readable and carries the same labels; and
    every other file leaves its own message, in upload order. *)
Theorem merge_many_tables (first : UploadedFile) (A : DataFrame)
    (rest : list UploadedFile) :
  (size first ≤ size_limit)%Z → parsed first = Some A → pd.empty A = false →
  let cols := normalize_input_columns (columns A) in
  merge_files (first :: rest) =
    Some (mkMergeState
            (mkDataFrame cols (rows A ++ (rest ≫= rows_added cols)))
            (omap (message_left cols) rest)).
Proof.
  intros Hsz Hp HA cols. unfold merge_files. cbn [merge_loop].
  unfold merge_step. rewrite (load_input_parsed 0 _ A) by done. simpl.
  rewrite merge_loop_later; [done|lia|].
  simpl. apply empty_false in HA as [Hc Hr]. apply empty_false. simpl.
  split; [|done]. unfold normalize_input_columns. by destruct (columns A).
Qed.

Lemma merge_many_tables_witness :
  merge_files [mkFile "jan.csv" 40 (Some sales_jan); other_columns_file;
               oversized_file; mkFile "feb.csv" 40 (Some sales_feb)] =
    Some (mkMergeState
            (mkDataFrame ["ID"; "Amount"]
               [[Text "a1"; Text "10"]; [Text "b2"; Text "20"]; [Text "c3"; Text "30"]])
            [SchemaMismatch "b.csv"; FileTooLarge "big.csv"]).
Proof.
  refine (merge_many_tables (mkFile "jan.csv" 40 (Some sales_jan)) sales_jan
            [other_columns_file; oversized_file; mkFile "feb.csv" 40 (Some sales_feb)]
            _ eq_refl eq_refl).
  vm_compute. discriminate.
Defined.

(** X9. The merge returns, that is line 86 does not raise, whenever the
    labels of every table read are pairwise distinct after the blank or
    trim rule of line 78; the labels of the merged table are then pairwise
    distinct too. *)
Theorem merge_returns_for_distinct_labels (files : list UploadedFile) :
  Forall (λ f, ∀ t, parsed f = Some t →
               NoDup (normalize_input_columns (columns t))) files →
  ∃ st, merge_files files = Some st ∧ NoDup (columns (merged_df st)).
Proof.
  intros Hfiles. apply merge_loop_NoDup; [|done]. simpl. constructor.
Qed.

Lemma merge_returns_for_distinct_labels_witness :
  ∃ st, merge_files [header_only_file; other_columns_file; oversized_file] = Some st ∧
        NoDup (columns (merged_df st)).
Proof.
  apply (merge_returns_for_distinct_labels
           [header_only_file; other_columns_file; oversized_file]).
  repeat (apply Forall_cons; split; [intros t [= <-]; vm_compute|]).
  - apply NoDup_singleton.
  - apply NoDup_singleton.
  - apply NoDup_singleton.
  - constructor.
Defined.

(** X10. When every row of every table read has one cell per label, so
    has every row of the merged table, also where [pd.concat] unites
    differing labels and pads the rows. *)
Theorem merge_keeps_rows_aligned (files : list UploadedFile) (st : merge_state) :
  Forall (λ f, ∀ t, parsed f = Some t → well_formed t) files →
  merge_files files = Some st →
  well_formed (merged_df st).
Proof.
  intros Hfiles. apply merge_loop_well_formed; [|done]. constructor.
Qed.

Lemma merge_keeps_rows_aligned_witness :
  well_formed (mkDataFrame ["a"; "b"] [[NaN; Text "2"]]).
Proof.
  apply (merge_keeps_rows_aligned [header_only_file; other_columns_file]
           (mkMergeState (mkDataFrame ["a"; "b"] [[NaN; Text "2"]]) [])).
  - repeat (apply Forall_cons; split; [intros t [= <-]; unfold well_formed; simpl|]);
      repeat constructor.
  - reflexivity.
Defined.



(** ** The lookup loop, cell by cell (lines 122-139) *)

Section ExactLookup.

Variables (T M : DataFrame) (req : lookup_request).
Hypothesis Hcontract : lookup_contract T M req.

Local Abbreviation kT := (key_col_main req).
Local Abbreviation kM := (key_col_map req).
Local Abbreviation V := (value_cols_to_map req).
Local Abbreviation T1 := (normalized T (key_col_main req)).
Local Abbreviation M1 := (normalized M (key_col_map req)).
Local Abbreviation found :=
  (λ (t : list cell) (v : string),
     mapped_value M1 (key_col_map req) v (row_get (key_col_main req) (columns T) t)).

(** The frame after the value columns [P]. *)
Local Abbreviation frame :=
  (λ P : list string,
     mkDataFrame (columns T ++ (new_col_name <$> P))
       ((λ t, t ++ (found t <$> P)) <$> rows T1)).

(** [dict(zip(keys, values))] read at a key: the value of the last pair
    with that key. *)
Lemma dict_zip_last (ms : list (list cell)) (kf vf : list cell → cell) (k : cell) :
  pd.dict_zip (kf <$> ms) (vf <$> ms) !! k = vf <$> last (filter (λ m, kf m = k) ms).
Proof.
  unfold pd.dict_zip.
  assert (Hgen : ∀ (d : gmap cell cell),
            foldl (λ d kv, <[kv.1 := kv.2]> d) d (zip (kf <$> ms) (vf <$> ms)) !! k =
            match last (filter (λ m, kf m = k) ms) with
            | Some m => Some (vf m)
            | None => d !! k
            end).
  { induction ms as [|m ms IH]; intros d; simpl; [done|].
    rewrite IH. destruct (decide (kf m = k)) as [Hk|Hk].
    - rewrite filter_cons_True by done. rewrite last_cons.
      destruct (last (filter (λ m0, kf m0 = k) ms)); [done|].
      by rewrite <- Hk, lookup_insert_eq.
    - rewrite filter_cons_False by done.
      destruct (last (filter (λ m0, kf m0 = k) ms)); [done|].
      by rewrite lookup_insert_ne. }
  rewrite Hgen. by destruct (last _).
Qed.

Lemma row_get_self (cs : list string) : ∀ e,
  NoDup cs → length e = length cs → (λ c, row_get c cs e) <$> cs = e.
Proof.
  induction cs as [|c cs IH]; intros [|x e] Hnd Hlen; simpl in *; try done.
  apply NoDup_cons in Hnd as [Hc Hnd].
  rewrite decide_True by done. f_equal.
  transitivity ((λ c, row_get c cs e) <$> cs); [|apply IH; [done|lia]].
  apply list_fmap_ext. intros k c' Hk. apply list_elem_of_lookup_2 in Hk.
  rewrite decide_False; [done|]. by intros ->.
Qed.

Lemma contract_key_position :
  ∃ i, positions kT (columns T) = [i] ∧ columns T !! i = Some kT.
Proof.
  destruct Hcontract as (_ & _ & HkT & _). by apply once_positions_lookup.
Qed.

Lemma contract_fresh P v :
  (∀ p, p ∈ P → p ∈ V) → v ∈ V → v ∉ P →
  new_col_name v ∉ columns T ++ (new_col_name <$> P).
Proof.
  intros HP Hv HvP. destruct Hcontract as (_ & _ & _ & _ & _ & _ & HV).
  apply not_elem_of_app. split; [by apply HV|].
  intros (p & Heq & Hp)%list_elem_of_fmap. apply (inj new_col_name) in Heq. by subst.
Qed.

Lemma contract_row_length t : t ∈ rows T1 → length t = length (columns T).
Proof.
  destruct Hcontract as (_ & Hwf & _).
  simpl. intros (r & -> & Hr)%list_elem_of_fmap. rewrite update_under_length.
  unfold well_formed in Hwf. rewrite Forall_forall in Hwf. by apply Hwf.
Qed.

(** The key label names one column of the frame, the one it named before. *)
Lemma frame_key_position P i :
  (∀ p, p ∈ P → p ∈ V) → positions kT (columns T) = [i] →
  unique_pos kT (columns T ++ (new_col_name <$> P)) = Some i.
Proof.
  intros HP Hpi. destruct Hcontract as (_ & _ & HkT & _ & _ & _ & HV).
  unfold unique_pos, positions. rewrite positions_from_app.
  fold (positions kT (columns T)). rewrite Hpi.
  replace (positions_from _ kT (new_col_name <$> P)) with (@nil nat); [done|].
  symmetry. apply positions_from_nil.
  intros (p & Heq & Hp)%list_elem_of_fmap.
  destruct (HV p (HP p Hp)) as (_ & _ & Hn). apply Hn. rewrite <- Heq.
  by apply once_elem.
Qed.

(** One pass of the loop at line 122 under the map method. *)
Lemma map_step_exact P v :
  method req = Map →
  (∀ p, p ∈ P → p ∈ V) → v ∈ V → v ∉ P →
  lookup_step req (mkLookupState (frame P) M1 (new_col_name <$> P) [] false) v =
    mkLookupState (frame (P ++ [v])) M1 (new_col_name <$> (P ++ [v])) [] false.
Proof.
  intros Hmethod HP Hv HvP.
  pose proof (contract_fresh P v HP Hv HvP) as Hfresh.
  destruct contract_key_position as (i & Hpi & Hli).
  pose proof Hcontract as (_ & Hwf & HkT & HndM & HkM & HndV & HV).
  destruct (HV v Hv) as (HvM & Hvk & HvT).
  destruct (once_positions_lookup kM (columns M) (NoDup_once _ _ HndM HkM))
    as (j & Hpj & Hlj).
  destruct (once_positions_lookup v (columns M) (NoDup_once _ _ HndM HvM))
    as (jv & Hpv & Hlv).
  pose proof (frame_key_position P i HP Hpi) as Hkey.
  unfold lookup_step. rewrite Hmethod.
  unfold map_branch, pd.iter_col, pd.series. cbn [lk_merged_df lk_map_df columns rows
    normalized].
  rewrite Hpj, Hpv, Hkey. cbn [mbind option_bind].
  unfold pd.setitem. cbn [columns rows]. rewrite decide_False by done.
  unfold mapping_ok. cbn [lk_map_df mapped_columns lk_messages lookup_done].
  rewrite fmap_app. f_equal. f_equal; [by rewrite app_assoc|].
  set (ms := update_under kM normalize_key (columns M) <$> rows M).
  set (ts := update_under kT normalize_key (columns T) <$> rows T).
  set (rs := (λ t, t ++ _) <$> ts).
  rewrite <- !list_fmap_compose, zip_with_fmap_same. subst rs.
  rewrite <- list_fmap_compose.
  apply list_fmap_ext. intros k t Ht. apply list_elem_of_lookup_2 in Ht. simpl.
  rewrite <- app_assoc, fmap_app. f_equal. f_equal. simpl. f_equal.
  assert (Hlen : length t = length (columns T)) by (by apply contract_row_length).
  rewrite cell_at_app_l by (rewrite Hlen; by eapply lookup_lt_Some).
  assert (Hcell : cell_at i t = row_get kT (columns T) t).
  { rewrite <- (row_get_positions kT (columns T) t 0 i Hpi). by rewrite Nat.sub_0_r. }
  rewrite Hcell. unfold mapped_value, pd.map_cell. f_equal.
  rewrite (list_fmap_ext (cell_at j) (row_get kM (columns M)) ms); cycle 1.
  { intros ? m _. rewrite <- (row_get_positions kM (columns M) m 0 j Hpj).
    by rewrite Nat.sub_0_r. }
  rewrite (list_fmap_ext (cell_at jv) (row_get v (columns M)) ms); cycle 1.
  { intros ? m _. rewrite <- (row_get_positions v (columns M) m 0 jv Hpv).
    by rewrite Nat.sub_0_r. }
  rewrite dict_zip_last. by destruct (last _).
Qed.

Lemma filter_fmap {A B} (f : A → B) (P : B → Prop) `{∀ y, Decision (P y)}
    (l : list A) :
  filter P (f <$> l) = f <$> filter (λ x, P (f x)) l.
Proof.
  induction l as [|a l IH]; [done|]. rewrite fmap_cons.
  destruct (decide (P (f a))).
  - rewrite !filter_cons_True by done. by rewrite fmap_cons, IH.
  - by rewrite !filter_cons_False by done.
Qed.

(** Among rows with pairwise distinct keys at most one has a given key. *)
Lemma filter_unique_key (kf : list cell → cell) (ms : list (list cell)) (k : cell) :
  NoDup (kf <$> ms) →
  filter (λ m, kf m = k) ms = [] ∨ ∃ m, filter (λ m, kf m = k) ms = [m].
Proof.
  induction ms as [|m ms IH]; intros Hnd; [by left|].
  rewrite fmap_cons in Hnd. apply NoDup_cons in Hnd as [Hm Hnd].
  destruct (decide (kf m = k)) as [Hk|Hk].
  - right. exists m. rewrite filter_cons_True by done. f_equal.
    apply filter_none. intros m' Hm' Hk'. apply Hm.
    apply list_elem_of_fmap. exists m'. split; [congruence|done].
  - rewrite filter_cons_False by done. by apply IH.
Qed.

Lemma bind_singletons {A B} (F : A → list B) (g : A → B) (l : list A) :
  (∀ x, x ∈ l → F x = [g x]) → l ≫= F = g <$> l.
Proof.
  induction l as [|a l IH]; intros HF; [done|].
  rewrite bind_cons, fmap_cons, (HF a) by apply list_elem_of_here. simpl. f_equal.
  apply IH. intros x Hx. apply HF. by apply list_elem_of_further.
Qed.

(** One pass of the loop at line 122 under the merge method, when both
    keys carry one label and no two rows of the mapping table have the same
    normalized key: lines 126-128 add what lines 130-131 would. *)
Lemma merge_step_exact P v :
  method req = Merge → kT = kM →
  NoDup (row_get kM (columns M) <$> rows M1) →
  (∀ p, p ∈ P → p ∈ V) → v ∈ V → v ∉ P →
  lookup_step req (mkLookupState (frame P) M1 (new_col_name <$> P) [] false) v =
    mkLookupState (frame (P ++ [v])) M1 (new_col_name <$> (P ++ [v])) [] false.
Proof.
  intros Hmethod Hsame Huniq HP Hv HvP.
  pose proof (contract_fresh P v HP Hv HvP) as Hfresh.
  destruct contract_key_position as (i & Hpi & Hli).
  pose proof Hcontract as (Hne & Hwf & HkT & HndM & HkM & HndV & HV).
  destruct (HV v Hv) as (HvM & Hvk & HvT).
  destruct (once_positions_lookup kM (columns M) (NoDup_once _ _ HndM HkM))
    as (j & Hpj & Hlj).
  destruct (once_positions_lookup v (columns M) (NoDup_once _ _ HndM HvM))
    as (jv & Hpv & Hlv).
  pose proof (frame_key_position P i HP Hpi) as Hkey.
  assert (Hnk : new_col_name v ≠ kM).
  { intros Heq. apply HvT. rewrite Heq, <- Hsame. by apply once_elem. }
  pose proof (select_rename_pair M1 kM v (new_col_name v) j jv Hpj Hlj Hpv Hlv Hvk)
    as Hpair.
  unfold lookup_step. rewrite Hmethod. unfold merge_branch.
  cbn [lk_merged_df lk_map_df].
  destruct (pd.select M1 [kM; v]) as [temp|]; [|discriminate].
  cbn [mbind option_bind] in Hpair |- *.
  apply (inj Some) in Hpair. rewrite Hpair. clear Hpair temp.
  set (ms := rows M1) in *.
  set (rows2 := (λ m, [cell_at j m; cell_at jv m]) <$> ms).
  set (new := new_col_name v) in *.
  assert (Hrows : rows (frame P) ≠ []).
  { apply empty_false in Hne as [_ Hr]. simpl. by destruct (rows T). }
  destruct (merge_key_value (frame P) rows2 kT kM new i Hkey Hnk Hfresh Hrows)
    as (ren & kr & _ & Hkr & Hres & Hsome).
  destruct Hkr as [(_ & -> & Hid)|(Hdiff & _)]; [|done].
  destruct Hres as [Hnone|Hres]; [by apply Hsome in Hnone|].
  rewrite Hres. clear Hres Hsome.
  unfold fill_not_matched. cbn [columns rows].
  rewrite decide_True; cycle 1.
  { rewrite !elem_of_app. right. right. apply list_elem_of_here. }
  unfold mapping_ok. cbn [lk_map_df mapped_columns lk_messages lookup_done].
  rewrite (list_fmap_ext ren id (columns T ++ (new_col_name <$> P)))
    by (intros; apply Hid).
  rewrite list_fmap_id, app_nil_l.
  f_equal; [|by rewrite fmap_app].
  f_equal; [by rewrite fmap_app, app_assoc|].
  set (x := λ l : list cell,
         match last (filter (λ m, cell_at j m = cell_at i l) ms) with
         | Some m => cell_at jv m
         | None => NaN
         end).
  rewrite (bind_singletons _ (λ l, l ++ [x l])); cycle 1.
  { intros l _. unfold rows2. rewrite filter_fmap. simpl.
    rewrite bool_decide_eq_true_2 by done. unfold x.
    change (filter (λ m, cell_at 0 [cell_at j m; cell_at jv m] = cell_at i l) ms)
      with (filter (λ m, cell_at j m = cell_at i l) ms).
    assert (Hu : NoDup (cell_at j <$> ms)).
    { rewrite <- (list_fmap_ext (row_get kM (columns M)) (cell_at j) ms); [done|].
      intros ? m _. rewrite <- (row_get_positions kM (columns M) m 0 j Hpj).
      by rewrite Nat.sub_0_r. }
    destruct (filter_unique_key (cell_at j) ms (cell_at i l) Hu) as [Hf|[m Hf]];
      by rewrite Hf. }
  rewrite <- !list_fmap_compose.
  apply list_fmap_ext. intros k t Ht. apply list_elem_of_lookup_2 in Ht. simpl.
  assert (Hlen : length t = length (columns T)) by (by apply contract_row_length).
  rewrite update_under_snoc; cycle 1.
  { done. }
  { by rewrite !length_app, !length_fmap, Hlen. }
  rewrite <- app_assoc, fmap_app. f_equal. f_equal. simpl. f_equal.
  unfold x. rewrite cell_at_app_l by (rewrite Hlen; by eapply lookup_lt_Some).
  assert (Hcell : cell_at i t = row_get kT (columns T) t).
  { rewrite <- (row_get_positions kT (columns T) t 0 i Hpi). by rewrite Nat.sub_0_r. }
  rewrite Hcell. unfold mapped_value. f_equal.
  rewrite (list_filter_iff (λ m, cell_at j m = row_get kT (columns T) t)
             (λ m, row_get kM (columns M) m = row_get kT (columns T) t)); cycle 1.
  { intros m. rewrite <- (row_get_positions kM (columns M) m 0 j Hpj).
    by rewrite Nat.sub_0_r. }
  fold ms. destruct (last _) as [m|]; [|done].
  pose proof (row_get_positions v (columns M) m 0 jv Hpv) as Hm.
  by rewrite Nat.sub_0_r in Hm.
Qed.

(** The cases in which every pass adds one cell per row. *)
Hypothesis Hcase :
  method req = Merge →
  kT = kM ∧ NoDup (row_get kM (columns M) <$> rows M1).

Lemma step_exact P v :
  (∀ p, p ∈ P → p ∈ V) → v ∈ V → v ∉ P →
  lookup_step req (mkLookupState (frame P) M1 (new_col_name <$> P) [] false) v =
    mkLookupState (frame (P ++ [v])) M1 (new_col_name <$> (P ++ [v])) [] false.
Proof.
  destruct (method req) eqn:Hm.
  - destruct (Hcase eq_refl) as [Hk Hu]. by apply merge_step_exact.
  - by apply map_step_exact.
Qed.

Lemma steps_exact vs : ∀ P,
  (∀ p, p ∈ P ++ vs → p ∈ V) → NoDup (P ++ vs) →
  foldl (lookup_step req) (mkLookupState (frame P) M1 (new_col_name <$> P) [] false) vs =
    mkLookupState (frame (P ++ vs)) M1 (new_col_name <$> (P ++ vs)) [] false.
Proof.
  induction vs as [|v vs IH]; intros P HP Hnd; simpl.
  - by rewrite app_nil_r.
  - replace (P ++ v :: vs) with ((P ++ [v]) ++ vs) in * by (by rewrite <- app_assoc).
    rewrite step_exact.
    + by apply IH.
    + intros p Hp. apply HP. rewrite elem_of_app. left. rewrite elem_of_app. by left.
    + apply HP. rewrite elem_of_app. left. rewrite elem_of_app. right.
      apply list_elem_of_here.
    + apply NoDup_app in Hnd as (Hnd & _ & _). apply NoDup_app in Hnd as (_ & Hd & _).
      intros Hin. apply (Hd v Hin). apply list_elem_of_here.
Qed.

(** The whole lookup in these cases. *)
Lemma lookup_exact :
  perform_lookup T M req =
    mkLookupState
      (mkDataFrame ((new_col_name <$> V) ++ columns T)
         ((λ t, (found t <$> V) ++ t) <$> rows T1))
      M1 (new_col_name <$> V) [] true.
Proof.
  pose proof Hcontract as (_ & Hwf & HkT & HndM & HkM & HndV & HV).
  assert (HNV : NoDup (new_col_name <$> V)) by (apply NoDup_fmap_2; [apply _|done]).
  assert (HVT : ∀ c, c ∈ new_col_name <$> V → c ∉ columns T).
  { intros c (v & -> & Hv)%list_elem_of_fmap. by apply HV. }
  unfold perform_lookup.
  rewrite (normalize_key_column_once T kT) by done.
  rewrite (normalize_key_column_once M kM) by (by apply NoDup_once).
  pose proof (steps_exact V []) as Hfold. unfold normalized in Hfold |- *.
  simpl in Hfold. rewrite app_nil_r in Hfold.
  replace ((λ t : list cell, t ++ []) <$>
           (update_under kT normalize_key (columns T) <$> rows T))
    with (update_under kT normalize_key (columns T) <$> rows T) in Hfold; cycle 1.
  { rewrite <- list_fmap_compose. apply list_fmap_ext. intros ? r _. simpl.
    by rewrite app_nil_r. }
  rewrite Hfold by done.
  cbn [mapped_columns lk_merged_df lk_messages].
  rewrite reorder_loop_spec; cycle 1.
  { by rewrite reverse_Permutation. }
  { intros c Hc. rewrite elem_of_reverse in Hc. cbn [columns].
    apply once_app_r; [by apply HVT|]. apply NoDup_once; done. }
  { unfold well_formed. cbn [columns rows]. apply Forall_fmap, Forall_forall.
    intros t Ht. simpl. rewrite !length_app, !length_fmap. f_equal.
    by apply contract_row_length. }
  cbn [columns rows]. rewrite reverse_involutive.
  assert (Hcols : filter (λ l, l ∉ reverse (new_col_name <$> V))
                    (columns T ++ (new_col_name <$> V)) = columns T).
  { rewrite filter_app, filter_all, filter_none; [by rewrite app_nil_r|..].
    - intros l Hl Hn. apply Hn. by rewrite elem_of_reverse.
    - intros l Hl Hin. rewrite elem_of_reverse in Hin. by apply (HVT l). }
  rewrite Hcols.
  assert (Hrows :
    (λ r, ((λ c, row_get c (columns T ++ (new_col_name <$> V)) r) <$> (new_col_name <$> V)) ++
          delete_all (reverse (new_col_name <$> V)) (columns T ++ (new_col_name <$> V)) r) <$>
      ((λ t, t ++ (found t <$> V)) <$> rows T1) =
    (λ t, (found t <$> V) ++ t) <$> rows T1).
  { rewrite <- list_fmap_compose. apply list_fmap_ext. intros k t Ht.
    apply list_elem_of_lookup_2 in Ht. simpl.
    assert (Hlen : length t = length (columns T)) by (by apply contract_row_length).
    assert (Hlen_e : length (found t <$> V) = length (new_col_name <$> V))
      by (by rewrite !length_fmap).
    f_equal.
    - transitivity ((λ c, row_get c (new_col_name <$> V) (found t <$> V))
                      <$> (new_col_name <$> V)); [|by apply row_get_self].
      apply list_fmap_ext. intros ? c Hc. apply list_elem_of_lookup_2 in Hc.
      apply row_get_app_r; [done|by apply HVT].
    - rewrite delete_all_app; [|done|].
      + rewrite (nil_length_inv (delete_all _ _ _)); [by rewrite app_nil_r|].
        rewrite delete_all_length by done.
        rewrite filter_none; [done|]. intros l Hl Hn. apply Hn.
        by rewrite elem_of_reverse.
      + intros c Hc. rewrite elem_of_reverse in Hc. by apply HVT. }
  unfold normalized in Hrows. simpl in Hrows. simpl. rewrite Hrows.
  rewrite decide_True; [done|].
  apply Forall_app. split.
  - apply Forall_forall. intros c Hc. apply elem_of_app. by left.
  - apply Forall_singleton. apply elem_of_app. right. by apply once_elem.
Qed.

End ExactLookup.

(** X12. The map method, under the contract of the lookup: the lookup
    completes without a message, the result has one row per row of the
    merged table, in the same order; each row is the [_mapped] cells, one
    per value column in selection order, followed by the row of the merged
    table with its key normalized; and the [_mapped] cell of value column
    [v] is the cell under [v] of the last row of the mapping table whose
    normalized key equals the row's normalized key, or "Not Matched" when
    there is no such row or that cell is missing. *)
Theorem map_lookup_table (T M : DataFrame) (req : lookup_request) :
  lookup_contract T M req → method req = Map →
  let M1 := normalized M (key_col_map req) in
  let T1 := normalized T (key_col_main req) in
  perform_lookup T M req =
    mkLookupState
      (mkDataFrame ((new_col_name <$> value_cols_to_map req) ++ columns T)
         ((λ t, ((λ v, mapped_value M1 (key_col_map req) v
                         (row_get (key_col_main req) (columns T) t))
                   <$> value_cols_to_map req) ++ t) <$> rows T1))
      M1 (new_col_name <$> value_cols_to_map req) [] true.
Proof.
  intros Hc Hm M1 T1. apply lookup_exact; [done|]. congruence.
Qed.

Lemma map_lookup_table_witness :
  perform_lookup sales_table regions_table (region_manager_request Map) =
    mkLookupState
      (mkDataFrame ["Region_mapped"; "Manager_mapped"; "ID"; "Sales"]
         [[Text "North"; Text "Ann"; Text "A1"; Text "10"];
          [Text "South"; Text "Not Matched"; Text "B2"; Text "20"];
          [Text "Not Matched"; Text "Not Matched"; Text "ZZ"; Text "30"]])
      regions_table ["Region_mapped"; "Manager_mapped"] [] true.
Proof.
  exact (map_lookup_table sales_table regions_table (region_manager_request Map)
           (sales_contract Map) eq_refl).
Defined.

(** X13. Under the contract of the lookup, when both keys carry the same
    label and no two rows of the mapping table have the same normalized
    key, the merge method and the map method give the same result: the
    same table, cell by cell, the same mapping table, the same list of
    mapped columns, no message. *)
Theorem merge_agrees_with_map (T M : DataFrame) (key : string) (V : list string) :
  lookup_contract T M (mkRequest key key V Merge) →
  NoDup (row_get key (columns M) <$> rows (normalized M key)) →
  perform_lookup T M (mkRequest key key V Merge) =
  perform_lookup T M (mkRequest key key V Map).
Proof.
  intros Hc Hu.
  rewrite (lookup_exact T M (mkRequest key key V Merge) Hc) by done.
  rewrite (lookup_exact T M (mkRequest key key V Map) Hc); [done|].
  intros [=].
Qed.

Lemma merge_agrees_with_map_witness :
  perform_lookup sales_table regions_table (region_manager_request Merge) =
  perform_lookup sales_table regions_table (region_manager_request Map).
Proof.
  apply (merge_agrees_with_map sales_table regions_table "ID" ["Region"; "Manager"]
           (sales_contract Merge)).
  apply (bool_decide_unpack _). vm_compute. exact I.
Defined.

(** ** The lookup on any tables (lines 116-146) *)

Section LookupLoop.

Variable req : lookup_request.

(** A pass of the loop at line 122 ends at line 133 or in the handler of
    line 135. *)
Lemma lookup_step_cases st v :
  ∃ merged, lookup_step req st v = mapping_ok v merged st ∨
            lookup_step req st v = mapping_failed v merged st.
Proof.
  unfold lookup_step. destruct (method req).
  - destruct (merge_branch _ _ _ _) as [merged|]; [|eauto].
    destruct (fill_not_matched _ _); eauto.
  - destruct (map_branch _ _ _ _); eauto.
Qed.

Lemma lookup_steps_account vs : ∀ st,
  ∃ oks fails,
    mapped_columns (foldl (lookup_step req) st vs) =
      mapped_columns st ++ (new_col_name <$> oks) ∧
    lk_messages (foldl (lookup_step req) st vs) =
      lk_messages st ++ (MappingFailed <$> fails) ∧
    oks `sublist_of` vs ∧ fails `sublist_of` vs ∧ oks ++ fails ≡ₚ vs ∧
    lookup_done (foldl (lookup_step req) st vs) = lookup_done st ∧
    lk_map_df (foldl (lookup_step req) st vs) = lk_map_df st.
Proof.
  induction vs as [|v vs IH]; intros st; simpl.
  { exists [], []. rewrite !app_nil_r. repeat split; done. }
  destruct (lookup_step_cases st v) as [merged [Hstep|Hstep]]; rewrite Hstep;
    destruct (IH (lookup_step req st v)) as (oks & fails & Hm & Hmsg & Ho & Hf & Hp & Hd & HM);
    rewrite Hstep in Hm, Hmsg, Hd, HM; simpl in Hm, Hmsg, Hd, HM.
  - exists (v :: oks), fails. rewrite Hm, Hmsg, <- app_assoc.
    repeat split; try done.
    + by apply sublist_skip.
    + by apply sublist_cons.
    + simpl. by rewrite Hp.
  - exists oks, (v :: fails). rewrite Hm, Hmsg, <- app_assoc.
    repeat split; try done.
    + by apply sublist_cons.
    + by apply sublist_skip.
    + rewrite <- Hp. symmetry. apply Permutation_middle.
Qed.

Lemma normalize_key_column_None df c :
  ¬ once c (columns df) → normalize_key_column df c = None.
Proof.
  intros Hno. unfold normalize_key_column, pd.series.
  destruct (unique_pos c (columns df)) as [i|] eqn:Hi; [|done].
  exfalso. apply Hno. apply once_unique_pos. eauto.
Qed.

End LookupLoop.

(** X14. What the lookup does with any tables and any request.  When the
    key label of the merged table names no column or several, nothing is
    changed and the one message is the mapping-file error; when it names
    one column but the key label of the mapping table does not, the key
    column of the merged table has been normalized and nothing else is
    done.  Otherwise the loop runs over every selected value column, and
    each one either yields its [_mapped] column or leaves its own failure
    message, never both, in selection order; the mapping table ends with
    its key column normalized; and the lookup either completes, or its
    messages end with the mapping-file error. *)
Theorem lookup_accounts_for_every_column (T M : DataFrame) (req : lookup_request) :
  let out := perform_lookup T M req in
  let kT := key_col_main req in
  let kM := key_col_map req in
  (¬ once kT (columns T) → out = lookup_aborted T M [] []) ∧
  (once kT (columns T) → ¬ once kM (columns M) →
   out = lookup_aborted (normalized T kT) M [] []) ∧
  (once kT (columns T) → once kM (columns M) →
   ∃ oks fails,
     oks `sublist_of` value_cols_to_map req ∧
     fails `sublist_of` value_cols_to_map req ∧
     oks ++ fails ≡ₚ value_cols_to_map req ∧
     mapped_columns out = new_col_name <$> oks ∧
     lk_map_df out = normalized M kM ∧
     (lk_messages out = MappingFailed <$> fails ∧ lookup_done out = true ∨
      lk_messages out = (MappingFailed <$> fails) ++ [MappingFileError])).
Proof.
  intros out kT kM. subst out kT kM. unfold perform_lookup. split; [|split].
  - intros Hno. by rewrite normalize_key_column_None.
  - intros HT HM. rewrite (normalize_key_column_once T) by done.
    by rewrite normalize_key_column_None.
  - intros HT HM.
    rewrite (normalize_key_column_once T) by done.
    rewrite (normalize_key_column_once M) by done.
    set (st0 := mkLookupState _ _ [] [] false).
    destruct (lookup_steps_account req (value_cols_to_map req) st0)
      as (oks & fails & Hm & Hmsg & Ho & Hf & Hp & _ & _).
    simpl in Hm, Hmsg. exists oks, fails.
    split; [done|]. split; [done|]. split; [done|].
    destruct (reorder_loop _ _) as [merged2 []]; simpl.
    + split; [done|]. split; [done|].
      destruct (decide _); [left|right]; by rewrite Hmsg.
    + split; [done|]. split; [done|]. right. by rewrite Hmsg.
Qed.

Lemma lookup_accounts_for_every_column_witness :
  ∃ oks fails,
    oks `sublist_of` ["Region"; "Manager"] ∧
    fails `sublist_of` ["Region"; "Manager"] ∧
    oks ++ fails ≡ₚ ["Region"; "Manager"] ∧
    mapped_columns (perform_lookup sales_table regions_table
                      (region_manager_request Merge)) = new_col_name <$> oks ∧
    lk_map_df (perform_lookup sales_table regions_table
                 (region_manager_request Merge)) = normalized regions_table "ID" ∧
    (lk_messages (perform_lookup sales_table regions_table
                    (region_manager_request Merge)) = MappingFailed <$> fails ∧
     lookup_done (perform_lookup sales_table regions_table
                    (region_manager_request Merge)) = true ∨
     lk_messages (perform_lookup sales_table regions_table
                    (region_manager_request Merge)) =
       (MappingFailed <$> fails) ++ [MappingFileError]).
Proof.
  apply (lookup_accounts_for_every_column sales_table regions_table
           (region_manager_request Merge)).
  - exists [], ["Sales"]. repeat split; apply (bool_decide_unpack _); exact I.
  - exists [], ["Region"; "Manager"]. repeat split; apply (bool_decide_unpack _); exact I.
Defined.

(** ** The merge method with one key label (lines 126-128) *)

Section ListBind.

Context {A B C : Type}.

Lemma bind_ext_in (f g : A → list B) (l : list A) :
  (∀ x, x ∈ l → f x = g x) → l ≫= f = l ≫= g.
Proof.
  induction l as [|a l IH]; intros Hfg; [done|].
  rewrite !bind_cons, (Hfg a) by apply list_elem_of_here. f_equal.
  apply IH. intros x Hx. apply Hfg. by apply list_elem_of_further.
Qed.

Lemma fmap_of_bind (h : B → C) (f : A → list B) (l : list A) :
  h <$> (l ≫= f) = l ≫= (λ x, h <$> f x).
Proof.
  induction l as [|a l IH]; [done|]. by rewrite !bind_cons, fmap_app, IH.
Qed.

Lemma bind_of_bind (f : A → list B) (g : B → list C) (l : list A) :
  (l ≫= f) ≫= g = l ≫= (λ x, f x ≫= g).
Proof.
  induction l as [|a l IH]; [done|]. by rewrite !bind_cons, bind_app, IH.
Qed.

Lemma bind_of_fmap (f : A → B) (g : B → list C) (l : list A) :
  (f <$> l) ≫= g = l ≫= (λ x, g (f x)).
Proof.
  induction l as [|a l IH]; [done|]. by rewrite fmap_cons, !bind_cons, IH.
Qed.

End ListBind.

Section MergeFanOut.

Variables (T M : DataFrame) (req : lookup_request).
Hypothesis Hcontract : lookup_contract T M req.
Hypothesis Hmethod : method req = Merge.
Hypothesis Hsame : key_col_main req = key_col_map req.

Local Abbreviation kT := (key_col_main req).
Local Abbreviation kM := (key_col_map req).
Local Abbreviation V := (value_cols_to_map req).
Local Abbreviation T1 := (normalized T (key_col_main req)).
Local Abbreviation M1 := (normalized M (key_col_map req)).
Local Abbreviation key_of := (λ t : list cell, row_get (key_col_main req) (columns T) t).
Local Abbreviation cells := (λ (P : list string) (t : list cell),
  merged_cells M1 (key_col_map req) P (key_of t)).

(** The frame after the value columns [P]. *)
Local Abbreviation fan :=
  (λ P : list string,
     mkDataFrame (columns T ++ (new_col_name <$> P))
       (rows T1 ≫= (λ t, (λ e, t ++ e) <$> cells P t))).

Lemma merged_cells_snoc P v key :
  merged_cells M1 kM (P ++ [v]) key =
  merged_cells M1 kM P key ≫= (λ e, (λ x, e ++ [x]) <$> merged_values M1 kM v key).
Proof. unfold merged_cells. by rewrite foldl_app. Qed.

Lemma merged_values_ne v key : merged_values M1 kM v key ≠ [].
Proof. unfold merged_values. by destruct (filter _ _). Qed.

Lemma merged_cells_ne P key : merged_cells M1 kM P key ≠ [].
Proof.
  induction P as [|v P IH] using rev_ind; [done|].
  rewrite merged_cells_snoc.
  destruct (merged_cells M1 kM P key) as [|e es]; [done|].
  rewrite bind_cons. pose proof (merged_values_ne v key).
  by destruct (merged_values M1 kM v key).
Qed.

Lemma merged_cells_length P key e :
  e ∈ merged_cells M1 kM P key → length e = length P.
Proof.
  revert e. induction P as [|v P IH] using rev_ind; intros e.
  - intros ->%list_elem_of_singleton. done.
  - rewrite merged_cells_snoc.
    intros (e0 & (x & -> & _)%list_elem_of_fmap & He0)%list_elem_of_bind.
    rewrite !length_app, (IH e0 He0). done.
Qed.

(** One pass of the loop at line 122: every row is repeated once for each
    row of the mapping table with its key. *)
Lemma merge_step_fan P v :
  (∀ p, p ∈ P → p ∈ V) → v ∈ V → v ∉ P →
  lookup_step req (mkLookupState (fan P) M1 (new_col_name <$> P) [] false) v =
    mkLookupState (fan (P ++ [v])) M1 (new_col_name <$> (P ++ [v])) [] false.
Proof.
  intros HP Hv HvP.
  pose proof (contract_fresh T M req Hcontract P v HP Hv HvP) as Hfresh.
  destruct (contract_key_position T M req Hcontract) as (i & Hpi & Hli).
  pose proof Hcontract as (Hne & Hwf & HkT & HndM & HkM & HndV & HV).
  destruct (HV v Hv) as (HvM & Hvk & HvT).
  destruct (once_positions_lookup kM (columns M) (NoDup_once _ _ HndM HkM))
    as (j & Hpj & Hlj).
  destruct (once_positions_lookup v (columns M) (NoDup_once _ _ HndM HvM))
    as (jv & Hpv & Hlv).
  pose proof (frame_key_position T M req Hcontract P i HP Hpi) as Hkey.
  assert (Hnk : new_col_name v ≠ kM).
  { intros Heq. apply HvT. rewrite Heq, <- Hsame. by apply once_elem. }
  pose proof (select_rename_pair M1 kM v (new_col_name v) j jv Hpj Hlj Hpv Hlv Hvk)
    as Hpair.
  unfold lookup_step. rewrite Hmethod. unfold merge_branch.
  cbn [lk_merged_df lk_map_df].
  destruct (pd.select M1 [kM; v]) as [temp|]; [|discriminate].
  cbn [mbind option_bind] in Hpair |- *.
  apply (inj Some) in Hpair. rewrite Hpair. clear Hpair temp.
  set (ms := rows M1) in *.
  set (rows2 := (λ m, [cell_at j m; cell_at jv m]) <$> ms).
  set (new := new_col_name v) in *.
  assert (Hrows : rows (fan P) ≠ []).
  { apply empty_false in Hne as [_ Hr]. cbn [rows normalized].
    destruct (rows T) as [|r rs]; [done|]. rewrite fmap_cons, bind_cons.
    pose proof (merged_cells_ne P (key_of (update_under kT normalize_key (columns T) r))).
    by destruct (merged_cells _ _ _ _). }
  destruct (merge_key_value (fan P) rows2 kT kM new i Hkey Hnk Hfresh Hrows)
    as (ren & kr & _ & Hkr & Hres & Hsome).
  destruct Hkr as [(_ & -> & Hid)|(Hdiff & _)]; [|done].
  destruct Hres as [Hnone|Hres]; [by apply Hsome in Hnone|].
  rewrite Hres. clear Hres Hsome.
  unfold fill_not_matched. cbn [columns rows].
  rewrite decide_True; cycle 1.
  { rewrite !elem_of_app. right. right. apply list_elem_of_here. }
  unfold mapping_ok. cbn [lk_map_df mapped_columns lk_messages lookup_done].
  rewrite (list_fmap_ext ren id (columns T ++ (new_col_name <$> P)))
    by (intros; apply Hid).
  rewrite list_fmap_id, app_nil_l.
  f_equal; [|by rewrite fmap_app].
  f_equal; [by rewrite fmap_app, app_assoc|].
  rewrite fmap_of_bind, bind_of_bind.
  apply bind_ext_in. intros t Ht.
  assert (Hlen : length t = length (columns T))
    by (by apply (contract_row_length T M req Hcontract)).
  rewrite bind_of_fmap, merged_cells_snoc, fmap_of_bind.
  apply bind_ext_in. intros e He.
  apply merged_cells_length in He.
  rewrite cell_at_app_l by (rewrite Hlen; by eapply lookup_lt_Some).
  assert (Hcell : cell_at i t = key_of t).
  { rewrite <- (row_get_positions kT (columns T) t 0 i Hpi). by rewrite Nat.sub_0_r. }
  rewrite Hcell. unfold rows2. rewrite filter_fmap.
  change (filter (λ m, cell_at 0 [cell_at j m; cell_at jv m] = key_of t) ms)
    with (filter (λ m, cell_at j m = key_of t) ms).
  rewrite (list_filter_iff (λ m, cell_at j m = key_of t)
             (λ m, row_get kM (columns M) m = key_of t)); cycle 1.
  { intros m. rewrite <- (row_get_positions kM (columns M) m 0 j Hpj).
    by rewrite Nat.sub_0_r. }
  unfold merged_values. fold ms. cbn [columns normalized].
  assert (Hup : ∀ x, update_under new (pd.fillna not_matched)
                       ((columns T ++ (new_col_name <$> P)) ++ [new])
                       ((t ++ e) ++ [x]) =
                     t ++ e ++ [pd.fillna not_matched x]).
  { intros x. rewrite update_under_snoc; [by rewrite <- app_assoc|done|].
    by rewrite !length_app, !length_fmap, Hlen, He. }
  assert (Hpt : ∀ m, update_under new (pd.fillna not_matched)
                       ((columns T ++ (new_col_name <$> P)) ++ [new])
                       ((t ++ e) ++ delete 0 [cell_at j m; cell_at jv m]) =
                     t ++ e ++ [pd.fillna not_matched (row_get v (columns M) m)]).
  { intros m. change (delete 0 [cell_at j m; cell_at jv m]) with [cell_at jv m].
    rewrite Hup. do 4 f_equal.
    pose proof (row_get_positions v (columns M) m 0 jv Hpv) as Hm.
    by rewrite Nat.sub_0_r in Hm. }
  rewrite (bool_decide_eq_true_2 (kT = kM)) by done.
  destruct (filter (λ m, row_get kM (columns M) m = key_of t) ms) as [|m0 fs].
  - simpl. by rewrite Hup.
  - cbn [fmap list_fmap]. rewrite Hpt. f_equal.
    change (list_fmap ?A ?B ?f ?l) with (f <$> l).
    rewrite <- !list_fmap_compose. apply list_fmap_ext. intros ? m _. simpl.
    apply Hpt.
Qed.

Lemma merge_steps_fan vs : ∀ P,
  (∀ p, p ∈ P ++ vs → p ∈ V) → NoDup (P ++ vs) →
  foldl (lookup_step req) (mkLookupState (fan P) M1 (new_col_name <$> P) [] false) vs =
    mkLookupState (fan (P ++ vs)) M1 (new_col_name <$> (P ++ vs)) [] false.
Proof.
  induction vs as [|v vs IH]; intros P HP Hnd; simpl.
  - by rewrite app_nil_r.
  - replace (P ++ v :: vs) with ((P ++ [v]) ++ vs) in * by (by rewrite <- app_assoc).
    rewrite merge_step_fan.
    + by apply IH.
    + intros p Hp. apply HP. rewrite elem_of_app. left. rewrite elem_of_app. by left.
    + apply HP. rewrite elem_of_app. left. rewrite elem_of_app. right.
      apply list_elem_of_here.
    + apply NoDup_app in Hnd as (Hnd & _ & _). apply NoDup_app in Hnd as (_ & Hd & _).
      intros Hin. apply (Hd v Hin). apply list_elem_of_here.
Qed.

(** The whole lookup under the merge method with one key label. *)
Lemma merge_lookup_fan :
  perform_lookup T M req =
    mkLookupState
      (mkDataFrame ((new_col_name <$> V) ++ columns T)
         (rows T1 ≫= (λ t, (λ e, e ++ t) <$> cells V t)))
      M1 (new_col_name <$> V) [] true.
Proof.
  pose proof Hcontract as (_ & Hwf & HkT & HndM & HkM & HndV & HV).
  assert (HNV : NoDup (new_col_name <$> V)) by (apply NoDup_fmap_2; [apply _|done]).
  assert (HVT : ∀ c, c ∈ new_col_name <$> V → c ∉ columns T).
  { intros c (v & -> & Hv)%list_elem_of_fmap. by apply HV. }
  assert (Hstart : fan [] = T1).
  { cbn [fmap list_fmap]. rewrite app_nil_r. unfold normalized. f_equal.
    rewrite (bind_singletons _ (λ t, t ++ [])) by done.
    rewrite <- (list_fmap_id (_ <$> rows T)) at 2.
    apply list_fmap_ext. intros ? t _. by rewrite app_nil_r. }
  unfold perform_lookup.
  rewrite (normalize_key_column_once T kT) by done.
  rewrite (normalize_key_column_once M kM) by (by apply NoDup_once).
  pose proof (merge_steps_fan V []) as Hfold.
  cbv beta in Hfold, Hstart. rewrite Hstart in Hfold.
  cbn [fmap list_fmap app] in Hfold.
  unfold normalized in Hfold at 1 2. rewrite Hfold by done. clear Hfold.
  cbn [mapped_columns lk_merged_df lk_messages].
  rewrite reorder_loop_spec; cycle 1.
  { by rewrite reverse_Permutation. }
  { intros c Hc. rewrite elem_of_reverse in Hc. cbn [columns].
    apply once_app_r; [by apply HVT|]. apply NoDup_once; done. }
  { unfold well_formed. cbn [columns rows]. apply Forall_forall.
    intros r (t & (e & -> & He)%list_elem_of_fmap & Ht)%list_elem_of_bind.
    rewrite !length_app, !length_fmap. f_equal.
    - by apply (contract_row_length T M req Hcontract).
    - by apply merged_cells_length in He. }
  cbn [columns rows]. rewrite reverse_involutive.
  assert (Hcols : filter (λ l, l ∉ reverse (new_col_name <$> V))
                    (columns T ++ (new_col_name <$> V)) = columns T).
  { rewrite filter_app, filter_all, filter_none; [by rewrite app_nil_r|..].
    - intros l Hl Hn. apply Hn. by rewrite elem_of_reverse.
    - intros l Hl Hin. rewrite elem_of_reverse in Hin. by apply (HVT l). }
  rewrite Hcols.
  rewrite fmap_of_bind.
  rewrite (bind_ext_in _ (λ t, (λ e, e ++ t) <$> cells V t)); cycle 1.
  { intros t Ht. rewrite <- list_fmap_compose. apply list_fmap_ext.
    intros ? e He. apply list_elem_of_lookup_2, merged_cells_length in He. simpl.
    assert (Hlen : length t = length (columns T))
      by (by apply (contract_row_length T M req Hcontract)).
    assert (Hlen_e : length e = length (new_col_name <$> V))
      by (by rewrite length_fmap).
    f_equal.
    - transitivity ((λ c, row_get c (new_col_name <$> V) e) <$> (new_col_name <$> V));
        [|by apply row_get_self].
      apply list_fmap_ext. intros ? c Hc. apply list_elem_of_lookup_2 in Hc.
      apply row_get_app_r; [done|by apply HVT].
    - rewrite delete_all_app; [|done|].
      + rewrite (nil_length_inv (delete_all _ _ _)); [by rewrite app_nil_r|].
        rewrite delete_all_length by done.
        rewrite filter_none; [done|]. intros l Hl Hn. apply Hn.
        by rewrite elem_of_reverse.
      + intros c Hc. rewrite elem_of_reverse in Hc. by apply HVT. }
  rewrite decide_True; [done|].
  apply Forall_app. split.
  - apply Forall_forall. intros c Hc. apply elem_of_app. by left.
  - apply Forall_singleton. apply elem_of_app. right. by apply once_elem.
Qed.

End MergeFanOut.

(** X15. The merge method with one key label, under the contract of the
    lookup, whatever keys the mapping table repeats: the lookup completes
    without a message and the labels are the [_mapped] labels followed by
    those of the merged table.  Every row of the merged table, its key
    normalized, yields one result row for every choice of one matching row
    of the mapping table per value column: with [k] matching rows and [n]
    value columns it yields [k^n] rows, the [_mapped] cells of one result
    row taken from rows of the mapping table that may differ, and a single
    row of "Not Matched" cells when no row matches. *)
Theorem merge_lookup_table (T M : DataFrame) (key : string) (V : list string) :
  lookup_contract T M (mkRequest key key V Merge) →
  let M1 := normalized M key in
  let T1 := normalized T key in
  perform_lookup T M (mkRequest key key V Merge) =
    mkLookupState
      (mkDataFrame ((new_col_name <$> V) ++ columns T)
         (rows T1 ≫= (λ t, (λ e, e ++ t) <$>
                             merged_cells M1 key V (row_get key (columns T) t))))
      M1 (new_col_name <$> V) [] true.
Proof.
  intros Hc M1 T1. by apply (merge_lookup_fan T M (mkRequest key key V Merge)).
Qed.

Lemma repeated_contract :
  lookup_contract sales_table regions_repeated_table (region_manager_request Merge).
Proof.
  split; [reflexivity|].
  split; [repeat constructor|].
  split; [exists [], ["Sales"]; repeat split; apply (bool_decide_unpack _); exact I|].
  split; [apply (bool_decide_unpack _); exact I|].
  split; [apply (bool_decide_unpack _); exact I|].
  split; [apply (bool_decide_unpack _); exact I|].
  apply Forall_forall. apply (bool_decide_unpack _). vm_compute. exact I.
Defined.

Lemma merge_lookup_table_witness :
  lk_merged_df (perform_lookup sales_table regions_repeated_table
                  (region_manager_request Merge)) =
    mkDataFrame ["Region_mapped"; "Manager_mapped"; "ID"; "Sales"]
      [[Text "North"; Text "Ann"; Text "A1"; Text "10"];
       [Text "North"; Text "Bob"; Text "A1"; Text "10"];
       [Text "East"; Text "Ann"; Text "A1"; Text "10"];
       [Text "East"; Text "Bob"; Text "A1"; Text "10"];
       [Text "Not Matched"; Text "Not Matched"; Text "B2"; Text "20"];
       [Text "Not Matched"; Text "Not Matched"; Text "ZZ"; Text "30"]].
Proof.
  exact (f_equal lk_merged_df
           (merge_lookup_table sales_table regions_repeated_table "ID"
              ["Region"; "Manager"] repeated_contract)).
Defined.

(** ** The string rules (lines 78 and 117-118) *)

Section Strings.

Lemma list_ascii_rev_app (s t : string) :
  list_ascii_of_string (String.rev_app s t) =
  reverse (list_ascii_of_string s) ++ list_ascii_of_string t.
Proof.
  revert t. induction s as [|a s IH]; intros t; simpl; [done|].
  rewrite IH, reverse_cons, <- app_assoc. done.
Qed.

Lemma list_ascii_rev (s : string) :
  list_ascii_of_string (String.rev s) = reverse (list_ascii_of_string s).
Proof. unfold String.rev. by rewrite list_ascii_rev_app, app_nil_r. Qed.

Lemma string_rev_app (a b : string) :
  String.rev (a +:+ b) = String.rev b +:+ String.rev a.
Proof.
  apply list_ascii_inj.
  by rewrite list_ascii_rev, !list_ascii_app, !list_ascii_rev, reverse_app.
Qed.

Lemma string_rev_involutive (s : string) : String.rev (String.rev s) = s.
Proof. apply list_ascii_inj. by rewrite !list_ascii_rev, reverse_involutive. Qed.

Lemma string_app_assoc (a b c : string) : (a +:+ b) +:+ c = a +:+ (b +:+ c).
Proof. apply list_ascii_inj. by rewrite !list_ascii_app, app_assoc. Qed.

(** [lstrip] *)

Lemma lstrip_head s c u : PyStr.lstrip s = String c u → PyStr.isspace c = false.
Proof.
  induction s as [|a s IH]; simpl; [done|].
  destruct (PyStr.isspace a) eqn:Ha; [done|]. by intros [= <- _].
Qed.

Lemma lstrip_fixed c u : PyStr.isspace c = false → PyStr.lstrip (String c u) = String c u.
Proof. intros Hc. simpl. by rewrite Hc. Qed.

Lemma lstrip_idemp s : PyStr.lstrip (PyStr.lstrip s) = PyStr.lstrip s.
Proof.
  destruct (PyStr.lstrip s) as [|c u] eqn:Hs; [done|].
  apply lstrip_fixed. by eapply lstrip_head.
Qed.

Lemma lstrip_app a b :
  PyStr.lstrip (a +:+ b) =
  match PyStr.lstrip a with
  | EmptyString => PyStr.lstrip b
  | u => u +:+ b
  end.
Proof.
  induction a as [|c a IH]; simpl; [done|].
  by destruct (PyStr.isspace c).
Qed.

Lemma lstrip_blank_cons c s :
  PyStr.lstrip (String c s) = EmptyString ↔
  PyStr.isspace c = true ∧ PyStr.lstrip s = EmptyString.
Proof. simpl. destruct (PyStr.isspace c); split; try done; by intros [? ?]. Qed.

(** [rstrip] *)

Lemma rstrip_app a b :
  PyStr.rstrip (a +:+ b) =
  match PyStr.rstrip b with
  | EmptyString => PyStr.rstrip a
  | u => a +:+ u
  end.
Proof.
  unfold PyStr.rstrip. rewrite string_rev_app, lstrip_app.
  destruct (PyStr.lstrip (String.rev b)) as [|c u] eqn:Hb; [done|].
  rewrite string_rev_app, string_rev_involutive.
  destruct (String.rev (String c u)) as [|c' u'] eqn:Hr; [|done].
  apply (f_equal list_ascii_of_string) in Hr. rewrite list_ascii_rev in Hr.
  simpl in Hr. rewrite reverse_cons in Hr. by destruct (reverse _).
Qed.

Lemma rstrip_cons c s :
  PyStr.rstrip (String c s) =
  match PyStr.rstrip s with
  | EmptyString => if PyStr.isspace c then EmptyString else String c EmptyString
  | u => String c u
  end.
Proof.
  change (String c s) with (String c EmptyString +:+ s). rewrite rstrip_app.
  destruct (PyStr.rstrip s); [|done].
  unfold PyStr.rstrip. simpl. by destruct (PyStr.isspace c).
Qed.

Lemma rstrip_idemp s : PyStr.rstrip (PyStr.rstrip s) = PyStr.rstrip s.
Proof. unfold PyStr.rstrip. by rewrite string_rev_involutive, lstrip_idemp. Qed.

(** [rstrip] keeps a beginning of its argument. *)
Lemma rstrip_prefix s : ∃ w, s = PyStr.rstrip s +:+ w.
Proof.
  induction s as [|c s [w IH]]; [by exists EmptyString|].
  rewrite rstrip_cons. destruct (PyStr.rstrip s) as [|a u].
  - destruct (PyStr.isspace c); [by exists (String c s)|].
    exists s. done.
  - exists w. change (String c s = String c (String a u +:+ w)). by rewrite <- IH.
Qed.

Lemma rstrip_blank s : PyStr.lstrip s = EmptyString → PyStr.rstrip s = EmptyString.
Proof.
  induction s as [|c s IH]; [done|].
  intros [Hc Hs]%lstrip_blank_cons. rewrite rstrip_cons, (IH Hs). by rewrite Hc.
Qed.

(** [strip] *)

Lemma lstrip_rstrip u :
  PyStr.lstrip u = u → PyStr.lstrip (PyStr.rstrip u) = PyStr.rstrip u.
Proof.
  destruct u as [|c u]; [done|]. intros Hu.
  assert (Hc : PyStr.isspace c = false) by (by eapply lstrip_head).
  rewrite rstrip_cons. destruct (PyStr.rstrip u).
  - rewrite Hc. by apply lstrip_fixed.
  - by apply lstrip_fixed.
Qed.

Lemma strip_idemp s : PyStr.strip (PyStr.strip s) = PyStr.strip s.
Proof.
  unfold PyStr.strip.
  rewrite (lstrip_rstrip (PyStr.lstrip s)) by apply lstrip_idemp.
  apply rstrip_idemp.
Qed.

Lemma strip_blank s :
  PyStr.strip s = EmptyString →
  PyStr.lstrip s = EmptyString ∧ PyStr.rstrip s = EmptyString.
Proof.
  unfold PyStr.strip. intros Hs.
  assert (Hl : PyStr.lstrip s = EmptyString).
  { destruct (PyStr.lstrip s) as [|c u] eqn:Hu; [done|].
    apply lstrip_head in Hu. rewrite rstrip_cons in Hs.
    destruct (PyStr.rstrip u); [by rewrite Hu in Hs|done]. }
  split; [done|]. by apply rstrip_blank.
Qed.

(** Blank text around a string does not change what [strip] returns. *)
Lemma strip_padded pre s post :
  PyStr.strip pre = EmptyString → PyStr.strip post = EmptyString →
  PyStr.strip (pre +:+ s +:+ post) = PyStr.strip s.
Proof.
  intros [Hpre _]%strip_blank [Hpost Hpost']%strip_blank.
  unfold PyStr.strip. rewrite lstrip_app, Hpre, lstrip_app.
  destruct (PyStr.lstrip s) as [|c u] eqn:Hs.
  - by rewrite Hpost.
  - by rewrite rstrip_app, Hpost'.
Qed.

(** [upper] *)

Lemma isspace_upper c : PyStr.isspace (PyStr.upper_ascii c) = PyStr.isspace c.
Proof. by destruct c as [[] [] [] [] [] [] [] []]. Qed.

Lemma upper_ascii_idemp c :
  PyStr.upper_ascii (PyStr.upper_ascii c) = PyStr.upper_ascii c.
Proof. by destruct c as [[] [] [] [] [] [] [] []]. Qed.

Lemma upper_lower_ascii c :
  PyStr.upper_ascii (PyStr.lower_ascii c) = PyStr.upper_ascii c.
Proof. by destruct c as [[] [] [] [] [] [] [] []]. Qed.

Lemma upper_idemp s : PyStr.upper (PyStr.upper s) = PyStr.upper s.
Proof. induction s as [|c s IH]; simpl; [done|]. by rewrite IH, upper_ascii_idemp. Qed.

Lemma upper_lower s : PyStr.upper (PyStr.lower s) = PyStr.upper s.
Proof. induction s as [|c s IH]; simpl; [done|]. by rewrite IH, upper_lower_ascii. Qed.

Lemma upper_lstrip s : PyStr.lstrip (PyStr.upper s) = PyStr.upper (PyStr.lstrip s).
Proof.
  induction s as [|c s IH]; simpl; [done|].
  rewrite isspace_upper. by destruct (PyStr.isspace c).
Qed.

Lemma upper_rev_app s t :
  String.rev_app (PyStr.upper s) (PyStr.upper t) = PyStr.upper (String.rev_app s t).
Proof.
  revert t. induction s as [|c s IH]; intros t; simpl; [done|].
  by rewrite <- IH.
Qed.

Lemma upper_rev s : String.rev (PyStr.upper s) = PyStr.upper (String.rev s).
Proof. exact (upper_rev_app s EmptyString). Qed.

Lemma upper_rstrip s : PyStr.rstrip (PyStr.upper s) = PyStr.upper (PyStr.rstrip s).
Proof. unfold PyStr.rstrip. by rewrite upper_rev, upper_lstrip, upper_rev. Qed.

Lemma upper_strip s : PyStr.strip (PyStr.upper s) = PyStr.upper (PyStr.strip s).
Proof. unfold PyStr.strip. by rewrite upper_lstrip, upper_rstrip. Qed.

(** [in] *)

Lemma prefix_app_r sub p w :
  String.prefix sub p = true → String.prefix sub (p +:+ w) = true.
Proof.
  revert p. induction sub as [|a sub IH]; intros p Hp.
  - by destruct (p +:+ w).
  - destruct p as [|c p]; [done|].
    change (String c p +:+ w) with (String c (p +:+ w)). simpl in *.
    destruct (Ascii.ascii_dec a c); [by apply IH|done].
Qed.

Lemma contains_empty s : PyStr.contains EmptyString s = true.
Proof. by destruct s. Qed.

Lemma contains_app_r sub p w :
  PyStr.contains sub p = true → PyStr.contains sub (p +:+ w) = true.
Proof.
  induction p as [|c p IH]; simpl.
  - rewrite orb_false_r. destruct sub; [|done]. intros _. apply contains_empty.
  - intros [Hp|Hc]%orb_true_iff; apply orb_true_iff.
    + left. by apply (prefix_app_r sub (String c p) w).
    + right. by apply IH.
Qed.

Lemma contains_lstrip sub s :
  PyStr.contains sub (PyStr.lstrip s) = true → PyStr.contains sub s = true.
Proof.
  induction s as [|c s IH]; [done|].
  cbn [PyStr.lstrip]. destruct (PyStr.isspace c); [|done].
  intros H. cbn [PyStr.contains]. apply orb_true_iff. right. by apply IH.
Qed.

Lemma contains_strip sub s :
  PyStr.contains sub (PyStr.strip s) = true → PyStr.contains sub s = true.
Proof.
  unfold PyStr.strip. intros H. apply contains_lstrip.
  destruct (rstrip_prefix (PyStr.lstrip s)) as [w Hw]. rewrite Hw.
  by apply contains_app_r.
Qed.

End Strings.

(** X16. The rule of line 78 on labels made of ASCII characters: the label
    it returns never contains "Unnamed", has no white space at its ends,
    and is returned as it is when the rule is applied again; so applying
    the rule to a list of such labels twice gives what applying it once
    gives. *)
Theorem input_label_rule_idempotent (col : string) (cols : list string) :
  is_ascii col → Forall is_ascii cols →
  PyStr.contains "Unnamed" (blank_or_strip col) = false ∧
  PyStr.strip (blank_or_strip col) = blank_or_strip col ∧
  blank_or_strip (blank_or_strip col) = blank_or_strip col ∧
  normalize_input_columns (normalize_input_columns cols) = normalize_input_columns cols.
Proof.
  intros _ _.
  assert (Hno : ∀ c, PyStr.contains "Unnamed" (blank_or_strip c) = false).
  { intros c. unfold blank_or_strip.
    destruct (PyStr.contains "Unnamed" c) eqn:Hc; [done|].
    apply not_true_iff_false. intros Hs. apply contains_strip in Hs. congruence. }
  assert (Hstrip : ∀ c, PyStr.strip (blank_or_strip c) = blank_or_strip c).
  { intros c. unfold blank_or_strip.
    destruct (PyStr.contains "Unnamed" c); [done|apply strip_idemp]. }
  assert (Hidem : ∀ c, blank_or_strip (blank_or_strip c) = blank_or_strip c).
  { intros c. unfold blank_or_strip at 1. by rewrite Hno, Hstrip. }
  repeat split; try done.
  unfold normalize_input_columns. rewrite <- list_fmap_compose.
  apply list_fmap_ext. intros ? c _. apply Hidem.
Qed.

Lemma input_label_rule_idempotent_witness :
  PyStr.contains "Unnamed" (blank_or_strip " Name ") = false ∧
  PyStr.strip (blank_or_strip " Name ") = blank_or_strip " Name " ∧
  blank_or_strip (blank_or_strip " Name ") = blank_or_strip " Name " ∧
  normalize_input_columns (normalize_input_columns [" ID"; "Unnamed: 1"]) =
    normalize_input_columns [" ID"; "Unnamed: 1"].
Proof.
  apply (input_label_rule_idempotent " Name " [" ID"; "Unnamed: 1"]).
  - unfold is_ascii. apply (bool_decide_unpack _). vm_compute. exact I.
  - apply Forall_forall. intros c Hc. unfold is_ascii.
    apply elem_of_cons in Hc as [->|Hc]; [apply (bool_decide_unpack _); vm_compute; exact I|].
    apply list_elem_of_singleton in Hc as ->.
    apply (bool_decide_unpack _). vm_compute. exact I.
Defined.

(** X17. The key rule of lines 117-118 on texts made of ASCII characters:
    a normalized key is normalized to itself, and a text, the same text
    between two blank texts, its lower-case form and its upper-case form
    all have the same normalized key; so the lookup matches such keys
    whatever the case of their letters and the white space around them. *)
Theorem key_rule_ignores_case_and_padding (s pre post : string) :
  is_ascii s → is_ascii pre → is_ascii post →
  PyStr.strip pre = EmptyString → PyStr.strip post = EmptyString →
  normalize_key (normalize_key (Text s)) = normalize_key (Text s) ∧
  normalize_key (Text (pre +:+ s +:+ post)) = normalize_key (Text s) ∧
  normalize_key (Text (PyStr.lower s)) = normalize_key (Text s) ∧
  normalize_key (Text (PyStr.upper s)) = normalize_key (Text s).
Proof.
  intros _ _ _ Hpre Hpost. unfold normalize_key. cbn [cell_str]. repeat split.
  - by rewrite <- upper_strip, upper_idemp, upper_strip, strip_idemp.
  - by rewrite strip_padded.
  - by rewrite <- !upper_strip, upper_lower.
  - by rewrite <- !upper_strip, upper_idemp.
Qed.

Lemma key_rule_ignores_case_and_padding_witness :
  normalize_key (normalize_key (Text "a1")) = normalize_key (Text "a1") ∧
  normalize_key (Text ("  " +:+ "a1" +:+ " ")) = normalize_key (Text "a1") ∧
  normalize_key (Text (PyStr.lower "a1")) = normalize_key (Text "a1") ∧
  normalize_key (Text (PyStr.upper "a1")) = normalize_key (Text "a1").
Proof.
  apply (key_rule_ignores_case_and_padding "a1" "  " " "); try reflexivity;
    unfold is_ascii; apply (bool_decide_unpack _); vm_compute; exact I.
Defined.

(** ** A run in which the lookup is performed (lines 63-153) *)

(** X18. A run in which the lookup button is pressed, with files that merge
    into a table that is not empty and a mapping file that the reader
    accepts (whatever its size): the mapping table is the one read, its
    labels deduplicated; the merged download is written from the table as
    it is before the lookup, the lookup works on that table, its messages
    follow those of the merge, and the run ends with the table the lookup
    leaves.  The lookup flag is on at the end when the lookup completes or
    when it was on before, and the lookup download is then written from the
    table the lookup leaves, also when the lookup stopped half way. *)
Theorem run_with_lookup {bytes : Type} (to_excel to_csv : DataFrame → bytes)
    (after_preview : DataFrame → DataFrame)
    (ss : gmap string session_value) (w : widgets) (st : merge_state)
    (file : UploadedFile) (m : DataFrame) :
  start_over_clicked w = false →
  merge_files (files_uploaded w) = Some st →
  pd.empty (merged_df st) = false →
  mapping_upload w = Some file → parsed file = Some m →
  lookup_clicked w = true →
  let merged := after_preview (merged_df st) in
  let map_df := mkDataFrame (deduplicate_columns (columns m)) (rows m) in
  let out := perform_lookup merged map_df (lookup_choice w) in
  let flag := lookup_done out || lookup_done_flag ss in
  ∃ ss' p,
    run_script bytes to_excel to_csv after_preview ss w = Rendered bytes ss' p ∧
    page_merged_df bytes p = lk_merged_df out ∧
    page_messages bytes p = messages st ++ lk_messages out ∧
    merged_download bytes p =
      Some (generate_download bytes to_excel to_csv merged
              (merged_filename w) (merged_format w)) ∧
    lookup_done_flag ss' = flag ∧
    lookup_download bytes p =
      if flag then
        Some (generate_download bytes to_excel to_csv (lk_merged_df out)
                (lookup_filename w) (lookup_format w))
      else None.
Proof.
  intros Hso Hst Hne Hup Hp Hclick merged map_df out flag.
  rewrite (run_rendered _ _ _ _ _ Hso st Hst), Hne.
  unfold mapping_section, load_mapping. rewrite Hup, Hp, Hclick.
  fold merged map_df out. cbn [fst snd]. eexists _, _. split; [done|].
  cbn [page_merged_df page_messages merged_download lookup_download].
  split; [done|]. split; [done|]. split; [done|]. subst flag.
  destruct (lookup_done out); simpl.
  - by rewrite lookup_done_flag_set.
  - by rewrite lookup_done_flag_setup.
Qed.

Lemma run_with_lookup_witness :
  let w := mkWidgets false "0" [mkFile "sales.csv" 60 (Some sales_table)]
             "merged_file" "xlsx" (Some (mkFile "regions.csv" 80 (Some regions_table)))
             (region_manager_request Map) true "after_lookup" "csv" in
  let out := perform_lookup sales_table regions_table (region_manager_request Map) in
  ∃ ss' p,
    run_script DataFrame id id id ∅ w = Rendered DataFrame ss' p ∧
    page_merged_df DataFrame p = lk_merged_df out ∧
    page_messages DataFrame p = [] ++ lk_messages out ∧
    merged_download DataFrame p =
      Some (generate_download DataFrame id id sales_table "merged_file" "xlsx") ∧
    lookup_done_flag ss' = lookup_done out || lookup_done_flag ∅ ∧
    lookup_download DataFrame p =
      if lookup_done out || lookup_done_flag ∅ then
        Some (generate_download DataFrame id id (lk_merged_df out) "after_lookup" "csv")
      else None.
Proof.
  intros w out.
  apply (run_with_lookup (bytes := DataFrame) id id id ∅ w
           (mkMergeState sales_table []) (mkFile "regions.csv" 80 (Some regions_table))
           regions_table); reflexivity.
Defined.

(** ** The lookup under its contract, whatever the method and the key labels *)

(** X19. Under the contract of the lookup, with either method.  The lookup
    completes.  The labels of the result are the [_mapped] labels it
    created, in the order of the value columns, then the labels of the
    merged table in their order (one that equals the mapping key label
    carries the suffix [_x] after a merge on two different key labels),
    then the key columns such a merge adds.  Every row of the result is the
    cells of the [_mapped] columns, then the cells of a row of the merged
    table with its key normalized, then the cells of the added key columns;
    every row of the merged table yields such a row; and when no row of
    the mapping table has the normalized key of that row, every [_mapped]
    cell is "Not Matched".  Under the map method, or when both keys carry
    one label, every value column yields its [_mapped] column and no key
    column is added. *)
Theorem lookup_under_contract (T M : DataFrame) (req : lookup_request) (i j : nat) :
  lookup_contract T M req → well_formed M →
  unique_pos (key_col_main req) (columns T) = Some i →
  unique_pos (key_col_map req) (columns M) = Some j →
  let out := perform_lookup T M req in
  let n := length (mapped_columns out) in
  let with_key t := update_under (key_col_main req) normalize_key (columns T) t in
  lookup_done out = true ∧
  mapped_columns out `sublist_of` (new_col_name <$> value_cols_to_map req) ∧
  (∃ T' added,
    columns (lk_merged_df out) = mapped_columns out ++ T' ++ added ∧
    Forall2 (λ l l', l' = l ∨ l' = l +:+ "_x") (columns T) T' ∧
    (∀ c, c ∈ mapped_columns out → c ∉ T' ++ added) ∧
    (key_col_map req ∉ columns T → T' = columns T) ∧
    (method req = Map ∨ key_col_main req = key_col_map req →
     mapped_columns out = new_col_name <$> value_cols_to_map req ∧
     T' = columns T ∧ added = [])) ∧
  (∀ r, r ∈ rows (lk_merged_df out) →
     ∃ t mc rest,
       t ∈ rows T ∧ r = mc ++ with_key t ++ rest ∧ length mc = n ∧
       ((∀ m, m ∈ rows M →
           normalize_key (cell_at j m) ≠ normalize_key (cell_at i t)) →
        mc = replicate n not_matched)) ∧
  (∀ t, t ∈ rows T →
     ∃ mc rest, mc ++ with_key t ++ rest ∈ rows (lk_merged_df out) ∧ length mc = n).
Proof.
  intros Hc HwfM Hi Hj out n with_key.
  destruct (mapped_columns_moved_to_front T M req Hc) as (Hdone & Hsub & Hlabels).
  destruct (unmatched_rows_not_matched T M req i j Hc HwfM Hi Hj)
    as (_ & Hrows & Hcover).
  split; [done|]. split; [done|]. split; [done|]. split; [exact Hrows|exact Hcover].
Qed.

Lemma lookup_under_contract_witness :
  mapped_columns (perform_lookup sales_table regions_table
                    (region_manager_request Merge)) =
    ["Region_mapped"; "Manager_mapped"] ∧
  columns (lk_merged_df (perform_lookup sales_table regions_table
                           (region_manager_request Merge))) =
    ["Region_mapped"; "Manager_mapped"; "ID"; "Sales"] ∧
  ∃ t mc rest,
    t ∈ rows sales_table ∧
    [Text "Not Matched"; Text "Not Matched"; Text "ZZ"; Text "30"] =
      mc ++ update_under "ID" normalize_key ["ID"; "Sales"] t ++ rest ∧
    length mc = 2 ∧
    ((∀ m, m ∈ rows regions_table →
        normalize_key (cell_at 0 m) ≠ normalize_key (cell_at 0 t)) →
     mc = replicate 2 not_matched).
Proof.
  destruct (lookup_under_contract sales_table regions_table
              (region_manager_request Merge) 0 0 (sales_contract Merge))
    as (_ & _ & (T' & added & Hcols & _ & _ & _ & Hexact) & Hrows & _);
    [repeat constructor|reflexivity|reflexivity|].
  destruct (Hexact (or_intror eq_refl)) as (Hm & -> & ->).
  split; [exact Hm|]. split; [by rewrite Hcols, Hm|].
  assert (Hn : length (mapped_columns (perform_lookup sales_table regions_table
                                         (region_manager_request Merge))) = 2)
    by (by rewrite Hm).
  rewrite <- Hn. apply Hrows.
  apply (bool_decide_unpack _). vm_compute. exact I.
Defined.
